(** * MNIST int8 quantizer and golden-model simulator

    A shallow embedding of [trainning/train_quantize_export.py]: the
    symmetric scale estimator, the weight/bias quantizer, the power-of-two
    shift solver, the [.mem] exporters and the integer-only forward pass
    that produces the golden prediction for the FPGA.

    Conventions.
    - An integer tensor is the list of its elements as [Z]; its dtype
      (int8, int32) is a range invariant, and every operation that can
      leave the range wraps the way the two's-complement kernels do.
    - A 2-D tensor is the list of its rows; one without rows stands for
      the empty tensor of the width its operand asks for.
    - A float is a [spec_float] of the Standard Library, at precision
      24/128 for torch's float32 tensors and 53/1024 for Python floats.
    - Python exceptions are the [Err] outcomes of [result].
    - A float-to-integer conversion that C++ leaves undefined (a NaN, an
      infinity, a value out of range) raises nothing: it has the result
      of the x86-64 conversion instruction that torch's CPU kernels
      execute. *)

From Stdlib Require Import String Ascii.
From Stdlib Require Import ZArith List Bool Lia.
From Stdlib Require Import QArith Qabs Qround Qpower Lqa.
From Stdlib Require Import SpecFloat.
From Stdlib Require Import DecimalString DecimalZ Permutation.
Import ListNotations.
Local Open Scope Z_scope.

(* ================================================================== *)
(** * Part I: the program                                              *)
(* ================================================================== *)

(** ** Outcomes *)

Inductive error : Type :=
| RuntimeError        (* torch: shape mismatch, max() of an empty tensor *)
| IndexError          (* torch: argmax() of an empty tensor; ds[i] out of range *)
| OverflowError       (* Python: round(inf), float(2**1024), an int too wide for C *)
| ValueError          (* Python: round(nan) *)
| ZeroDivisionError   (* Python: float division by zero *).

Inductive result (A : Type) : Type :=
| Ok (a : A)
| Err (e : error).
Arguments Ok {A} a.
Arguments Err {A} e.

Definition bind {A B : Type} (r : result A) (k : A -> result B) : result B :=
  match r with
  | Ok a => k a
  | Err e => Err e
  end.

Notation "x <- r ;; k" := (bind r (fun x => k))
  (at level 61, r at next level, right associativity).

(** ** Fixed-width integers *)

Module Int.

(** Two's-complement reduction of [v] to [bits] bits. *)
Definition wrap (bits v : Z) : Z :=
  (v + 2 ^ (bits - 1)) mod 2 ^ bits - 2 ^ (bits - 1).

Definition in_range (bits v : Z) : Prop :=
  - 2 ^ (bits - 1) <= v < 2 ^ (bits - 1).

Definition in_rangeb (bits v : Z) : bool :=
  (- 2 ^ (bits - 1) <=? v) && (v <? 2 ^ (bits - 1)).

Definition add32 (a b : Z) : Z := wrap 32 (a + b).
Definition mul32 (a b : Z) : Z := wrap 32 (a * b).

End Int.

Definition is_int8 (t : list Z) : Prop := Forall (Int.in_range 8) t.
Definition is_int32 (t : list Z) : Prop := Forall (Int.in_range 32) t.

(** ** Binary floating point

    Arithmetic is the Standard Library's [SpecFloat] (round to nearest,
    ties to even).  What [SpecFloat] does not provide -- rounding to an
    integral value, conversion between formats and to integers, the
    rational value of a float -- is defined here over the same
    representation. *)

Module Fp.

Definition is_nan (x : spec_float) : bool :=
  match x with S754_nan => true | _ => false end.

Definition is_inf (x : spec_float) : bool :=
  match x with S754_infinity _ => true | _ => false end.

Definition is_zero (x : spec_float) : bool :=
  match x with S754_zero _ => true | _ => false end.

Definition is_finite (x : spec_float) : bool :=
  match x with S754_zero _ | S754_finite _ _ _ => true | _ => false end.

Definition pow2Q (e : Z) : Q := (2 ^ e)%Q.

(** The rational a float denotes ([0] for infinities and NaN). *)
Definition SF2Q (x : spec_float) : Q :=
  match x with
  | S754_finite s m e => (inject_Z (cond_Zopp s (Zpos m)) * pow2Q e)%Q
  | _ => 0%Q
  end.

(** Nearest integer to [m / d], ties to the even one ([0 < d]). *)
Definition rne_div (m d : Z) : Z :=
  let q := m / d in
  match 2 * (m mod d) ?= d with
  | Lt => q
  | Gt => q + 1
  | Eq => if Z.even q then q else q + 1
  end.

(** The integer nearest to a finite float, ties to even. *)
Definition rint_Z (x : spec_float) : Z :=
  match x with
  | S754_finite s m e =>
      cond_Zopp s (if 0 <=? e then Zpos m * 2 ^ e
                   else rne_div (Zpos m) (2 ^ (- e)))
  | _ => 0
  end.

(** The integer part of a finite float (C's float-to-integer cast). *)
Definition trunc_Z (x : spec_float) : Z :=
  match x with
  | S754_finite s m e =>
      cond_Zopp s (if 0 <=? e then Zpos m * 2 ^ e else Zpos m / 2 ^ (- e))
  | _ => 0
  end.

(** The x86-64 conversion of a float to a 32-bit integer (cvttss2si):
    the integer part when it fits, and otherwise -- a NaN, an infinity, a
    value out of range -- the "integer indefinite" value [-2^31]. *)
Definition cvtt32 (x : spec_float) : Z :=
  if is_finite x && Int.in_rangeb 32 (trunc_Z x) then trunc_Z x else - 2 ^ 31.

(** C++ [static_cast] of a float to a signed integer of [bits <= 32]
    bits.  The standard defines it only when the integer part fits; the
    compiled kernel raises nothing and keeps the low [bits] bits of what
    the conversion instruction returns. *)
Definition to_int (bits : Z) (x : spec_float) : Z := Int.wrap bits (cvtt32 x).

(** [min(max(x, lo), hi)] as the clamp kernel computes it: a NaN input
    stays NaN. *)
Definition clamp (lo hi x : spec_float) : spec_float :=
  if is_nan x then x
  else
    let y := if SFltb x lo then lo else x in
    if SFltb hi y then hi else y.

(** The running maximum of a reduction: a NaN wins. *)
Definition max_nan (a b : spec_float) : spec_float :=
  if is_nan a then a
  else if is_nan b then b
  else if SFltb a b then b else a.

Section Format.
Variables prec emax : Z.

(** An integer rounded into the format. *)
Definition of_Z (n : Z) : spec_float := binary_normalize prec emax n 0 false.

(** A float of another format rounded into this one. *)
Definition convert (x : spec_float) : spec_float :=
  match x with
  | S754_finite s m e => binary_normalize prec emax (cond_Zopp s (Zpos m)) e s
  | _ => x
  end.

(** [nearbyint]: the float holding [rint_Z x]; a float with a
    non-negative exponent is integral already. *)
Definition rint (x : spec_float) : spec_float :=
  match x with
  | S754_finite s m e =>
      if 0 <=? e then x else binary_normalize prec emax (rint_Z x) 0 s
  | _ => x
  end.

End Format.

End Fp.

(** torch's float32. *)
Module F32.
Definition prec : Z := 24.
Definition emax : Z := 128.
Definition valid (x : spec_float) : bool := valid_binary prec emax x.
Definition div : spec_float -> spec_float -> spec_float := SFdiv prec emax.
Definition of_Z : Z -> spec_float := Fp.of_Z prec emax.
Definition of_f64 : spec_float -> spec_float := Fp.convert prec emax.
Definition rint : spec_float -> spec_float := Fp.rint prec emax.
End F32.

(** Python's float (binary64). *)
Module F64.
Definition prec : Z := 53.
Definition emax : Z := 1024.
Definition valid (x : spec_float) : bool := valid_binary prec emax x.
Definition div : spec_float -> spec_float -> spec_float := SFdiv prec emax.
Definition mul : spec_float -> spec_float -> spec_float := SFmul prec emax.
Definition of_Z : Z -> spec_float := Fp.of_Z prec emax.
Definition of_f32 : spec_float -> spec_float := Fp.convert prec emax.
Definition zero : spec_float := S754_zero false.
Definition one : spec_float := S754_finite false 4503599627370496 (-52).
End F64.

(** ** Python's float operations *)

Module Py.

(** [float(n)] for an int [n], as the mixed-type operators do it. *)
Definition float_of_int (n : Z) : result spec_float :=
  let x := F64.of_Z n in
  if Fp.is_inf x then Err OverflowError else Ok x.

(** [a / b] on floats. *)
Definition truediv (a b : spec_float) : result spec_float :=
  if Fp.is_zero b then Err ZeroDivisionError else Ok (F64.div a b).

(** [a > b] on floats. *)
Definition gt (a b : spec_float) : bool := SFltb b a.

(** [round(x)] with one argument: an int, ties to even. *)
Definition round (x : spec_float) : result Z :=
  match x with
  | S754_nan => Err ValueError
  | S754_infinity _ => Err OverflowError
  | _ => Ok (Fp.rint_Z x)
  end.

End Py.

(** ** The tensor operations the script calls *)

(** *** integer tensors *)

Module Torch.

(** [t.to(torch.int32)], [t.to(torch.int8)] on an integer tensor. *)
Definition to_int (bits : Z) (t : list Z) : list Z := map (Int.wrap bits) t.

(** One output element of an int32 [matmul]: products and partial sums
    wrap at 32 bits. *)
Fixpoint dot32 (w x : list Z) : Z :=
  match w, x with
  | a :: w', b :: x' => Int.add32 (Int.mul32 a b) (dot32 w' x')
  | _, _ => 0
  end.

(** [torch.matmul] of an (out, in) matrix with an (in,) vector. *)
Definition matmul32 (W : list (list Z)) (x : list Z) : result (list Z) :=
  if forallb (fun row => Nat.eqb (length row) (length x)) W
  then Ok (map (fun row => dot32 row x) W)
  else Err RuntimeError.

(** [a + b] on two 1-D int32 tensors, with torch's broadcasting of a
    length-1 operand. *)
Definition add32 (a b : list Z) : result (list Z) :=
  if Nat.eqb (length a) (length b)
  then Ok (map (fun p => Int.add32 (fst p) (snd p)) (combine a b))
  else match a, b with
       | [a0], _ => Ok (map (fun v => Int.add32 a0 v) b)
       | _, [b0] => Ok (map (fun v => Int.add32 v b0) a)
       | _, _ => Err RuntimeError
       end.

(** A Python int given where torch expects a number is unpacked into a
    64-bit scalar, signed or unsigned; Python refuses one that fits
    neither. *)
Definition scalar_of_int (n : Z) : result Z :=
  if (- 2 ^ 63 <=? n) && (n <? 2 ^ 64) then Ok n else Err OverflowError.

(** [a >> s] on an int32 tensor with a Python int [s].  The count is
    cast to the tensor's dtype, which keeps its low 32 bits as an int32;
    the CPU kernel then shifts by 31 when that count is negative or at
    least 31, so the sign bit fills the word. *)
Definition rshift32 (a : list Z) (s : Z) : result (list Z) :=
  c <- scalar_of_int s ;;
  let b := Int.wrap 32 c in
  let n := if (b <? 0) || (31 <=? b) then 31 else b in
  Ok (map (fun v => Z.shiftr v n) a).

(** [torch.clamp(a, lo, hi)] = min(max(a, lo), hi). *)
Definition clamp (a : list Z) (lo hi : Z) : list Z :=
  map (fun v => Z.min (Z.max v lo) hi) a.

(** [torch.maximum(a, torch.tensor(c))] with a 0-dim second operand. *)
Definition maximum (a : list Z) (c : Z) : list Z :=
  map (fun v => Z.max v c) a.

(** [torch.argmax] of a 1-D tensor: the index of the first maximal
    element; an empty tensor has none. *)
Fixpoint argmax_from (best_i : nat) (best : Z) (i : nat) (l : list Z) : nat :=
  match l with
  | [] => best_i
  | v :: l' =>
      if best <? v then argmax_from i v (S i) l'
      else argmax_from best_i best (S i) l'
  end.

Definition argmax (l : list Z) : result nat :=
  match l with
  | [] => Err IndexError
  | v :: l' => Ok (argmax_from 0 v 1 l')
  end.

(** *** float32 tensors *)

Definition abs (t : list spec_float) : list spec_float := map SFabs t.

(** [t.max()] over all the elements. *)
Definition max (t : list spec_float) : result spec_float :=
  match t with
  | [] => Err RuntimeError
  | x :: t' => Ok (fold_left Fp.max_nan t' x)
  end.

(** [x.item()]: the float32 element as a Python float. *)
Definition item (x : spec_float) : spec_float := F64.of_f32 x.

(** [t / s] with a Python float [s]: the scalar is cast to the tensor's
    dtype and the division is a float32 one. *)
Definition div_scalar (t : list spec_float) (s : spec_float) : list spec_float :=
  map (fun v => F32.div v (F32.of_f64 s)) t.

(** [t.round()], [torch.round(t)]. *)
Definition round (t : list spec_float) : list spec_float := map F32.rint t.

(** [torch.clamp(t, lo, hi)] with Python int bounds. *)
Definition clampf (t : list spec_float) (lo hi : Z) : list spec_float :=
  map (Fp.clamp (F32.of_Z lo) (F32.of_Z hi)) t.

(** [t.to(torch.int8)], [t.to(torch.int32)] on a float tensor. *)
Definition to_intf (bits : Z) (t : list spec_float) : list Z :=
  map (Fp.to_int bits) t.

End Torch.

(** ** Python's string formatting *)

Module Fmt.

Definition hex_digit (d : Z) : ascii :=
  nth (Z.to_nat d) (list_ascii_of_string "0123456789abcdef") "0"%char.

(** The hex digits of [n >= 0], least significant first, no leading
    zero ([0] is the single digit zero). *)
Fixpoint hex_rev (fuel : nat) (n : Z) : list ascii :=
  match fuel with
  | O => []
  | S fuel' =>
      hex_digit (n mod 16)
        :: (if n / 16 =? 0 then [] else hex_rev fuel' (n / 16))
  end.

Definition hex (n : Z) : string :=
  string_of_list_ascii (rev (hex_rev (S (Z.to_nat (Z.log2 n))) n)).

(** Left padding with the fill character up to a minimum width. *)
Definition zfill (width : nat) (s : string) : string :=
  (string_of_list_ascii (repeat "0"%char (width - String.length s)) ++ s)%string.

(** [format(n, "0{width}x")] for [n >= 0]. *)
Definition format_0x (width : nat) (n : Z) : string := zfill width (hex n).

Definition newline : string := String "010"%char EmptyString.

End Fmt.

(** A file opened with mode "w": [f.write(s)] appends to what the block
    has written so far. *)
Definition write (f s : string) : string := (f ++ s)%string.

(** ** The script *)

(** *** 3) Helper: symmetric int8 scales *)

Definition calc_scale_sym (t : list spec_float) (int8_max : Z) : result spec_float :=
  mx <- Torch.max (Torch.abs t) ;;
  let m := Torch.item mx in
  if Py.gt m F64.zero
  then (d <- Py.float_of_int int8_max ;; Py.truediv m d)
  else Ok F64.one.

Definition clamp_int8 (a : list spec_float) : list Z :=
  Torch.to_intf 8 (Torch.clampf a (-128) 127).

Definition save_mem_int8 (arr2d : list (list Z)) : string :=
  fold_left
    (fun f row =>
       write f (String.concat " " (map (fun v => Fmt.format_0x 2 (Z.land v 255)) row)
                  ++ Fmt.newline)%string)
    arr2d EmptyString.

Definition save_mem_int32 (arr1d : list Z) : string :=
  fold_left
    (fun f v => write f (Fmt.format_0x 8 (Z.land v 4294967295) ++ Fmt.newline)%string)
    arr1d EmptyString.

(** *** 5) Quantize weights & biases *)

(** An [nn.Linear]: the (out, in) float32 weight and the float32 bias. *)
Record Linear : Type := {
  weight : list (list spec_float);
  bias : list spec_float
}.

Definition quantize_linear (linear : Linear) (in_scale w_scale : spec_float)
  : list (list Z) * list Z :=
  let Wf := weight linear in
  let bf := bias linear in
  let Wq := map (fun row => clamp_int8 (Torch.round (Torch.div_scalar row w_scale))) Wf in
  let bias_scale := F64.mul in_scale w_scale in
  let bq := Torch.to_intf 32 (Torch.round (Torch.div_scalar bf bias_scale)) in
  (Wq, bq).

(** *** 6) Compute right-shift(s) for hardware *)

Section ShiftSolver.

(** [math.log2], the C library's; it is a parameter of the model. *)
Variable log2 : spec_float -> spec_float.

Definition M1_of (acc1_scale scale_h1_target : spec_float) : result spec_float :=
  Py.truediv acc1_scale
    (if Py.gt scale_h1_target F64.zero then scale_h1_target else F64.one).

Definition shift1_of (M1 : spec_float) : result Z :=
  if Py.gt M1 F64.zero
  then (n <- Py.round (log2 M1) ;; Ok (Z.max 0 n))
  else Ok 0.

(** [acc1_scale / (2**shift1)]; [shift1 >= 0], so the power is an int. *)
Definition scale_h1_eff_of (acc1_scale : spec_float) (shift1 : Z) : result spec_float :=
  d <- Py.float_of_int (2 ^ shift1) ;;
  Py.truediv acc1_scale d.

End ShiftSolver.

(** *** 8) The quantized sample *)

Definition x0_q (x0 : list spec_float) (scale_x : spec_float) : list Z :=
  Torch.to_intf 8 (Torch.clampf (Torch.round (Torch.div_scalar x0 scale_x)) (-128) 127).

(** *** The module-level variables *)

Record Globals : Type := {
  scale_x : spec_float;
  scale_w1 : spec_float;
  scale_w2 : spec_float;
  scale_h1_target : spec_float;
  W1_q : list (list Z);
  b1_q : list Z;
  acc1_scale : spec_float;
  M1 : spec_float;
  shift1 : Z;
  scale_h1_eff : spec_float;
  in2_scale : spec_float;
  W2_q : list (list Z);
  b2_q : list Z;
  h1_q_sim : list Z;
  acc2_scale : spec_float;
  shift2 : Z
}.

(** What sections 4 to 6 read: the trained layers, the flattened
    calibration batch and the float hidden activations
    [model.act(model.fc1(x_flat))] observed on it. *)
Record Calibration : Type := {
  fc1 : Linear;
  fc2 : Linear;
  x_flat : list spec_float;
  h1_f : list spec_float
}.

(** Sections 4 to 6, top to bottom. *)
Definition calibrate_and_quantize (log2 : spec_float -> spec_float) (c : Calibration)
  : result Globals :=
  scale_x <- calc_scale_sym (x_flat c) 127 ;;
  scale_w1 <- calc_scale_sym (concat (weight (fc1 c))) 127 ;;
  scale_w2 <- calc_scale_sym (concat (weight (fc2 c))) 127 ;;
  scale_h1_target <- calc_scale_sym (h1_f c) 127 ;;
  let q1 := quantize_linear (fc1 c) scale_x scale_w1 in
  let acc1_scale := F64.mul scale_x scale_w1 in
  M1 <- M1_of acc1_scale scale_h1_target ;;
  shift1 <- shift1_of log2 M1 ;;
  scale_h1_eff <- scale_h1_eff_of acc1_scale shift1 ;;
  let in2_scale := scale_h1_eff in
  let q2 := quantize_linear (fc2 c) in2_scale scale_w2 in
  let h1_q_sim :=
    Torch.to_intf 8
      (Torch.clampf (Torch.round (Torch.div_scalar (h1_f c) scale_h1_eff)) (-128) 127) in
  let acc2_scale := F64.mul in2_scale scale_w2 in
  let shift2 := 0 in
  Ok {| scale_x := scale_x; scale_w1 := scale_w1; scale_w2 := scale_w2;
        scale_h1_target := scale_h1_target;
        W1_q := fst q1; b1_q := snd q1;
        acc1_scale := acc1_scale; M1 := M1; shift1 := shift1;
        scale_h1_eff := scale_h1_eff; in2_scale := in2_scale;
        W2_q := fst q2; b2_q := snd q2;
        h1_q_sim := h1_q_sim; acc2_scale := acc2_scale; shift2 := shift2 |}.

(** *** 9) Quantized forward in Python (mirrors hardware math) *)

Definition int8_mm_int32_acc (Wq : list (list Z)) (xq : list Z) : result (list Z) :=
  Torch.matmul32 (map (Torch.to_int 32) Wq) (Torch.to_int 32 xq).

Definition forward_quantized (g : Globals) (xq_int8 : list Z)
  : result (Z * list Z * list Z * list Z) :=
  mm1 <- int8_mm_int32_acc (W1_q g) xq_int8 ;;
  acc1 <- Torch.add32 mm1 (b1_q g) ;;
  shifted <- Torch.rshift32 acc1 (shift1 g) ;;
  let h1_q := Torch.to_int 8 (Torch.clamp shifted (-128) 127) in
  let h1_q := Torch.maximum h1_q 0 in
  mm2 <- int8_mm_int32_acc (W2_q g) h1_q ;;
  acc2 <- Torch.add32 mm2 (b2_q g) ;;
  pred <- Torch.argmax acc2 ;;
  Ok (Z.of_nat pred, acc1, h1_q, acc2).

(** *** 7) and 8) The exported text files, the sample *)

(** [f"{n}"] for an int [n]: the decimal digits, a minus sign first when
    [n] is negative. *)
Definition format_d (n : Z) : string := NilZero.string_of_int (Z.to_int n).

(** The [with open(ART/"sample_input.mem", "w")] block: one byte per line. *)
Definition save_sample_input (x0_q : list Z) : string :=
  fold_left
    (fun f v => write f (Fmt.format_0x 2 (Z.land v 255) ++ Fmt.newline)%string)
    x0_q EmptyString.

(** A dataset: [ds[i]] is the pair of an image, its pixels in the order
    of [view(-1)], and its label. *)
Definition Dataset : Type := list (list spec_float * Z).

(** The [for i in range(len(test_ds))] loop: [test_idx] keeps its initial
    value unless some [test_ds[i][1] == 3], and the loop stops at the
    first such [i].  [None] is the IndexError of [test_ds[i]]. *)
Fixpoint find_test_idx (test_ds : Dataset) (range : list nat) (test_idx : nat)
  : option nat :=
  match range with
  | [] => Some test_idx
  | i :: range' =>
      match nth_error test_ds i with
      | None => None
      | Some sample =>
          if snd sample =? 3 then Some i
          else find_test_idx test_ds range' test_idx
      end
  end.

Definition test_idx (test_ds : Dataset) : option nat :=
  find_test_idx test_ds (seq 0 (length test_ds)) 0.

(** *** The script, sections 4 to 9

    The files the script has written, the newest first, and the
    exception it ended with, if any.  A file opened for writing replaces
    the one of the same name, so reading takes the newest text of a
    name.  Training (sections 1 and 2) is not part of the model: the
    trained layers and the calibration data are its inputs.  The [print]
    calls are left out. *)

Definition Files : Type := list (string * string).

(** [(ART/name).write_text(text)] and the [open(ART/name, "w")] blocks. *)
Definition write_text (name text : string) (fs : Files) : Files := (name, text) :: fs.

(** The content of a file, if it has been written. *)
Fixpoint read_text (fs : Files) (name : string) : option string :=
  match fs with
  | [] => None
  | (n, text) :: fs' => if String.eqb n name then Some text else read_text fs' name
  end.

Section Script.

Variable log2 : spec_float -> spec_float.

(** [f"{x}"] for a float [x], the shortest decimal that reads back as
    [x]; it is a parameter of the model. *)
Variable format_float : spec_float -> string.

(** Section 7. *)
Definition save_params (g : Globals) (fs : Files) : Files :=
  let fs := write_text "scale_x.txt" (format_float (scale_x g) ++ Fmt.newline) fs in
  let fs := write_text "scale_w1.txt" (format_float (scale_w1 g) ++ Fmt.newline) fs in
  let fs := write_text "scale_w2.txt" (format_float (scale_w2 g) ++ Fmt.newline) fs in
  let fs := write_text "shift1.txt" (format_d (shift1 g) ++ Fmt.newline) fs in
  let fs := write_text "shift2.txt" (format_d (shift2 g) ++ Fmt.newline) fs in
  let fs := write_text "W1.mem" (save_mem_int8 (W1_q g)) fs in
  let fs := write_text "b1.mem" (save_mem_int32 (b1_q g)) fs in
  let fs := write_text "W2.mem" (save_mem_int8 (W2_q g)) fs in
  write_text "b2.mem" (save_mem_int32 (b2_q g)) fs.

(** Sections 4 to 9, top to bottom. *)
Definition script (c : Calibration) (test_ds : Dataset) : Files * option error :=
  match calibrate_and_quantize log2 c with
  | Err e => ([], Some e)
  | Ok g =>
      let fs := save_params g [] in
      match test_idx test_ds with
      | None => (fs, Some IndexError)
      | Some test_idx =>
          match nth_error test_ds test_idx with
          | None => (fs, Some IndexError)
          | Some (test_img, test_label) =>
              let x0 := test_img in
              let x0_q := x0_q x0 (scale_x g) in
              let fs := write_text "sample_input.mem" (save_sample_input x0_q) fs in
              let fs := write_text "sample_label.txt"
                          (format_d test_label ++ Fmt.newline) fs in
              match forward_quantized g x0_q with
              | Err e => (fs, Some e)
              | Ok (pred_q, acc1_q, h1_q, acc2_q) =>
                  (write_text "golden_pred_int32.txt"
                     (format_d pred_q ++ Fmt.newline) fs, None)
              end
          end
      end
  end.

End Script.

(** ** Notions used to state the properties *)

(** The exact integer dot product. *)
Fixpoint dot (w x : list Z) : Z :=
  match w, x with
  | a :: w', b :: x' => a * b + dot w' x'
  | _, _ => 0
  end.

(** An affine layer in int32 arithmetic: row [i] of the result is
    [W[i] . x + b[i]] reduced to 32 bits. *)
Definition affine32 (W : list (list Z)) (b x : list Z) : list Z :=
  map (fun rb => Int.wrap 32 (dot (fst rb) x + snd rb)) (combine W b).

(** Requantization of one accumulator: arithmetic shift (the floor of the
    division by [2^s]), saturation to int8, then ReLU. *)
Definition requant_relu (s a : Z) : Z :=
  Z.max (Z.min (Z.max (a / 2 ^ s) (-128)) 127) 0.

(** [i] is the position of the first maximal element of [l]. *)
Definition is_first_max (l : list Z) (i : nat) : Prop :=
  (i < length l)%nat /\
  (forall j, (j < length l)%nat -> nth j l 0 <= nth i l 0) /\
  (forall j, (j < i)%nat -> nth j l 0 < nth i l 0).

(** The shapes and dtypes of a two-layer pipeline and its input; the
    shift count is one an int32 holds. *)
Record pipeline_ok (g : Globals) (x : list Z) : Prop := {
  ok_shift : 0 <= shift1 g < 2 ^ 31;
  ok_W1_cols : Forall (fun row => length row = length x) (W1_q g);
  ok_b1_len : length (b1_q g) = length (W1_q g);
  ok_W2_cols : Forall (fun row => length row = length (W1_q g)) (W2_q g);
  ok_b2_len : length (b2_q g) = length (W2_q g);
  ok_outputs : W2_q g <> [];
  ok_x : is_int8 x;
  ok_W1 : Forall is_int8 (W1_q g);
  ok_W2 : Forall is_int8 (W2_q g);
  ok_b1 : is_int32 (b1_q g);
  ok_b2 : is_int32 (b2_q g)
}.

(** The unsigned view of a two's-complement integer of [bits] bits. *)
Definition unsigned (bits v : Z) : Z := if v <? 0 then v + 2 ^ bits else v.

(** The low [w] hex digits of [u], least significant first. *)
Fixpoint hex_fixed_rev (w : nat) (u : Z) : list ascii :=
  match w with
  | O => []
  | S w' => Fmt.hex_digit (u mod 16) :: hex_fixed_rev w' (u / 16)
  end.

(** A token of exactly [w] lowercase hex digits, most significant first. *)
Definition hex_token (w : nat) (u : Z) : string :=
  string_of_list_ascii (rev (hex_fixed_rev w u)).

Definition is_lower_hex (c : ascii) : bool :=
  existsb (Ascii.eqb c) (list_ascii_of_string "0123456789abcdef").

Fixpoint string_forallb (p : ascii -> bool) (s : string) : bool :=
  match s with
  | EmptyString => true
  | String c s' => p c && string_forallb p s'
  end.

(** The number a string of lowercase hex digits denotes. *)
Definition hex_digit_value (c : ascii) : Z :=
  let n := Z.of_nat (nat_of_ascii c) in
  if n <? 97 then n - 48 else n - 87.

Fixpoint hex_value_from (acc : Z) (s : string) : Z :=
  match s with
  | EmptyString => acc
  | String c s' => hex_value_from (16 * acc + hex_digit_value c) s'
  end.

Definition hex_value (s : string) : Z := hex_value_from 0 s.

(** The newline-terminated lines of a text. *)
Fixpoint lines_from (cur s : string) : list string :=
  match s with
  | EmptyString => match cur with EmptyString => [] | _ => [cur] end
  | String c s' =>
      if Ascii.eqb c "010"%char then cur :: lines_from EmptyString s'
      else lines_from (cur ++ String c EmptyString)%string s'
  end.

Definition lines (s : string) : list string := lines_from EmptyString s.

(** [s.split(" ")]: the fields between single spaces. *)
Fixpoint split_from (cur s : string) : list string :=
  match s with
  | EmptyString => [cur]
  | String c s' =>
      if Ascii.eqb c " "%char then cur :: split_from EmptyString s'
      else split_from (cur ++ String c EmptyString)%string s'
  end.

Definition split_spaces (s : string) : list string := split_from EmptyString s.

(** The text made of the given lines, each followed by a newline. *)
Fixpoint unlines (ls : list string) : string :=
  match ls with
  | [] => EmptyString
  | l :: ls' => (l ++ Fmt.newline ++ unlines ls')%string
  end.

(** One line of the weight file and one line of the bias file. *)
Definition weight_line (row : list Z) : string :=
  String.concat " " (map (fun v => hex_token 2 (unsigned 8 v)) row).

Definition bias_line (v : Z) : string := hex_token 8 (unsigned 32 v).

(** How a reader of the exported files gets the numbers back: the words
    of a line are its non-empty fields, a hex word denotes a
    two's-complement integer, a decimal file holds one integer. *)
Definition words (s : string) : list string :=
  filter (fun t => negb (String.eqb t EmptyString)) (split_spaces s).

Definition read_mem_int8 (text : string) : list (list Z) :=
  map (fun l => map (fun t => Int.wrap 8 (hex_value t)) (words l)) (lines text).

Definition read_mem_int32 (text : string) : list Z :=
  map (fun l => Int.wrap 32 (hex_value l)) (lines text).

Definition read_int (text : string) : option Z :=
  match lines text with
  | [l] => option_map Z.of_int (NilZero.int_of_string l)
  | _ => None
  end.

Definition read_int_file (fs : Files) (name : string) : option Z :=
  match read_text fs name with
  | Some text => read_int text
  | None => None
  end.

(** The names of the files, in the order in which they were written. *)
Definition written (fs : Files) : list string := rev (map fst fs).

(** The shape of a float layer. *)
Definition linear_shape (l : Linear) (n_out n_in : nat) : Prop :=
  length (weight l) = n_out /\
  Forall (fun row => length row = n_in) (weight l) /\
  length (bias l) = n_out.

(** Saturation of an integer to the int8 range. *)
Definition sat8 (n : Z) : Z := Z.min (Z.max n (-128)) 127.

(** The float32 ratio [v / s] the quantizers round, [s] a Python float. *)
Definition ratio32 (v s : spec_float) : spec_float := F32.div v (F32.of_f64 s).

(** The int8 a float32 ratio is quantized to: the nearest integer,
    saturated; an infinite ratio saturates as well, and a NaN gives 0. *)
Definition quant8 (r : spec_float) : Z :=
  match r with
  | S754_nan => 0
  | S754_infinity s => if s then -128 else 127
  | _ => sat8 (Fp.rint_Z r)
  end.

(** The int32 a float32 ratio is stored as: the nearest integer when the
    ratio is finite and that integer fits in 32 bits, [-2^31] otherwise. *)
Definition quant32 (r : spec_float) : Z :=
  if Fp.is_finite r && Int.in_rangeb 32 (Fp.rint_Z r) then Fp.rint_Z r else - 2 ^ 31.

(** A pipeline whose logits are the given vector: one input, one hidden
    unit, zero layer-2 weights and the vector as the layer-2 bias. *)
Definition logits_pipeline (l : list Z) : Globals :=
  {| scale_x := F64.one; scale_w1 := F64.one; scale_w2 := F64.one;
     scale_h1_target := F64.one;
     W1_q := [[0]]; b1_q := [0];
     acc1_scale := F64.one; M1 := F64.one; shift1 := 0;
     scale_h1_eff := F64.one; in2_scale := F64.one;
     W2_q := map (fun _ => [0]) l; b2_q := l;
     h1_q_sim := []; acc2_scale := F64.one; shift2 := 0 |}.

(** A float whose sign bit is clear: [+0.0], a positive number or
    [+inf]. *)
Definition nonneg (x : spec_float) : bool :=
  match x with
  | S754_nan => false
  | S754_zero s | S754_infinity s | S754_finite s _ _ => negb s
  end.

(** A float32 holding a real number: a finite float of the format. *)
Definition real32 (v : spec_float) : Prop :=
  F32.valid v = true /\ Fp.is_finite v = true.


(** The shape of a mantissa/exponent pair of a binary format: at most
    [prec] digits, and fewer only at the smallest exponent. *)
Definition shaped (prec emax m e : Z) : Prop :=
  emin prec emax <= e /\ Zdigits2 m <= prec /\ (Zdigits2 m < prec -> e = emin prec emax).

(** The rational quotient of two positive floats, which the float
    division rounds. *)
Definition Qquot (mx my : positive) (ex ey : Z) : Q :=
  ((inject_Z (Zpos mx) * Fp.pow2Q ex) / (inject_Z (Zpos my) * Fp.pow2Q ey))%Q.

(** ** Concrete values for the examples *)

Module Ex.

(** A 2-input, 3-hidden, 2-output pipeline whose two logits tie. *)
Definition pipeline (sx : spec_float) (s2 : Z) : Globals :=
  {| scale_x := sx; scale_w1 := F64.one; scale_w2 := F64.one;
     scale_h1_target := F64.one;
     W1_q := [[1; 2]; [-3; 4]; [5; -6]]; b1_q := [10; -20; 30];
     acc1_scale := F64.one; M1 := F64.one; shift1 := 1;
     scale_h1_eff := F64.one; in2_scale := F64.one;
     W2_q := [[1; 1; 1]; [1; 1; 1]]; b2_q := [0; 0];
     h1_q_sim := []; acc2_scale := F64.one; shift2 := s2 |}.

Definition input : list Z := [100; -100].

Definition weights : list (list Z) := [[1; -1; 127; -128]; [0; 16]].
Definition biases : list Z := [1; -1; 2147483647; -2147483648].

(** float32 values. *)
Definition half : spec_float := S754_finite false 8388608 (-24).
Definition one_and_half : spec_float := S754_finite false 12582912 (-23).
Definition two_and_half : spec_float := S754_finite false 10485760 (-22).
Definition minus_three_and_half : spec_float := S754_finite true 14680064 (-22).
Definition hundred : spec_float := S754_finite false 13107200 (-17).
Definition thousand : spec_float := S754_finite false 16384000 (-14).
Definition linear : Linear :=
  {| weight := [[half; one_and_half]; [two_and_half; minus_three_and_half]];
     bias := [hundred; minus_three_and_half] |}.

Definition one_and_three_quarters : spec_float := S754_finite false 14680064 (-23).

(** The Python float 0.7. *)
Definition seven_tenths : spec_float := S754_finite false 6305039478318694 (-53).

(** A stand-in for [math.log2] in the examples: the exponent of the
    leading bit, that is the floor of the logarithm. *)
Definition ilog2 (x : spec_float) : spec_float :=
  match x with
  | S754_finite _ m e => F64.of_Z (Zpos (digits2_pos m) + e - 1)
  | _ => x
  end.

(** Python floats 1024.0 and 0.25. *)
Definition f64_1024 : spec_float := S754_finite false 4503599627370496 (-42).
Definition f64_quarter : spec_float := S754_finite false 4503599627370496 (-54).

(** A 2-input, 2-hidden, 1-output float model with its calibration data. *)
Definition calibration : Calibration :=
  {| fc1 := {| weight := [[half; one_and_half]; [two_and_half; minus_three_and_half]];
               bias := [hundred; minus_three_and_half] |};
     fc2 := {| weight := [[one_and_half; half]]; bias := [two_and_half] |};
     x_flat := [half; one_and_half; half; half];
     h1_f := [hundred; thousand] |}.

(** The two-layer pipeline with a shift count beyond the word size. *)
Definition deep_shift : Globals :=
  {| scale_x := F64.one; scale_w1 := F64.one; scale_w2 := F64.one;
     scale_h1_target := F64.one;
     W1_q := [[1; 2]; [-3; 4]; [5; -6]]; b1_q := [10; -20; 30];
     acc1_scale := F64.one; M1 := F64.one; shift1 := 40;
     scale_h1_eff := F64.one; in2_scale := F64.one;
     W2_q := [[1; 1; 1]; [1; 1; 1]]; b2_q := [5; 9];
     h1_q_sim := []; acc2_scale := F64.one; shift2 := 0 |}.

(** The same pipeline without its output layer. *)
Definition no_outputs : Globals :=
  {| scale_x := F64.one; scale_w1 := F64.one; scale_w2 := F64.one;
     scale_h1_target := F64.one;
     W1_q := [[1; 2]; [-3; 4]; [5; -6]]; b1_q := [10; -20; 30];
     acc1_scale := F64.one; M1 := F64.one; shift1 := 1;
     scale_h1_eff := F64.one; in2_scale := F64.one;
     W2_q := []; b2_q := [];
     h1_q_sim := []; acc2_scale := F64.one; shift2 := 0 |}.


(** A layer with an infinite weight. *)
Definition diverged : Linear :=
  {| weight := [[half; S754_infinity false]]; bias := [half] |}.

(** A layer whose bias, the float32 3e9, does not fit in 32 bits at
    scale 1. *)
Definition three_billion : spec_float := S754_finite false 11718750 8.
Definition heavy_bias : Linear :=
  {| weight := [[half; one_and_half]]; bias := [three_billion] |}.

(** Python floats 2**1000 and 2**-1000: their quotient overflows. *)
Definition f64_huge : spec_float := S754_finite false 4503599627370496 948.
Definition f64_tiny : spec_float := S754_finite false 4503599627370496 (-1052).

(** The Python float 3.5 / 127, the scale of the weights of [linear]. *)
Definition scale_of_linear : spec_float := S754_finite false 7943356823078670 (-58).

(** A test set for [calibration]: the second image is the first one
    labelled 3. *)
Definition test_ds : Dataset :=
  [([half; one_and_half], 7); ([one_and_half; half], 3); ([half; half], 3)].

(** A stand-in for the float formatter in the examples. *)
Definition format_float (x : spec_float) : string := "<float>".

End Ex.

(* ================================================================== *)
(** * Part II: properties                                              *)
(* ================================================================== *)

(** ** Outcomes *)

Lemma bind_Ok {A B : Type} (r : result A) (k : A -> result B) (b : B) :
  bind r k = Ok b -> exists a, r = Ok a /\ k a = Ok b.
Proof.
  destruct r as [a|e]; simpl; intros H; [exists a; auto | discriminate].
Qed.

Ltac inv_bind H :=
  repeat match type of H with
         | bind _ _ = Ok _ =>
             let a := fresh "a" in
             let Ha := fresh "Ha" in
             apply bind_Ok in H; destruct H as (a & Ha & H)
         end.

(** ** Fixed-width integers *)

Lemma wrap8_eq (v : Z) : Int.wrap 8 v = (v + 128) mod 256 - 128.
Proof. reflexivity. Qed.

Lemma wrap32_eq (v : Z) :
  Int.wrap 32 v = (v + 2147483648) mod 4294967296 - 2147483648.
Proof. reflexivity. Qed.

Lemma in_range8_iff (v : Z) : Int.in_range 8 v <-> -128 <= v <= 127.
Proof. unfold Int.in_range; simpl; lia. Qed.

Lemma in_range32_iff (v : Z) :
  Int.in_range 32 v <-> -2147483648 <= v <= 2147483647.
Proof. unfold Int.in_range; simpl; lia. Qed.

Lemma wrap8_id (v : Z) : Int.in_range 8 v -> Int.wrap 8 v = v.
Proof.
  rewrite in_range8_iff, wrap8_eq; intros H.
  rewrite Z.mod_small; lia.
Qed.

Lemma wrap32_id (v : Z) : Int.in_range 32 v -> Int.wrap 32 v = v.
Proof.
  rewrite in_range32_iff, wrap32_eq; intros H.
  rewrite Z.mod_small; lia.
Qed.

Lemma wrap32_range (v : Z) : Int.in_range 32 (Int.wrap 32 v).
Proof.
  rewrite in_range32_iff, wrap32_eq.
  pose proof (Z.mod_pos_bound (v + 2147483648) 4294967296); lia.
Qed.

Lemma in_range_8_32 (v : Z) : Int.in_range 8 v -> Int.in_range 32 v.
Proof. rewrite in_range8_iff, in_range32_iff; lia. Qed.

Lemma wrap32_add_l (a b : Z) : Int.wrap 32 (Int.wrap 32 a + b) = Int.wrap 32 (a + b).
Proof.
  rewrite !wrap32_eq. f_equal.
  replace ((a + 2147483648) mod 4294967296 - 2147483648 + b + 2147483648)
    with ((a + 2147483648) mod 4294967296 + b) by lia.
  replace (a + b + 2147483648) with (a + 2147483648 + b) by lia.
  apply Zplus_mod_idemp_l.
Qed.

Lemma wrap32_add_r (a b : Z) : Int.wrap 32 (a + Int.wrap 32 b) = Int.wrap 32 (a + b).
Proof. rewrite (Z.add_comm a), wrap32_add_l, (Z.add_comm b); reflexivity. Qed.

Lemma to_int32_id (t : list Z) : is_int8 t -> Torch.to_int 32 t = t.
Proof.
  unfold Torch.to_int; induction 1 as [|v t Hv _ IH]; simpl; [reflexivity|].
  rewrite IH, wrap32_id; auto using in_range_8_32.
Qed.

(** ** Integer matmul and bias *)

Lemma dot32_dot (w x : list Z) : Torch.dot32 w x = Int.wrap 32 (dot w x).
Proof.
  revert x; induction w as [|a w IH]; intros [|b x]; simpl; try reflexivity.
  unfold Int.add32, Int.mul32. rewrite IH, wrap32_add_l, wrap32_add_r; reflexivity.
Qed.

Lemma forallb_length_eq (W : list (list Z)) (n : nat) :
  Forall (fun row => length row = n) W ->
  forallb (fun row => Nat.eqb (length row) n) W = true.
Proof.
  induction 1 as [|r W Hr _ IH]; simpl; [reflexivity|].
  rewrite IH, Hr, Nat.eqb_refl; reflexivity.
Qed.

Lemma int8_mm_int32_acc_ok (Wq : list (list Z)) (xq : list Z) :
  Forall (fun row => length row = length xq) Wq ->
  Forall is_int8 Wq -> is_int8 xq ->
  int8_mm_int32_acc Wq xq = Ok (map (fun row => Int.wrap 32 (dot row xq)) Wq).
Proof.
  intros Hlen HW Hx. unfold int8_mm_int32_acc, Torch.matmul32.
  rewrite (to_int32_id xq Hx).
  assert (Hmap : map (Torch.to_int 32) Wq = Wq).
  { clear Hlen. induction HW as [|r W Hr _ IH]; simpl; [reflexivity|].
    rewrite IH, to_int32_id; auto. }
  rewrite Hmap, forallb_length_eq by assumption.
  f_equal. apply map_ext; intros row; apply dot32_dot.
Qed.

Lemma add32_same_length (a b : list Z) :
  length a = length b ->
  Torch.add32 a b = Ok (map (fun p => Int.wrap 32 (fst p + snd p)) (combine a b)).
Proof.
  intros H. unfold Torch.add32. rewrite H, Nat.eqb_refl. reflexivity.
Qed.

Lemma affine32_steps (W : list (list Z)) (b x : list Z) :
  map (fun p => Int.wrap 32 (fst p + snd p))
      (combine (map (fun row => Int.wrap 32 (dot row x)) W) b)
  = affine32 W b x.
Proof.
  unfold affine32. revert b; induction W as [|r W IH]; intros [|b0 b]; simpl;
    try reflexivity.
  rewrite IH, wrap32_add_l; reflexivity.
Qed.

Lemma affine32_length (W : list (list Z)) (b x : list Z) :
  length b = length W -> length (affine32 W b x) = length W.
Proof.
  intros H. unfold affine32.
  rewrite length_map, length_combine, H. apply Nat.min_id.
Qed.

Lemma affine32_int32 (W : list (list Z)) (b x : list Z) : is_int32 (affine32 W b x).
Proof.
  unfold affine32, is_int32. apply Forall_forall; intros v Hv.
  apply in_map_iff in Hv. destruct Hv as (p & <- & _). apply wrap32_range.
Qed.

(** ** Shift, clamp, ReLU *)

Lemma div_pow2_saturates (a s : Z) :
  Int.in_range 32 a -> 31 <= s -> a / 2 ^ s = a / 2 ^ 31.
Proof.
  rewrite in_range32_iff; intros Ha Hs.
  assert (H31 : 2 ^ 31 = 2147483648) by reflexivity.
  assert (Hpow : 2 ^ 31 <= 2 ^ s) by (apply Z.pow_le_mono_r; lia).
  destruct (Z_lt_le_dec a 0) as [Hneg|Hpos].
  - transitivity (-1).
    + symmetry; apply (Z.div_unique_pos a (2 ^ s) (-1) (a + 2 ^ s)); lia.
    + apply (Z.div_unique_pos a (2 ^ 31) (-1) (a + 2 ^ 31)); lia.
  - rewrite !Z.div_small; lia.
Qed.

Lemma wrap32_count (s : Z) : 0 <= s < 2 ^ 31 -> Int.wrap 32 s = s.
Proof.
  intros H. apply wrap32_id. apply in_range32_iff.
  change (2 ^ 31) with 2147483648 in H. lia.
Qed.

Lemma scalar_of_int_ok (s : Z) : - 2 ^ 63 <= s < 2 ^ 64 -> Torch.scalar_of_int s = Ok s.
Proof.
  intros [H1 H2]. unfold Torch.scalar_of_int.
  apply Z.leb_le in H1. apply Z.ltb_lt in H2. rewrite H1, H2. reflexivity.
Qed.

Lemma rshift32_inv (a sh : list Z) (s : Z) :
  Torch.rshift32 a s = Ok sh -> exists n, 0 <= n <= 31 /\ sh = map (fun v => Z.shiftr v n) a.
Proof.
  unfold Torch.rshift32. intros H. apply bind_Ok in H. destruct H as (c & _ & H).
  cbv zeta in H. injection H as <-.
  destruct ((Int.wrap 32 c <? 0) || (31 <=? Int.wrap 32 c)) eqn:E.
  - exists 31. split; [lia | reflexivity].
  - apply orb_false_iff in E. destruct E as [E1 E2].
    apply Z.ltb_ge in E1. apply Z.leb_gt in E2.
    exists (Int.wrap 32 c). split; [lia | reflexivity].
Qed.

Lemma rshift32_floor (a : list Z) (s : Z) :
  0 <= s < 2 ^ 31 -> is_int32 a -> Torch.rshift32 a s = Ok (map (fun v => v / 2 ^ s) a).
Proof.
  intros Hs Ha. unfold Torch.rshift32.
  assert (H31 : 2 ^ 31 = 2147483648) by reflexivity.
  rewrite scalar_of_int_ok by (change (2 ^ 63) with 9223372036854775808;
                               change (2 ^ 64) with 18446744073709551616; lia).
  cbn [bind]. rewrite wrap32_count by assumption. f_equal.
  apply map_ext_in; intros v Hv.
  assert (Hr : Int.in_range 32 v) by (eapply Forall_forall; eauto).
  destruct (s <? 0) eqn:E0; [apply Z.ltb_lt in E0; lia|]. simpl.
  destruct (31 <=? s) eqn:E31.
  - apply Z.leb_le in E31. rewrite Z.shiftr_div_pow2 by lia.
    symmetry; apply div_pow2_saturates; assumption.
  - apply Z.shiftr_div_pow2; lia.
Qed.

Lemma clamp_id_wrap8 (v : Z) :
  Int.wrap 8 (Z.min (Z.max v (-128)) 127) = Z.min (Z.max v (-128)) 127.
Proof. apply wrap8_id, in_range8_iff; lia. Qed.

(** The hidden activation, whatever the shifted accumulator. *)
Lemma h1_q_elements (shifted : list Z) :
  Torch.maximum (Torch.to_int 8 (Torch.clamp shifted (-128) 127)) 0
  = map (fun v => Z.max (Z.min (Z.max v (-128)) 127) 0) shifted.
Proof.
  unfold Torch.maximum, Torch.to_int, Torch.clamp.
  rewrite !map_map. apply map_ext; intros v. rewrite clamp_id_wrap8; reflexivity.
Qed.

Lemma h1_q_requant (acc : list Z) (s : Z) :
  Torch.maximum (Torch.to_int 8 (Torch.clamp (map (fun v => v / 2 ^ s) acc) (-128) 127)) 0
  = map (requant_relu s) acc.
Proof. rewrite h1_q_elements, map_map. reflexivity. Qed.

Lemma requant_relu_range (s a : Z) : 0 <= requant_relu s a <= 127.
Proof. unfold requant_relu; lia. Qed.

(** ** argmax *)

Lemma argmax_from_first_max (l pre : list Z) (bi : nat) (b : Z) :
  (bi < length pre)%nat ->
  nth bi pre 0 = b ->
  (forall j, (j < length pre)%nat -> nth j pre 0 <= b) ->
  (forall j, (j < bi)%nat -> nth j pre 0 < b) ->
  is_first_max (pre ++ l) (Torch.argmax_from bi b (length pre) l).
Proof.
  revert pre bi b; induction l as [|v l IH]; intros pre bi b Hbi Hb Hmax Hfirst; simpl.
  - rewrite app_nil_r. subst b. repeat split; auto.
  - replace (pre ++ v :: l) with ((pre ++ [v]) ++ l) by (rewrite <- app_assoc; reflexivity).
    replace (S (length pre)) with (length (pre ++ [v]))
      by (rewrite length_app; simpl; lia).
    destruct (b <? v) eqn:E.
    + apply Z.ltb_lt in E. apply IH.
      * rewrite length_app; simpl; lia.
      * rewrite app_nth2, Nat.sub_diag by lia; reflexivity.
      * intros j Hj. rewrite length_app in Hj; simpl in Hj.
        destruct (Nat.eq_dec j (length pre)) as [->|Hne].
        -- rewrite app_nth2, Nat.sub_diag by lia; simpl; lia.
        -- rewrite app_nth1 by lia. specialize (Hmax j ltac:(lia)); lia.
      * intros j Hj. rewrite app_nth1 by lia. specialize (Hmax j Hj); lia.
    + apply Z.ltb_ge in E. apply IH.
      * rewrite length_app; simpl; lia.
      * rewrite app_nth1 by lia; assumption.
      * intros j Hj. rewrite length_app in Hj; simpl in Hj.
        destruct (Nat.eq_dec j (length pre)) as [->|Hne].
        -- rewrite app_nth2, Nat.sub_diag by lia; simpl; lia.
        -- rewrite app_nth1 by lia. apply Hmax; lia.
      * intros j Hj. rewrite app_nth1 by lia. apply Hfirst; assumption.
Qed.

Lemma argmax_first_max (l : list Z) (i : nat) :
  Torch.argmax l = Ok i -> is_first_max l i.
Proof.
  destruct l as [|v l]; simpl; intros H; [discriminate|].
  inversion H; subst.
  apply (argmax_from_first_max l [v] 0%nat v); simpl; auto; intros j Hj.
  - destruct j; [lia | exfalso; lia].
  - lia.
Qed.

Lemma argmax_nonempty (l : list Z) : l <> [] -> exists i, Torch.argmax l = Ok i.
Proof. destruct l; [congruence | intros _; eexists; reflexivity]. Qed.

Lemma is_first_max_unique (l : list Z) (i j : nat) :
  is_first_max l i -> is_first_max l j -> i = j.
Proof.
  intros (Hi & Hmi & Hfi) (Hj & Hmj & Hfj).
  destruct (Nat.lt_trichotomy i j) as [H|[H|H]]; [|assumption|].
  - specialize (Hfj i H). specialize (Hmi j Hj). lia.
  - specialize (Hfi j H). specialize (Hmj i Hi). lia.
Qed.

(** ** The forward pass, step by step *)

Lemma forward_quantized_inv (g : Globals) (x : list Z) (pred : Z) (acc1 h1 acc2 : list Z) :
  forward_quantized g x = Ok (pred, acc1, h1, acc2) ->
  exists mm1 shifted mm2 i,
    int8_mm_int32_acc (W1_q g) x = Ok mm1 /\
    Torch.add32 mm1 (b1_q g) = Ok acc1 /\
    Torch.rshift32 acc1 (shift1 g) = Ok shifted /\
    h1 = Torch.maximum (Torch.to_int 8 (Torch.clamp shifted (-128) 127)) 0 /\
    int8_mm_int32_acc (W2_q g) h1 = Ok mm2 /\
    Torch.add32 mm2 (b2_q g) = Ok acc2 /\
    Torch.argmax acc2 = Ok i /\
    pred = Z.of_nat i.
Proof.
  unfold forward_quantized; intros H. inv_bind H.
  inversion H; subst. eexists _, _, _, _; repeat split; eauto.
Qed.

Lemma forward_quantized_run (g : Globals) (x : list Z) :
  pipeline_ok g x ->
  let acc1 := affine32 (W1_q g) (b1_q g) x in
  let h1 := map (requant_relu (shift1 g)) acc1 in
  let acc2 := affine32 (W2_q g) (b2_q g) h1 in
  exists i, Torch.argmax acc2 = Ok i /\
            forward_quantized g x = Ok (Z.of_nat i, acc1, h1, acc2).
Proof.
  intros [Hs HW1c Hb1 HW2c Hb2 Hout Hx HW1 HW2 Hb1r Hb2r] acc1 h1 acc2.
  assert (Hacc2 : acc2 <> []).
  { intros E. apply (f_equal (@length Z)) in E. subst acc2.
    rewrite affine32_length in E by assumption.
    destruct (W2_q g); [congruence | discriminate]. }
  destruct (argmax_nonempty acc2 Hacc2) as [i Hi].
  exists i; split; [assumption|].
  assert (Hh1len : length h1 = length (W1_q g)).
  { subst h1 acc1. rewrite length_map. apply affine32_length; assumption. }
  assert (Hh1 : is_int8 h1).
  { subst h1. apply Forall_forall; intros v Hv. apply in_map_iff in Hv.
    destruct Hv as (a & <- & _). apply in_range8_iff.
    pose proof (requant_relu_range (shift1 g) a); lia. }
  unfold forward_quantized.
  rewrite int8_mm_int32_acc_ok by assumption. simpl.
  rewrite add32_same_length by (rewrite length_map; auto). simpl.
  rewrite affine32_steps. fold acc1.
  rewrite rshift32_floor by (auto; apply affine32_int32). cbn [bind].
  rewrite h1_q_requant. fold h1.
  rewrite int8_mm_int32_acc_ok; [| | assumption | assumption].
  2:{ eapply Forall_impl; [|exact HW2c]. simpl; intros r Hr; congruence. }
  simpl. rewrite add32_same_length by (rewrite length_map; auto). simpl.
  rewrite affine32_steps. fold acc2. rewrite Hi. reflexivity.
Qed.



(** ** The quantized forward simulator *)




Lemma affine32_zero_rows (l : list Z) :
  is_int32 l -> affine32 (map (fun _ => [0]) l) l [0] = l.
Proof.
  unfold affine32. induction 1 as [|v l Hv _ IH]; [reflexivity|].
  cbn [map combine fst snd dot]. rewrite IH. f_equal.
  apply wrap32_id. exact Hv.
Qed.

Lemma logits_pipeline_ok (l : list Z) :
  l <> [] -> is_int32 l -> pipeline_ok (logits_pipeline l) [0].
Proof.
  intros Hne Hl. constructor; cbn [logits_pipeline shift1 W1_q b1_q W2_q b2_q].
  - change (2 ^ 31) with 2147483648. lia.
  - repeat constructor.
  - reflexivity.
  - apply Forall_forall. intros r Hr. apply in_map_iff in Hr. destruct Hr as (v & <- & _).
    reflexivity.
  - rewrite length_map. reflexivity.
  - destruct l; [congruence | discriminate].
  - repeat constructor; apply in_range8_iff; lia.
  - repeat constructor; apply in_range8_iff; lia.
  - apply Forall_forall. intros r Hr. apply in_map_iff in Hr. destruct Hr as (v & <- & _).
    repeat constructor; apply in_range8_iff; lia.
  - repeat constructor; apply in_range32_iff; lia.
  - exact Hl.
Qed.

(** C3. The prediction is the position of the first maximal logit.
    Every non-empty int32 vector [acc2] is the logit vector of a run of
    [forward_quantized]; that run, and every run whose logits are [acc2],
    predicts the one position [i] such that no entry of [acc2] exceeds
    the entry at [i] and every earlier entry is strictly smaller.  A
    pipeline of matching shapes always returns, and its prediction is the
    first maximum of its own logits. *)
Theorem C3_prediction_first_argmax (acc2 : list Z) :
  acc2 <> [] -> is_int32 acc2 ->
  exists i,
    Torch.argmax acc2 = Ok i /\
    is_first_max acc2 i /\
    (forall j, is_first_max acc2 j -> j = i) /\
    forward_quantized (logits_pipeline acc2) [0] = Ok (Z.of_nat i, [0], [0], acc2) /\
    (forall g x pred acc1 h1,
        forward_quantized g x = Ok (pred, acc1, h1, acc2) -> pred = Z.of_nat i) /\
    (forall g x,
        pipeline_ok g x ->
        exists k acc1 h1 logits,
          forward_quantized g x = Ok (Z.of_nat k, acc1, h1, logits) /\
          logits = affine32 (W2_q g) (b2_q g) h1 /\
          is_first_max logits k).
Proof.
  intros Hne Hint. destruct (argmax_nonempty acc2 Hne) as [i Hi].
  pose proof (argmax_first_max acc2 i Hi) as Hfm.
  exists i. split; [exact Hi|]. split; [exact Hfm|]. split; [|split; [|split]].
  - intros j Hj. eapply is_first_max_unique; eauto.
  - destruct (forward_quantized_run _ _ (logits_pipeline_ok acc2 Hne Hint)) as (k & Hk & Hrun).
    cbn [logits_pipeline W1_q b1_q W2_q b2_q shift1] in Hk, Hrun.
    change (affine32 [[0]] [0] [0]) with [0] in Hk, Hrun.
    change (map (requant_relu 0) [0]) with [0] in Hk, Hrun.
    rewrite affine32_zero_rows in Hk, Hrun by exact Hint.
    rewrite Hrun. repeat f_equal. congruence.
  - intros g x pred acc1 h1 H.
    apply forward_quantized_inv in H.
    destruct H as (mm1 & sh & mm2 & k & _ & _ & _ & _ & _ & _ & Hk & ->).
    congruence.
  - intros g x Hok. destruct (forward_quantized_run g x Hok) as (k & Hk & Hrun).
    eexists k, _, _, _. split; [exact Hrun|]. split; [reflexivity|].
    apply argmax_first_max. exact Hk.
Qed.

Lemma C3_witness :
  exists i,
    Torch.argmax [5; 127; 127] = Ok i /\
    is_first_max [5; 127; 127] i /\
    (forall j, is_first_max [5; 127; 127] j -> j = i) /\
    forward_quantized (logits_pipeline [5; 127; 127]) [0]
    = Ok (Z.of_nat i, [0], [0], [5; 127; 127]) /\
    (forall g x pred acc1 h1,
        forward_quantized g x = Ok (pred, acc1, h1, [5; 127; 127]) -> pred = Z.of_nat i) /\
    (forall g x,
        pipeline_ok g x ->
        exists k acc1 h1 logits,
          forward_quantized g x = Ok (Z.of_nat k, acc1, h1, logits) /\
          logits = affine32 (W2_q g) (b2_q g) h1 /\
          is_first_max logits k).
Proof.
  apply (C3_prediction_first_argmax [5; 127; 127]).
  - discriminate.
  - repeat constructor; apply in_range32_iff; lia.
Defined.

(** C9. The result of [forward_quantized] is a function of [W1_q],
    [b1_q], [shift1], [W2_q], [b2_q] and the input alone: two runs that
    agree on them return the same outcome, whatever the other
    module-level variables hold. *)
Theorem C9_forward_quantized_deterministic (g g' : Globals) (x x' : list Z) :
  W1_q g = W1_q g' -> b1_q g = b1_q g' -> shift1 g = shift1 g' ->
  W2_q g = W2_q g' -> b2_q g = b2_q g' -> x = x' ->
  forward_quantized g x = forward_quantized g' x'.
Proof.
  intros HW1 Hb1 Hs HW2 Hb2 Hx. unfold forward_quantized.
  rewrite HW1, Hb1, Hs, HW2, Hb2, Hx. reflexivity.
Qed.

Lemma C9_witness :
  forward_quantized (Ex.pipeline F64.one 0) Ex.input
  = forward_quantized (Ex.pipeline F64.zero 7) Ex.input.
Proof.
  apply (C9_forward_quantized_deterministic
           (Ex.pipeline F64.one 0) (Ex.pipeline F64.zero 7) Ex.input Ex.input);
    reflexivity.
Defined.

(** C10. In every run of [forward_quantized] each element of [h1] lies
    in [0, 127], so the vector handed to the layer-2 matmul is a
    non-negative int8 vector. *)
Theorem C10_hidden_activation_range
  (g : Globals) (x : list Z) (pred : Z) (acc1 h1 acc2 : list Z) :
  forward_quantized g x = Ok (pred, acc1, h1, acc2) ->
  Forall (fun v => 0 <= v <= 127) h1 /\
  is_int8 h1 /\
  exists mm2, int8_mm_int32_acc (W2_q g) h1 = Ok mm2 /\
              Torch.add32 mm2 (b2_q g) = Ok acc2.
Proof.
  intros H. apply forward_quantized_inv in H.
  destruct H as (mm1 & sh & mm2 & i & _ & _ & _ & Hh1 & Hmm2 & Hacc2 & _ & _).
  assert (Hr : Forall (fun v => 0 <= v <= 127) h1).
  { subst h1. rewrite h1_q_elements. apply Forall_forall; intros v Hv.
    apply in_map_iff in Hv. destruct Hv as (a & <- & _). lia. }
  split; [assumption|]. split.
  - eapply Forall_impl; [|exact Hr]. simpl; intros v Hv. apply in_range8_iff; lia.
  - exists mm2; split; assumption.
Qed.

Lemma C10_witness :
  Forall (fun v => 0 <= v <= 127) [0; 0; 127] /\
  is_int8 [0; 0; 127] /\
  exists mm2, int8_mm_int32_acc [[1; 1; 1]; [1; 1; 1]] [0; 0; 127] = Ok mm2 /\
              Torch.add32 mm2 [0; 0] = Ok [127; 127].
Proof.
  apply (C10_hidden_activation_range
           (Ex.pipeline F64.one 0) Ex.input 0 [-90; -720; 1130] [0; 0; 127] [127; 127]).
  reflexivity.
Defined.

(** ** Strings *)

Lemma append_nil_r (s : string) : (s ++ "")%string = s.
Proof. induction s as [|c s IH]; simpl; [reflexivity | rewrite IH; reflexivity]. Qed.

Lemma append_assoc (a b c : string) : ((a ++ b) ++ c)%string = (a ++ (b ++ c))%string.
Proof. induction a as [|x a IH]; simpl; [reflexivity | rewrite IH; reflexivity]. Qed.

Lemma string_of_list_ascii_app (l1 l2 : list ascii) :
  string_of_list_ascii (l1 ++ l2)
  = (string_of_list_ascii l1 ++ string_of_list_ascii l2)%string.
Proof. induction l1 as [|c l1 IH]; simpl; [reflexivity | rewrite IH; reflexivity]. Qed.

Lemma length_string_of_list_ascii (l : list ascii) :
  String.length (string_of_list_ascii l) = length l.
Proof. induction l as [|c l IH]; simpl; [reflexivity | rewrite IH; reflexivity]. Qed.

Lemma string_forallb_of_list (p : ascii -> bool) (l : list ascii) :
  string_forallb p (string_of_list_ascii l) = forallb p l.
Proof. induction l as [|c l IH]; simpl; [reflexivity | rewrite IH; reflexivity]. Qed.

Lemma string_forallb_app (p : ascii -> bool) (a b : string) :
  string_forallb p (a ++ b) = string_forallb p a && string_forallb p b.
Proof.
  induction a as [|c a IH]; simpl; [reflexivity|].
  rewrite IH, andb_assoc; reflexivity.
Qed.

(** ** Hex tokens *)

Lemma hex_digit_cases (P : ascii -> Prop) :
  Forall P (list_ascii_of_string "0123456789abcdef") ->
  forall d, P (Fmt.hex_digit d).
Proof.
  intros H d. unfold Fmt.hex_digit.
  generalize (Z.to_nat d); intros n.
  assert (H0 : P "0"%char) by (inversion H; assumption).
  revert n. simpl in H |- *.
  repeat (match type of H with
          | Forall _ (_ :: _) =>
              let Hx := fresh "Hx" in
              let H' := fresh "H" in
              inversion H as [|? ? Hx H']; subst; clear H; rename H' into H;
              intros [|n]; [exact Hx|]; revert n
          end).
  intros n; destruct n; exact H0.
Qed.

Lemma hex_digit_lower (d : Z) : is_lower_hex (Fmt.hex_digit d) = true.
Proof. apply hex_digit_cases. repeat constructor. Qed.

Lemma hex_digit_not_newline (d : Z) : Ascii.eqb (Fmt.hex_digit d) "010"%char = false.
Proof. apply hex_digit_cases. repeat constructor. Qed.

Lemma hex_digit_not_space (d : Z) : Ascii.eqb (Fmt.hex_digit d) " "%char = false.
Proof. apply hex_digit_cases. repeat constructor. Qed.

Lemma hex_digit_value_digit (d : Z) :
  0 <= d < 16 -> hex_digit_value (Fmt.hex_digit d) = d.
Proof.
  intros H.
  assert (E : d = 0 \/ d = 1 \/ d = 2 \/ d = 3 \/ d = 4 \/ d = 5 \/ d = 6 \/ d = 7 \/
              d = 8 \/ d = 9 \/ d = 10 \/ d = 11 \/ d = 12 \/ d = 13 \/ d = 14 \/ d = 15)
    by lia.
  repeat (destruct E as [-> | E]; [reflexivity|]). subst; reflexivity.
Qed.

Lemma hex_fixed_rev_length (w : nat) (u : Z) : length (hex_fixed_rev w u) = w.
Proof. revert u; induction w as [|w IH]; intros u; simpl; [reflexivity | rewrite IH; reflexivity]. Qed.

Lemma hex_fixed_rev_all (p : ascii -> bool) (w : nat) (u : Z) :
  (forall d, p (Fmt.hex_digit d) = true) -> forallb p (hex_fixed_rev w u) = true.
Proof.
  intros Hp; revert u; induction w as [|w IH]; intros u; simpl; [reflexivity|].
  rewrite Hp, IH; reflexivity.
Qed.

Lemma hex_token_length (w : nat) (u : Z) : String.length (hex_token w u) = w.
Proof.
  unfold hex_token. rewrite length_string_of_list_ascii, length_rev.
  apply hex_fixed_rev_length.
Qed.

Lemma hex_token_all (p : ascii -> bool) (w : nat) (u : Z) :
  (forall d, p (Fmt.hex_digit d) = true) -> string_forallb p (hex_token w u) = true.
Proof.
  intros Hp. unfold hex_token. rewrite string_forallb_of_list.
  apply forallb_forall; intros c Hc. apply in_rev in Hc.
  pose proof (hex_fixed_rev_all p w u Hp) as H.
  rewrite forallb_forall in H; auto.
Qed.

Lemma hex_value_from_app (acc : Z) (a b : string) :
  hex_value_from acc (a ++ b) = hex_value_from (hex_value_from acc a) b.
Proof. revert acc; induction a as [|c a IH]; intros acc; simpl; [reflexivity | apply IH]. Qed.

Lemma hex_token_value (w : nat) (u : Z) :
  0 <= u < 16 ^ Z.of_nat w -> hex_value (hex_token w u) = u.
Proof.
  unfold hex_value, hex_token. revert u; induction w as [|w IH]; intros u Hu.
  - simpl in *. lia.
  - rewrite Nat2Z.inj_succ, Z.pow_succ_r in Hu by lia.
    cbn [hex_fixed_rev rev].
    rewrite string_of_list_ascii_app, hex_value_from_app, IH;
      cbn [string_of_list_ascii hex_value_from].
    + rewrite hex_digit_value_digit by (apply Z.mod_pos_bound; lia).
      pose proof (Z.div_mod u 16 ltac:(lia)); lia.
    + split; [apply Z.div_pos; lia | apply Z.div_lt_upper_bound; lia].
Qed.

Lemma hex_fixed_rev_zero (w : nat) : hex_fixed_rev w 0 = repeat "0"%char w.
Proof.
  induction w as [|w IH]; [reflexivity|].
  cbn [hex_fixed_rev repeat]. change (0 / 16) with 0. rewrite IH. reflexivity.
Qed.

Lemma hex_rev_fixed (w fuel : nat) (u : Z) :
  (0 < w)%nat -> (0 < fuel)%nat ->
  0 <= u < 16 ^ Z.of_nat w -> u < 16 ^ Z.of_nat fuel ->
  hex_fixed_rev w u
  = Fmt.hex_rev fuel u ++ repeat "0"%char (w - length (Fmt.hex_rev fuel u)).
Proof.
  revert fuel u; induction w as [|w IH]; intros fuel u Hw Hf Hu Hfu; [lia|].
  destruct fuel as [|fuel]; [lia|].
  rewrite Nat2Z.inj_succ, Z.pow_succ_r in Hu, Hfu by lia.
  simpl. f_equal.
  destruct (u / 16 =? 0) eqn:E.
  - apply Z.eqb_eq in E. rewrite E, hex_fixed_rev_zero. simpl.
    rewrite Nat.sub_0_r; reflexivity.
  - apply Z.eqb_neq in E.
    assert (Hq : 0 < u / 16) by (pose proof (Z.div_pos u 16); lia).
    assert (Hqw : u / 16 < 16 ^ Z.of_nat w) by (apply Z.div_lt_upper_bound; lia).
    assert (Hqf : u / 16 < 16 ^ Z.of_nat fuel) by (apply Z.div_lt_upper_bound; lia).
    apply IH; try lia.
    + destruct w; [simpl in Hqw; lia | lia].
    + destruct fuel; [simpl in Hqf; lia | lia].
Qed.

Lemma hex_fuel_enough (u : Z) : 0 <= u -> u < 16 ^ Z.of_nat (S (Z.to_nat (Z.log2 u))).
Proof.
  intros Hu. rewrite Nat2Z.inj_succ, Z2Nat.id by apply Z.log2_nonneg.
  destruct (Z.eq_dec u 0) as [->|Hne].
  - reflexivity.
  - pose proof (Z.log2_spec u ltac:(lia)) as [_ Hlt].
    pose proof (Z.log2_nonneg u) as Hl.
    eapply Z.lt_le_trans; [exact Hlt|].
    change 16 with (2 ^ 4). rewrite <- Z.pow_mul_r by lia.
    apply Z.pow_le_mono_r; lia.
Qed.

Lemma format_0x_token (w : nat) (u : Z) :
  (0 < w)%nat -> 0 <= u < 16 ^ Z.of_nat w -> Fmt.format_0x w u = hex_token w u.
Proof.
  intros Hw Hu. unfold Fmt.format_0x, Fmt.zfill, Fmt.hex, hex_token.
  rewrite (hex_rev_fixed w (S (Z.to_nat (Z.log2 u))) u Hw ltac:(lia) Hu
             (hex_fuel_enough u ltac:(lia))).
  rewrite rev_app_distr, rev_repeat, string_of_list_ascii_app.
  rewrite length_string_of_list_ascii, length_rev. reflexivity.
Qed.

Lemma land_255_unsigned (v : Z) : Int.in_range 8 v -> Z.land v 255 = unsigned 8 v.
Proof.
  rewrite in_range8_iff; intros H. change 255 with (Z.ones 8).
  rewrite Z.land_ones by lia. unfold unsigned. change (2 ^ 8) with 256.
  destruct (v <? 0) eqn:E.
  - apply Z.ltb_lt in E. symmetry; apply (Z.mod_unique_pos v 256 (-1)); lia.
  - apply Z.ltb_ge in E. apply Z.mod_small; lia.
Qed.

Lemma land_32_unsigned (v : Z) :
  Int.in_range 32 v -> Z.land v 4294967295 = unsigned 32 v.
Proof.
  rewrite in_range32_iff; intros H. change 4294967295 with (Z.ones 32).
  rewrite Z.land_ones by lia. unfold unsigned. change (2 ^ 32) with 4294967296.
  destruct (v <? 0) eqn:E.
  - apply Z.ltb_lt in E. symmetry; apply (Z.mod_unique_pos v 4294967296 (-1)); lia.
  - apply Z.ltb_ge in E. apply Z.mod_small; lia.
Qed.

Lemma unsigned8_range (v : Z) : Int.in_range 8 v -> 0 <= unsigned 8 v < 16 ^ Z.of_nat 2.
Proof.
  rewrite in_range8_iff; intros H. unfold unsigned. change (2 ^ 8) with 256.
  change (16 ^ Z.of_nat 2) with 256. destruct (v <? 0) eqn:E;
    [apply Z.ltb_lt in E | apply Z.ltb_ge in E]; lia.
Qed.

Lemma unsigned32_range (v : Z) : Int.in_range 32 v -> 0 <= unsigned 32 v < 16 ^ Z.of_nat 8.
Proof.
  rewrite in_range32_iff; intros H. unfold unsigned. change (2 ^ 32) with 4294967296.
  change (16 ^ Z.of_nat 8) with 4294967296. destruct (v <? 0) eqn:E;
    [apply Z.ltb_lt in E | apply Z.ltb_ge in E]; lia.
Qed.

(** ** The exported files *)

Lemma fold_write_unlines {A : Type} (h : A -> string) (l : list A) (init : string) :
  fold_left (fun f x => write f (h x ++ Fmt.newline)%string) l init
  = (init ++ unlines (map h l))%string.
Proof.
  revert init; induction l as [|x l IH]; intros init; simpl.
  - rewrite append_nil_r; reflexivity.
  - rewrite IH. unfold write. rewrite !append_assoc. reflexivity.
Qed.

Lemma lines_from_line (l rest cur : string) :
  string_forallb (fun c => negb (Ascii.eqb c "010"%char)) l = true ->
  lines_from cur (l ++ Fmt.newline ++ rest) = (cur ++ l)%string :: lines_from "" rest.
Proof.
  revert cur; induction l as [|c l IH]; intros cur H; simpl in *.
  - rewrite append_nil_r; reflexivity.
  - apply andb_true_iff in H. destruct H as [Hc Hl].
    apply negb_true_iff in Hc. rewrite Hc, IH by assumption.
    rewrite append_assoc. reflexivity.
Qed.

Lemma lines_unlines (ls : list string) :
  Forall (fun l => string_forallb (fun c => negb (Ascii.eqb c "010"%char)) l = true) ls ->
  lines (unlines ls) = ls.
Proof.
  unfold lines. induction 1 as [|l ls Hl _ IH]; [reflexivity|].
  cbn [unlines]. rewrite lines_from_line, IH by assumption. reflexivity.
Qed.

Lemma split_from_app (t s cur : string) :
  string_forallb (fun c => negb (Ascii.eqb c " "%char)) t = true ->
  split_from cur (t ++ s) = split_from (cur ++ t) s.
Proof.
  revert cur; induction t as [|c t IH]; intros cur H; simpl in *.
  - rewrite append_nil_r; reflexivity.
  - apply andb_true_iff in H. destruct H as [Hc Ht].
    apply negb_true_iff in Hc. rewrite Hc, IH by assumption.
    rewrite append_assoc. reflexivity.
Qed.

Lemma split_spaces_join (toks : list string) :
  toks <> [] ->
  Forall (fun t => string_forallb (fun c => negb (Ascii.eqb c " "%char)) t = true) toks ->
  split_spaces (String.concat " " toks) = toks.
Proof.
  unfold split_spaces. intros Hne H. induction H as [|t toks Ht Hts IH]; [congruence|].
  destruct toks as [|t' toks].
  - simpl. rewrite <- (append_nil_r t) at 1. rewrite split_from_app by assumption.
    reflexivity.
  - change (String.concat " " (t :: t' :: toks))
      with (t ++ String " "%char (String.concat " " (t' :: toks)))%string.
    rewrite split_from_app by assumption.
    cbn [split_from]. change (Ascii.eqb " " " ") with true. cbv iota.
    rewrite IH by discriminate. reflexivity.
Qed.

Lemma concat_forallb (p : ascii -> bool) (toks : list string) :
  p " "%char = true ->
  Forall (fun t => string_forallb p t = true) toks ->
  string_forallb p (String.concat " " toks) = true.
Proof.
  intros Hsp H. induction H as [|t toks Ht Hts IH]; [reflexivity|].
  destruct toks as [|t' toks]; [exact Ht|].
  change (String.concat " " (t :: t' :: toks))
    with (t ++ String " "%char (String.concat " " (t' :: toks)))%string.
  rewrite string_forallb_app, Ht. cbn [string_forallb andb].
  rewrite Hsp, IH; reflexivity.
Qed.

Lemma weight_line_no_newline (row : list Z) :
  string_forallb (fun c => negb (Ascii.eqb c "010"%char)) (weight_line row) = true.
Proof.
  unfold weight_line. apply concat_forallb; [reflexivity|].
  apply Forall_forall; intros t Ht. apply in_map_iff in Ht. destruct Ht as (v & <- & _).
  apply hex_token_all; intros d. rewrite hex_digit_not_newline; reflexivity.
Qed.

Lemma save_mem_int8_unlines (W : list (list Z)) :
  Forall is_int8 W -> save_mem_int8 W = unlines (map weight_line W).
Proof.
  intros HW. unfold save_mem_int8.
  rewrite (fold_write_unlines
             (fun row => String.concat " " (map (fun v => Fmt.format_0x 2 (Z.land v 255)) row))).
  simpl. f_equal. apply map_ext_in; intros row Hrow. unfold weight_line. f_equal.
  apply map_ext_in; intros v Hv.
  assert (Hr : Int.in_range 8 v).
  { rewrite Forall_forall in HW. specialize (HW row Hrow).
    eapply Forall_forall; eauto. }
  rewrite land_255_unsigned by assumption.
  apply format_0x_token; [lia | apply unsigned8_range; assumption].
Qed.

Lemma save_mem_int32_unlines (b : list Z) :
  is_int32 b -> save_mem_int32 b = unlines (map bias_line b).
Proof.
  intros Hb. unfold save_mem_int32.
  rewrite (fold_write_unlines (fun v => Fmt.format_0x 8 (Z.land v 4294967295))).
  simpl. f_equal. apply map_ext_in; intros v Hv. unfold bias_line.
  assert (Hr : Int.in_range 32 v) by (eapply Forall_forall; eauto).
  rewrite land_32_unsigned by assumption.
  apply format_0x_token; [lia | apply unsigned32_range; assumption].
Qed.

(** C8. The weight file of an int8 matrix is its rows one per line, each
    line the row's elements as two lowercase hex digits of the unsigned
    byte view, separated by single spaces; the bias file of an int32
    vector is its elements one per line, each as eight lowercase hex
    digits of the unsigned 32-bit view. *)
Theorem C8_mem_file_format (W : list (list Z)) (b : list Z) :
  Forall is_int8 W -> is_int32 b ->
  (save_mem_int8 W = unlines (map weight_line W) /\
   lines (save_mem_int8 W) = map weight_line W /\
   length (lines (save_mem_int8 W)) = length W /\
   (forall row, In row W -> row <> [] ->
      split_spaces (weight_line row) = map (fun v => hex_token 2 (unsigned 8 v)) row) /\
   (forall row v, In row W -> In v row ->
      String.length (hex_token 2 (unsigned 8 v)) = 2%nat /\
      string_forallb is_lower_hex (hex_token 2 (unsigned 8 v)) = true /\
      hex_value (hex_token 2 (unsigned 8 v)) = unsigned 8 v /\
      Int.wrap 8 (unsigned 8 v) = v)) /\
  (save_mem_int32 b = unlines (map bias_line b) /\
   lines (save_mem_int32 b) = map bias_line b /\
   length (lines (save_mem_int32 b)) = length b /\
   (forall v, In v b ->
      String.length (bias_line v) = 8%nat /\
      string_forallb is_lower_hex (bias_line v) = true /\
      hex_value (bias_line v) = unsigned 32 v /\
      Int.wrap 32 (unsigned 32 v) = v)).
Proof.
  intros HW Hb.
  assert (HlW : lines (save_mem_int8 W) = map weight_line W).
  { rewrite save_mem_int8_unlines by assumption. apply lines_unlines.
    apply Forall_forall; intros l Hl. apply in_map_iff in Hl.
    destruct Hl as (row & <- & _). apply weight_line_no_newline. }
  assert (Hlb : lines (save_mem_int32 b) = map bias_line b).
  { rewrite save_mem_int32_unlines by assumption. apply lines_unlines.
    apply Forall_forall; intros l Hl. apply in_map_iff in Hl.
    destruct Hl as (v & <- & _). apply hex_token_all; intros d.
    rewrite hex_digit_not_newline; reflexivity. }
  split; [split; [|split; [|split; [|split]]] | split; [|split; [|split]]].
  - apply save_mem_int8_unlines; assumption.
  - exact HlW.
  - rewrite HlW. apply length_map.
  - intros row _ Hne. unfold weight_line. apply split_spaces_join.
    + destruct row; [congruence | discriminate].
    + apply Forall_forall; intros t Ht. apply in_map_iff in Ht.
      destruct Ht as (v & <- & _). apply hex_token_all; intros d.
      rewrite hex_digit_not_space; reflexivity.
  - intros row v Hrow Hv.
    assert (Hr : Int.in_range 8 v).
    { rewrite Forall_forall in HW. specialize (HW row Hrow).
      eapply Forall_forall; eauto. }
    split; [|split; [|split]].
    + apply hex_token_length.
    + apply hex_token_all, hex_digit_lower.
    + apply hex_token_value, unsigned8_range; assumption.
    + apply in_range8_iff in Hr. unfold unsigned. rewrite wrap8_eq.
      change (2 ^ 8) with 256.
      destruct (v <? 0) eqn:E; [apply Z.ltb_lt in E | apply Z.ltb_ge in E].
      * replace (v + 256 + 128) with (v + 128 + 1 * 256) by lia.
        rewrite Z_mod_plus_full, Z.mod_small; lia.
      * rewrite Z.mod_small; lia.
  - apply save_mem_int32_unlines; assumption.
  - exact Hlb.
  - rewrite Hlb. apply length_map.
  - intros v Hv.
    assert (Hr : Int.in_range 32 v) by (eapply Forall_forall; eauto).
    unfold bias_line. split; [|split; [|split]].
    + apply hex_token_length.
    + apply hex_token_all, hex_digit_lower.
    + apply hex_token_value, unsigned32_range; assumption.
    + apply in_range32_iff in Hr. unfold unsigned. rewrite wrap32_eq.
      change (2 ^ 32) with 4294967296.
      destruct (v <? 0) eqn:E; [apply Z.ltb_lt in E | apply Z.ltb_ge in E].
      * replace (v + 4294967296 + 2147483648) with (v + 2147483648 + 1 * 4294967296) by lia.
        rewrite Z_mod_plus_full, Z.mod_small; lia.
      * rewrite Z.mod_small; lia.
Qed.

Lemma C8_witness :
  (save_mem_int8 Ex.weights = unlines ["01 ff 7f 80"; "00 10"]%string /\
   lines (save_mem_int8 Ex.weights) = map weight_line Ex.weights /\
   length (lines (save_mem_int8 Ex.weights)) = 2%nat /\
   (forall row, In row Ex.weights -> row <> [] ->
      split_spaces (weight_line row) = map (fun v => hex_token 2 (unsigned 8 v)) row) /\
   (forall row v, In row Ex.weights -> In v row ->
      String.length (hex_token 2 (unsigned 8 v)) = 2%nat /\
      string_forallb is_lower_hex (hex_token 2 (unsigned 8 v)) = true /\
      hex_value (hex_token 2 (unsigned 8 v)) = unsigned 8 v /\
      Int.wrap 8 (unsigned 8 v) = v)) /\
  (save_mem_int32 Ex.biases
   = unlines ["00000001"; "ffffffff"; "7fffffff"; "80000000"]%string /\
   lines (save_mem_int32 Ex.biases) = map bias_line Ex.biases /\
   length (lines (save_mem_int32 Ex.biases)) = 4%nat /\
   (forall v, In v Ex.biases ->
      String.length (bias_line v) = 8%nat /\
      string_forallb is_lower_hex (bias_line v) = true /\
      hex_value (bias_line v) = unsigned 32 v /\
      Int.wrap 32 (unsigned 32 v) = v)).
Proof.
  apply (C8_mem_file_format Ex.weights Ex.biases);
    repeat (constructor; try (apply in_range8_iff; lia); try (apply in_range32_iff; lia)).
Defined.

(** ** Binary floating point: digits *)

Lemma digits2_size (m : positive) : digits2_pos m = Pos.size m.
Proof. induction m as [m IH|m IH|]; simpl; congruence. Qed.

Lemma Zdigits2_log2 (m : Z) : 0 < m -> Zdigits2 m = Z.log2 m + 1.
Proof.
  destruct m as [|p|p]; try lia. intros _. simpl Zdigits2.
  rewrite digits2_size. destruct p as [p|p|]; simpl; lia.
Qed.

Lemma Zdigits2_nonneg (m : Z) : 0 <= Zdigits2 m.
Proof. destruct m; simpl; lia. Qed.

Lemma Zdigits2_pos (m : Z) : 0 < m -> 0 < Zdigits2 m.
Proof. destruct m; simpl; lia. Qed.

Lemma Zdigits2_bounds (m : Z) :
  0 < m -> 2 ^ (Zdigits2 m - 1) <= m < 2 ^ Zdigits2 m.
Proof.
  intros Hm. rewrite (Zdigits2_log2 m Hm).
  replace (Z.log2 m + 1 - 1) with (Z.log2 m) by lia.
  apply (Z.log2_spec m Hm).
Qed.

Lemma Zdigits2_unique (m d : Z) :
  2 ^ (d - 1) <= m < 2 ^ d -> 0 < d -> Zdigits2 m = d.
Proof.
  intros H Hd.
  assert (Hm : 0 < m).
  { pose proof (Z.pow_pos_nonneg 2 (d - 1)); lia. }
  rewrite (Zdigits2_log2 m Hm).
  rewrite (Z.log2_unique m (d - 1)); try lia.
  replace (Z.succ (d - 1)) with d by lia. assumption.
Qed.

Lemma Zdigits2_le (m n : Z) : 0 <= m <= n -> Zdigits2 m <= Zdigits2 n.
Proof.
  intros [Hm Hmn]. destruct (Z.eq_dec m 0) as [->|Hne].
  - apply Zdigits2_nonneg.
  - rewrite !Zdigits2_log2 by lia. pose proof (Z.log2_le_mono m n Hmn). lia.
Qed.

Lemma Zdigits2_gt_pow (m k : Z) : 0 <= k -> 2 ^ k <= m -> k < Zdigits2 m.
Proof.
  intros Hk H.
  assert (Hm : 0 < m) by (pose proof (Z.pow_pos_nonneg 2 k); lia).
  rewrite Zdigits2_log2 by assumption.
  apply Z.log2_le_pow2 in H; lia.
Qed.

Lemma Zdigits2_le_pow (m k : Z) : 0 <= k -> 0 <= m < 2 ^ k -> Zdigits2 m <= k.
Proof.
  intros Hk [Hm H]. destruct (Z.eq_dec m 0) as [->|Hne]; [simpl; lia|].
  rewrite Zdigits2_log2 by lia.
  apply Z.log2_lt_pow2 in H; lia.
Qed.

Lemma Zdigits2_div_pow2 (m k : Z) :
  0 <= m -> 0 <= k -> Zdigits2 (m / 2 ^ k) = Z.max 0 (Zdigits2 m - k).
Proof.
  intros Hm Hk. destruct (Z.eq_dec m 0) as [->|Hne].
  - rewrite Z.div_0_l by (apply Z.pow_nonzero; lia). simpl. lia.
  - rewrite <- Z.shiftr_div_pow2 by assumption.
    destruct (Z_lt_le_dec (Z.log2 m) k) as [Hlt|Hle].
    + rewrite Z.shiftr_eq_0 by lia. rewrite (Zdigits2_log2 m) by lia.
      change (Zdigits2 0) with 0. lia.
    + assert (Hpos : 0 < Z.shiftr m k).
      { rewrite Z.shiftr_div_pow2 by assumption.
        apply Z.div_str_pos. split; [apply Z.pow_pos_nonneg; lia|].
        apply Z.log2_le_pow2; lia. }
      rewrite (Zdigits2_log2 _ Hpos), Z.log2_shiftr, Zdigits2_log2 by lia. lia.
Qed.

Lemma Zdigits2_mul_pow2 (m k : Z) :
  0 < m -> 0 <= k -> Zdigits2 (m * 2 ^ k) = Zdigits2 m + k.
Proof.
  intros Hm Hk. pose proof (Zdigits2_bounds m Hm) as [Hlo Hhi].
  pose proof (Zdigits2_pos m Hm) as Hd.
  apply Zdigits2_unique; [|lia].
  replace (Zdigits2 m + k - 1) with (Zdigits2 m - 1 + k) by lia.
  rewrite !Z.pow_add_r by lia.
  pose proof (Z.pow_pos_nonneg 2 k ltac:(lia) Hk).
  split; [apply Z.mul_le_mono_nonneg_r | apply Z.mul_lt_mono_pos_r]; lia.
Qed.

(** ** Binary floating point: the shift-right register *)

Lemma shr_1_m (mrs : shr_record) : 0 <= shr_m mrs -> shr_m (shr_1 mrs) = shr_m mrs / 2.
Proof.
  destruct mrs as [m r s]; simpl. intros Hm.
  destruct m as [|p|p]; try lia; [reflexivity|].
  destruct p as [p|p|]; simpl shr_m.
  - rewrite Pos2Z.inj_xI. apply (Z.div_unique_pos _ 2 _ 1); lia.
  - rewrite Pos2Z.inj_xO. apply (Z.div_unique_pos _ 2 _ 0); lia.
  - reflexivity.
Qed.

Lemma shr_1_nonneg (mrs : shr_record) : 0 <= shr_m mrs -> 0 <= shr_m (shr_1 mrs).
Proof.
  intros H. rewrite shr_1_m by assumption. apply Z.div_pos; lia.
Qed.

Lemma iter_shr_1_m (p : positive) (mrs : shr_record) :
  0 <= shr_m mrs ->
  shr_m (iter_pos shr_1 p mrs) = shr_m mrs / 2 ^ Zpos p /\
  0 <= shr_m (iter_pos shr_1 p mrs).
Proof.
  revert mrs; induction p as [p IH|p IH|]; intros mrs Hm; simpl iter_pos.
  - pose proof (shr_1_nonneg mrs Hm) as H1.
    destruct (IH (shr_1 mrs) H1) as [E2 H2].
    destruct (IH _ H2) as [E3 H3]. split; [|assumption].
    rewrite E3, E2, shr_1_m by assumption.
    pose proof (Z.pow_pos_nonneg 2 (Zpos p) ltac:(lia) ltac:(lia)) as Hp.
    rewrite !Z.div_div by lia. f_equal.
    rewrite (Pos2Z.inj_xI p).
    replace (2 * Z.pos p + 1) with (1 + Z.pos p + Z.pos p) by lia.
    rewrite !Z.pow_add_r by lia. change (2 ^ 1) with 2. ring.
  - destruct (IH mrs Hm) as [E2 H2].
    destruct (IH _ H2) as [E3 H3]. split; [|assumption].
    rewrite E3, E2.
    pose proof (Z.pow_pos_nonneg 2 (Zpos p) ltac:(lia) ltac:(lia)) as Hp.
    rewrite Z.div_div by lia. f_equal.
    rewrite (Pos2Z.inj_xO p).
    replace (2 * Z.pos p) with (Z.pos p + Z.pos p) by lia.
    rewrite Z.pow_add_r by lia. reflexivity.
  - split; [rewrite shr_1_m by assumption; reflexivity | apply shr_1_nonneg; assumption].
Qed.

Lemma shr_m_e (mrs : shr_record) (e n : Z) :
  0 <= shr_m mrs -> 0 <= n ->
  shr_m (fst (shr mrs e n)) = shr_m mrs / 2 ^ n /\ snd (shr mrs e n) = e + n.
Proof.
  intros Hm Hn. destruct n as [|p|p]; try lia; simpl.
  - rewrite Z.div_1_r. lia.
  - destruct (iter_shr_1_m p mrs Hm) as [E _]. rewrite E. split; reflexivity.
Qed.

Lemma shr_record_of_loc_m (m : Z) (l : location) : shr_m (shr_record_of_loc m l) = m.
Proof. destruct l as [|[| |]]; reflexivity. Qed.

Lemma round_nearest_even_cases (m : Z) (l : location) :
  round_nearest_even m l = m \/ round_nearest_even m l = m + 1.
Proof.
  destruct l as [|[| |]]; simpl; auto. destruct (Z.even m); auto.
Qed.

(** ** Binary floating point: rounding produces floats of the format *)

Section Rounding.

Variables prec emax : Z.
Hypothesis Hprec : 0 < prec.
Hypothesis Hemax : prec < emax.

Lemma fexp_mono (a b : Z) : a <= b -> fexp prec emax a <= fexp prec emax b.
Proof. unfold fexp; lia. Qed.

Lemma fexp_ge_emin (a : Z) : emin prec emax <= fexp prec emax a.
Proof. unfold fexp; lia. Qed.

Lemma canonical_shaped (m : positive) (e : Z) :
  canonical_mantissa prec emax m e = true <-> shaped prec emax (Zpos m) e.
Proof.
  unfold canonical_mantissa, shaped, fexp. rewrite Z.eqb_eq. simpl Zdigits2. lia.
Qed.

Lemma shr_fexp_shape (m e : Z) (l : location) :
  0 <= m -> e <= fexp prec emax (Zdigits2 m + e) ->
  let r := shr_fexp prec emax m e l in
  snd r = fexp prec emax (Zdigits2 m + e) /\
  shr_m (fst r) = m / 2 ^ (snd r - e) /\
  Zdigits2 (shr_m (fst r)) = Z.max 0 (Zdigits2 m + e - snd r) /\
  shaped prec emax (shr_m (fst r)) (snd r).
Proof.
  intros Hm Hk r. subst r. unfold shr_fexp.
  set (k := fexp prec emax (Zdigits2 m + e) - e).
  assert (Hk0 : 0 <= k) by (subst k; lia).
  destruct (shr_m_e (shr_record_of_loc m l) e k) as [Em Ee];
    [rewrite shr_record_of_loc_m; assumption | assumption |].
  rewrite shr_record_of_loc_m in Em.
  assert (Ee' : snd (shr (shr_record_of_loc m l) e k) = fexp prec emax (Zdigits2 m + e))
    by (rewrite Ee; subst k; lia).
  rewrite Ee'. replace (fexp prec emax (Zdigits2 m + e) - e) with k by reflexivity.
  rewrite Em.
  assert (Ed : Zdigits2 (m / 2 ^ k) = Z.max 0 (Zdigits2 m + e - fexp prec emax (Zdigits2 m + e))).
  { rewrite Zdigits2_div_pow2 by assumption. subst k. f_equal. lia. }
  repeat split; try assumption.
  - apply fexp_ge_emin.
  - rewrite Ed. unfold fexp. lia.
  - rewrite Ed. unfold fexp. lia.
Qed.

Lemma round_nearest_even_digits (m : Z) (l : location) :
  0 <= m ->
  let m' := round_nearest_even m l in
  m <= m' /\ Zdigits2 m <= Zdigits2 m' <= Zdigits2 m + 1.
Proof.
  intros Hm m'. subst m'.
  assert (Hlt : m < 2 ^ Zdigits2 m).
  { destruct (Z.eq_dec m 0) as [->|Hne]; [reflexivity|].
    apply Zdigits2_bounds; lia. }
  pose proof (Zdigits2_nonneg m) as Hd.
  assert (Hle : forall m', m <= m' <= m + 1 ->
                           Zdigits2 m <= Zdigits2 m' <= Zdigits2 m + 1).
  { intros m' Hm'. split; [apply Zdigits2_le; lia|].
    apply Zdigits2_le_pow; [lia|]. rewrite Z.pow_add_r by lia.
    change (2 ^ 1) with 2. lia. }
  destruct (round_nearest_even_cases m l) as [-> | ->]; split; try lia; apply Hle; lia.
Qed.

(** What [binary_round_aux] goes through: two shifts around the rounding
    of the mantissa. *)
Lemma binary_round_aux_steps (sx : bool) (mx ex : Z) (lx : location) :
  0 <= mx -> ex <= fexp prec emax (Zdigits2 mx + ex) ->
  exists m3 e3,
    binary_round_aux prec emax sx mx ex lx
    = match m3 with
      | Z0 => S754_zero sx
      | Zpos m => if e3 <=? emax - prec then S754_finite sx m e3 else S754_infinity sx
      | Zneg _ => S754_nan
      end /\
    0 <= m3 /\ shaped prec emax m3 e3 /\
    (emin prec emax < Zdigits2 mx + ex ->
       0 < m3 /\ e3 <= fexp prec emax (Zdigits2 mx + ex + 1)).
Proof.
  intros Hm Hk. unfold binary_round_aux.
  pose proof (shr_fexp_shape mx ex lx Hm Hk) as H1. cbv zeta in H1.
  destruct (shr_fexp prec emax mx ex lx) as [mrs1 e1]. simpl fst in H1; simpl snd in H1.
  destruct H1 as (Ee1 & Em1 & Ed1 & Hs1).
  set (m1 := shr_m mrs1) in *.
  assert (Hm1 : 0 <= m1).
  { rewrite Em1. apply Z.div_pos; [assumption|]. apply Z.pow_pos_nonneg; lia. }
  set (m2 := round_nearest_even m1 (loc_of_shr_record mrs1)).
  destruct (round_nearest_even_digits m1 (loc_of_shr_record mrs1) Hm1) as [Hm12 Hd12].
  fold m2 in Hm12, Hd12.
  assert (Hm2 : 0 <= m2) by lia.
  assert (Hk2 : e1 <= fexp prec emax (Zdigits2 m2 + e1)).
  { destruct Hs1 as (Hs1a & Hs1b & Hs1c). unfold fexp in *. lia. }
  pose proof (shr_fexp_shape m2 e1 loc_Exact Hm2 Hk2) as H2. cbv zeta in H2.
  destruct (shr_fexp prec emax m2 e1 loc_Exact) as [mrs2 e2].
  simpl fst in H2; simpl snd in H2.
  destruct H2 as (Ee2 & Em2 & Ed2 & Hs2).
  exists (shr_m mrs2), e2. split; [reflexivity|].
  assert (Hm3 : 0 <= shr_m mrs2).
  { rewrite Em2. apply Z.div_pos; [assumption|]. apply Z.pow_pos_nonneg; lia. }
  split; [assumption|]. split; [assumption|].
  intros Hbig.
  assert (Hd1 : Zdigits2 m1 + e1 = Zdigits2 mx + ex).
  { rewrite Ed1, Ee1. unfold fexp. lia. }
  split.
  - assert (0 < Zdigits2 (shr_m mrs2)); [|destruct (shr_m mrs2); simpl in *; lia].
    rewrite Ed2, Ee2. unfold fexp. lia.
  - rewrite Ee2. apply fexp_mono. lia.
Qed.

Lemma binary_round_aux_valid (sx : bool) (mx ex : Z) (lx : location) :
  0 <= mx -> ex <= fexp prec emax (Zdigits2 mx + ex) ->
  valid_binary prec emax (binary_round_aux prec emax sx mx ex lx) = true.
Proof.
  intros Hm Hk.
  destruct (binary_round_aux_steps sx mx ex lx Hm Hk) as (m3 & e3 & -> & Hm3 & Hs & _).
  destruct m3 as [|p|p]; try reflexivity.
  destruct (e3 <=? emax - prec) eqn:E; [|reflexivity].
  simpl. unfold bounded. rewrite E, andb_true_r. apply canonical_shaped; assumption.
Qed.

Lemma binary_round_aux_positive (sx : bool) (mx ex : Z) (lx : location) :
  0 <= mx -> ex <= fexp prec emax (Zdigits2 mx + ex) ->
  emin prec emax < Zdigits2 mx + ex -> Zdigits2 mx + ex < emax ->
  exists m e, binary_round_aux prec emax sx mx ex lx = S754_finite sx m e.
Proof.
  intros Hm Hk Hlo Hhi.
  destruct (binary_round_aux_steps sx mx ex lx Hm Hk) as (m3 & e3 & -> & _ & _ & Hpos).
  destruct (Hpos Hlo) as [Hm3 He3].
  destruct m3 as [|p|p]; try lia.
  assert (E : (e3 <=? emax - prec) = true).
  { apply Z.leb_le. unfold fexp, emin in *. lia. }
  rewrite E. eauto.
Qed.

(** A pair that already has the shape goes through unchanged. *)
Lemma binary_round_aux_canonical (sx : bool) (m : positive) (e : Z) :
  canonical_mantissa prec emax m e = true ->
  binary_round_aux prec emax sx (Zpos m) e loc_Exact
  = if e <=? emax - prec then S754_finite sx m e else S754_infinity sx.
Proof.
  unfold canonical_mantissa. rewrite Z.eqb_eq. intros Hc.
  unfold binary_round_aux, shr_fexp.
  change (Zdigits2 (Zpos m)) with (Zpos (digits2_pos m)). rewrite Hc, Z.sub_diag.
  cbn [shr shr_record_of_loc shr_m loc_of_shr_record round_nearest_even Zdigits2].
  rewrite Hc, Z.sub_diag. reflexivity.
Qed.

End Rounding.

(** ** Binary floating point: division *)

Section Division.

Variables prec emax : Z.
Hypothesis Hprec : 0 < prec.
Hypothesis Hemax : prec < emax.

(** The quotient handed to the rounding: long enough to be rounded once,
    and of the magnitude of the exact quotient. *)
Lemma SFdiv_core_binary_shape (mx my : positive) (ex ey : Z) :
  let D := Zdigits2 (Zpos mx) + ex - (Zdigits2 (Zpos my) + ey) in
  exists q e' l,
    SFdiv_core_binary prec emax (Zpos mx) ex (Zpos my) ey = (q, e', l) /\
    0 <= q /\
    e' <= fexp prec emax D /\
    D - e' <= Zdigits2 q <= Z.max 0 (D + 1 - e').
Proof.
  intros D. unfold SFdiv_core_binary.
  set (d1 := Zdigits2 (Zpos mx)) in *. set (d2 := Zdigits2 (Zpos my)) in *.
  fold D.
  set (e' := Z.min (fexp prec emax D) (ex - ey)).
  remember (ex - ey - e') as s eqn:Es.
  assert (Hs : 0 <= s) by (subst s e'; lia).
  set (m' := match s with Z.pos _ => Z.shiftl (Zpos mx) s | 0 => Zpos mx | Z.neg _ => 0 end).
  assert (Hm' : m' = Zpos mx * 2 ^ s).
  { subst m'. clear Es. destruct s as [|p|p]; try lia.
    apply Z.shiftl_mul_pow2; lia. }
  pose proof (Z_div_mod m' (Zpos my) ltac:(lia)) as Hdm.
  destruct (Z.div_eucl m' (Zpos my)) as [q r].
  destruct Hdm as [Hq Hr].
  exists q, e', (new_location (Zpos my) r). split; [reflexivity|].
  pose proof (Zdigits2_bounds (Zpos mx) ltac:(lia)) as [Hx1 Hx2].
  pose proof (Zdigits2_bounds (Zpos my) ltac:(lia)) as [Hy1 Hy2].
  pose proof (Zdigits2_pos (Zpos mx) ltac:(lia)) as Hd1.
  pose proof (Zdigits2_pos (Zpos my) ltac:(lia)) as Hd2.
  fold d1 in Hx1, Hx2, Hd1. fold d2 in Hy1, Hy2, Hd2.
  assert (HS : 0 < 2 ^ s) by (apply Z.pow_pos_nonneg; lia).
  assert (Hq0 : 0 <= q).
  { assert (0 <= m') by (rewrite Hm'; lia).
    destruct (Z_lt_le_dec q 0) as [Hneg|]; [|assumption].
    assert (Zpos my * q <= Zpos my * (-1)) by (apply Z.mul_le_mono_nonneg_l; lia).
    lia. }
  assert (HDs : D - e' = d1 + s - d2) by (subst D s; lia).
  clear Es.
  split; [assumption|]. split; [subst e'; lia|].
  rewrite HDs. replace (D + 1 - e') with (d1 + s - d2 + 1) by lia.
  assert (Hlo' : 2 ^ (d1 - 1 + s) <= m').
  { rewrite Hm', Z.pow_add_r by lia. apply Z.mul_le_mono_nonneg_r; lia. }
  assert (Hhi' : m' < 2 ^ (d1 + s)).
  { rewrite Hm', Z.pow_add_r by lia. apply Z.mul_lt_mono_pos_r; lia. }
  split.
  - destruct (Z_le_gt_dec (d1 + s - d2) 0) as [Hle|Hgt].
    + pose proof (Zdigits2_nonneg q); lia.
    + assert (Hq' : d1 + s - d2 - 1 < Zdigits2 q); [|lia].
      apply Zdigits2_gt_pow; [lia|].
      set (t := d1 + s - d2 - 1) in *.
      destruct (Z_lt_le_dec q (2 ^ t)) as [Hlt|]; [exfalso|assumption].
      assert (HA : 0 < 2 ^ t) by (apply Z.pow_pos_nonneg; lia).
      assert (H1 : Zpos my * (q + 1) <= Zpos my * 2 ^ t)
        by (apply Z.mul_le_mono_nonneg_l; lia).
      assert (H2 : Zpos my * 2 ^ t < 2 ^ d2 * 2 ^ t)
        by (apply Z.mul_lt_mono_pos_r; lia).
      assert (H3 : 2 ^ d2 * 2 ^ t = 2 ^ (d1 - 1 + s)).
      { rewrite <- Z.pow_add_r by lia. f_equal. subst t. lia. }
      lia.
  - destruct (Z_le_gt_dec (d1 + s - d2 + 1) 0) as [Hle|Hgt].
    + assert (Hsmall : m' < Zpos my).
      { eapply Z.lt_le_trans; [exact Hhi'|].
        eapply Z.le_trans; [|exact Hy1]. apply Z.pow_le_mono_r; lia. }
      assert (q = 0).
      { destruct (Z.eq_dec q 0) as [|Hne]; [assumption|exfalso].
        assert (Zpos my * 1 <= Zpos my * q) by (apply Z.mul_le_mono_nonneg_l; lia).
        lia. }
      subst q. simpl. lia.
    + rewrite Z.max_r by lia. apply Zdigits2_le_pow; [lia|].
      split; [assumption|].
      set (u := d1 + s - d2 + 1) in *.
      destruct (Z_lt_le_dec q (2 ^ u)) as [|Hge]; [assumption|exfalso].
      assert (HU : 0 < 2 ^ u) by (apply Z.pow_pos_nonneg; lia).
      assert (H1 : 2 ^ (d2 - 1) * 2 ^ u <= Zpos my * 2 ^ u)
        by (apply Z.mul_le_mono_nonneg_r; lia).
      assert (H2 : Zpos my * 2 ^ u <= Zpos my * q)
        by (apply Z.mul_le_mono_nonneg_l; lia).
      assert (H3 : 2 ^ (d2 - 1) * 2 ^ u = 2 ^ (d1 + s)).
      { rewrite <- Z.pow_add_r by lia. f_equal. subst u. lia. }
      lia.
Qed.

Lemma SFdiv_core_binary_roundable (mx my : positive) (ex ey : Z) (q e' : Z) (l : location) :
  SFdiv_core_binary prec emax (Zpos mx) ex (Zpos my) ey = (q, e', l) ->
  0 <= q /\ e' <= fexp prec emax (Zdigits2 q + e').
Proof.
  intros E.
  destruct (SFdiv_core_binary_shape mx my ex ey) as (q0 & e0 & l0 & E0 & Hq & He & Hd).
  rewrite E in E0. inversion E0; subst q0 e0 l0. split; [assumption|].
  eapply Z.le_trans; [exact He|]. apply fexp_mono. lia.
Qed.

(** Every quotient is a float of the format. *)
Lemma SFdiv_valid (x y : spec_float) : valid_binary prec emax (SFdiv prec emax x y) = true.
Proof.
  destruct x as [sx|sx| |sx mx ex], y as [sy|sy| |sy my ey]; try reflexivity.
  unfold SFdiv.
  destruct (SFdiv_core_binary prec emax (Zpos mx) ex (Zpos my) ey) as [[q e'] l] eqn:E.
  destruct (SFdiv_core_binary_roundable _ _ _ _ _ _ _ E) as [Hq He].
  apply binary_round_aux_valid; assumption.
Qed.

(** A quotient of finite floats whose magnitude is within the normal
    range neither underflows to zero nor overflows. *)
Lemma SFdiv_finite (sx sy : bool) (mx my : positive) (ex ey : Z) :
  let D := Zdigits2 (Zpos mx) + ex - (Zdigits2 (Zpos my) + ey) in
  emin prec emax < D -> D + 1 < emax ->
  exists m e,
    SFdiv prec emax (S754_finite sx mx ex) (S754_finite sy my ey)
    = S754_finite (xorb sx sy) m e.
Proof.
  intros D Hlo Hhi. unfold SFdiv.
  destruct (SFdiv_core_binary_shape mx my ex ey) as (q & e' & l & E & Hq & He & Hd).
  fold D in He, Hd. rewrite E.
  assert (He' : e' < D) by (unfold fexp in He; lia).
  apply binary_round_aux_positive; try assumption.
  - eapply Z.le_trans; [exact He|]. apply fexp_mono. lia.
  - lia.
  - lia.
Qed.

End Division.

(** ** Binary floating point: the value of a float *)

Lemma pow2Q_pos (e : Z) : (0 < Fp.pow2Q e)%Q.
Proof. unfold Fp.pow2Q. apply Qpower_0_lt. reflexivity. Qed.

Lemma pow2Q_add (a b : Z) : (Fp.pow2Q (a + b) == Fp.pow2Q a * Fp.pow2Q b)%Q.
Proof. unfold Fp.pow2Q. apply Qpower_plus. discriminate. Qed.

Lemma pow2Q_inject (k : Z) : 0 <= k -> (Fp.pow2Q k == inject_Z (2 ^ k))%Q.
Proof. intros Hk. unfold Fp.pow2Q. rewrite Zpower_Qpower by assumption. reflexivity. Qed.

Lemma pow2Q_shift (m k e : Z) :
  0 <= k -> (inject_Z (m * 2 ^ k) * Fp.pow2Q (e - k) == inject_Z m * Fp.pow2Q e)%Q.
Proof.
  intros Hk. replace e with ((e - k) + k) at 2 by lia.
  rewrite pow2Q_add, (pow2Q_inject k Hk), inject_Z_mult. ring.
Qed.

Lemma Qcompare_scale (a b : Z) (c : Q) :
  (0 < c)%Q -> ((inject_Z a * c) ?= (inject_Z b * c))%Q = (a ?= b).
Proof.
  intros Hc. destruct (Z.compare_spec a b) as [E|L|G].
  - subst. apply Qeq_alt. reflexivity.
  - apply Qlt_alt. apply Qmult_lt_compat_r; [assumption|]. rewrite <- Zlt_Qlt. assumption.
  - apply Qgt_alt. apply Qmult_lt_compat_r; [assumption|]. rewrite <- Zlt_Qlt. assumption.
Qed.

(** Two finite floats compare as their mantissas brought to the smaller
    exponent. *)
Lemma SF2Q_compare (s1 s2 : bool) (m1 m2 : positive) (e1 e2 : Z) :
  (Fp.SF2Q (S754_finite s1 m1 e1) ?= Fp.SF2Q (S754_finite s2 m2 e2))%Q
  = (cond_Zopp s1 (Zpos m1) * 2 ^ (e1 - Z.min e1 e2)
     ?= cond_Zopp s2 (Zpos m2) * 2 ^ (e2 - Z.min e1 e2)).
Proof.
  unfold Fp.SF2Q. set (e := Z.min e1 e2).
  rewrite <- (Qcompare_scale _ _ (Fp.pow2Q e) (pow2Q_pos e)).
  assert (H1 : (inject_Z (cond_Zopp s1 (Zpos m1) * 2 ^ (e1 - e)) * Fp.pow2Q e
                == inject_Z (cond_Zopp s1 (Zpos m1)) * Fp.pow2Q e1)%Q).
  { replace e with (e1 - (e1 - e)) at 2 by lia. apply pow2Q_shift. subst e; lia. }
  assert (H2 : (inject_Z (cond_Zopp s2 (Zpos m2) * 2 ^ (e2 - e)) * Fp.pow2Q e
                == inject_Z (cond_Zopp s2 (Zpos m2)) * Fp.pow2Q e2)%Q).
  { replace e with (e2 - (e2 - e)) at 2 by lia. apply pow2Q_shift. subst e; lia. }
  rewrite H1, H2. reflexivity.
Qed.

Lemma SF2Q_zero_compare_r (s : bool) (m : positive) (e : Z) :
  (0 ?= Fp.SF2Q (S754_finite s m e))%Q = if s then Gt else Lt.
Proof.
  unfold Fp.SF2Q. pose proof (pow2Q_pos e) as Hp.
  destruct s; simpl cond_Zopp.
  - apply Qgt_alt.
    assert (H : (inject_Z (Z.neg m) < 0)%Q) by (unfold Qlt; simpl; lia).
    pose proof (Qmult_lt_compat_r _ _ _ Hp H) as H'. rewrite Qmult_0_l in H'. exact H'.
  - apply Qlt_alt.
    assert (H : (0 < inject_Z (Z.pos m))%Q) by (unfold Qlt; simpl; lia).
    pose proof (Qmult_lt_compat_r _ _ _ Hp H) as H'. rewrite Qmult_0_l in H'. exact H'.
Qed.

Lemma SF2Q_zero_compare_l (s : bool) (m : positive) (e : Z) :
  (Fp.SF2Q (S754_finite s m e) ?= 0)%Q = if s then Lt else Gt.
Proof.
  rewrite <- Qcompare_antisym, SF2Q_zero_compare_r. destruct s; reflexivity.
Qed.

Section Comparison.

Variables prec emax : Z.
Hypothesis Hprec : 0 < prec.

Lemma canonical_lt_exponent (m1 m2 : positive) (e1 e2 : Z) :
  canonical_mantissa prec emax m1 e1 = true ->
  canonical_mantissa prec emax m2 e2 = true ->
  e1 < e2 ->
  Zpos m1 < Zpos m2 * 2 ^ (e2 - e1).
Proof.
  rewrite !canonical_shaped by assumption.
  intros (Ha1 & Hb1 & Hc1) (Ha2 & Hb2 & Hc2) Hlt.
  assert (Hd2 : Zdigits2 (Zpos m2) = prec) by lia.
  pose proof (Zdigits2_bounds (Zpos m1) ltac:(lia)) as [_ H1].
  pose proof (Zdigits2_bounds (Zpos m2) ltac:(lia)) as [H2 _].
  rewrite Hd2 in H2.
  assert (H3 : 2 ^ Zdigits2 (Zpos m1) <= 2 ^ prec) by (apply Z.pow_le_mono_r; lia).
  assert (H4 : 2 ^ 1 <= 2 ^ (e2 - e1)) by (apply Z.pow_le_mono_r; lia).
  change (2 ^ 1) with 2 in H4.
  assert (H5 : 2 ^ prec = 2 ^ (prec - 1) * 2).
  { replace prec with (prec - 1 + 1) at 1 by lia.
    rewrite Z.pow_add_r by lia. reflexivity. }
  assert (H6 : 2 ^ (prec - 1) * 2 <= Zpos m2 * 2 ^ (e2 - e1))
    by (apply Z.mul_le_mono_nonneg; lia).
  lia.
Qed.

(** [SFcompare] orders the finite floats of the format as the rationals
    they denote. *)
Lemma SFcompare_SF2Q (x y : spec_float) :
  valid_binary prec emax x = true -> valid_binary prec emax y = true ->
  Fp.is_finite x = true -> Fp.is_finite y = true ->
  SFcompare x y = Some (Fp.SF2Q x ?= Fp.SF2Q y)%Q.
Proof.
  destruct x as [sx|sx| |sx mx ex], y as [sy|sy| |sy my ey]; try discriminate;
    intros Vx Vy _ _.
  - reflexivity.
  - simpl SFcompare. rewrite SF2Q_zero_compare_r. reflexivity.
  - simpl SFcompare. rewrite SF2Q_zero_compare_l. reflexivity.
  - simpl in Vx, Vy. unfold bounded in Vx, Vy.
    apply andb_true_iff in Vx, Vy. destruct Vx as [Cx _], Vy as [Cy _].
    rewrite SF2Q_compare. simpl SFcompare. f_equal.
    rewrite Pos.compare_cont_spec.
    replace (Pos.switch_Eq Eq (mx ?= my)%positive) with (Z.compare (Zpos mx) (Zpos my))
      by (simpl; destruct (mx ?= my)%positive; reflexivity).
    assert (P1 : 0 < 2 ^ (ex - Z.min ex ey)) by (apply Z.pow_pos_nonneg; lia).
    assert (P2 : 0 < 2 ^ (ey - Z.min ex ey)) by (apply Z.pow_pos_nonneg; lia).
    destruct (Z.compare_spec ex ey) as [E|L|G].
    + subst ey. rewrite Z.min_id, Z.sub_diag, !Z.mul_1_r.
      destruct sx, sy; simpl cond_Zopp.
      * change (Z.neg mx) with (- Zpos mx). change (Z.neg my) with (- Zpos my).
        rewrite Z.compare_opp. symmetry. apply Z.compare_antisym.
      * symmetry. apply Z.compare_lt_iff. lia.
      * symmetry. apply Z.compare_gt_iff. lia.
      * reflexivity.
    + pose proof (canonical_lt_exponent mx my ex ey Cx Cy L) as H.
      rewrite Z.min_l, Z.sub_diag, Z.mul_1_r by lia.
      destruct sx, sy; simpl cond_Zopp; symmetry.
      * apply Z.compare_gt_iff. lia.
      * apply Z.compare_lt_iff. lia.
      * apply Z.compare_gt_iff. lia.
      * apply Z.compare_lt_iff. lia.
    + pose proof (canonical_lt_exponent my mx ey ex Cy Cx ltac:(lia)) as H.
      rewrite Z.min_r, Z.sub_diag, Z.mul_1_r by lia.
      destruct sx, sy; simpl cond_Zopp; symmetry.
      * apply Z.compare_lt_iff. lia.
      * apply Z.compare_lt_iff. lia.
      * apply Z.compare_gt_iff. lia.
      * apply Z.compare_gt_iff. lia.
Qed.

Lemma SFltb_SF2Q (x y : spec_float) :
  valid_binary prec emax x = true -> valid_binary prec emax y = true ->
  Fp.is_finite x = true -> Fp.is_finite y = true ->
  SFltb x y = true <-> (Fp.SF2Q x < Fp.SF2Q y)%Q.
Proof.
  intros Vx Vy Fx Fy. unfold SFltb. rewrite (SFcompare_SF2Q x y Vx Vy Fx Fy).
  rewrite Qlt_alt. destruct (Fp.SF2Q x ?= Fp.SF2Q y)%Q; split; congruence.
Qed.

End Comparison.

(** ** Binary floating point: exact conversions *)

Lemma iter_xO_pow2 (m d : positive) : Zpos (Pos.iter xO m d) = Zpos m * 2 ^ Zpos d.
Proof.
  induction d as [|d IH] using Pos.peano_ind.
  - simpl. lia.
  - rewrite Pos.iter_succ, Pos2Z.inj_succ, Z.pow_succ_r by lia.
    rewrite (Pos2Z.inj_xO (Pos.iter xO m d)), IH. ring.
Qed.

Section Exact.

Variables prec emax : Z.
Hypothesis Hprec : 0 < prec.
Hypothesis Hemax : prec < emax.

(** A mantissa that is not too long for its exponent is only realigned. *)
Lemma binary_round_short (s : bool) (m : positive) (e : Z) :
  let e' := fexp prec emax (Zpos (digits2_pos m) + e) in
  e' <= e -> e' <= emax - prec ->
  exists m',
    binary_round prec emax s m e = S754_finite s m' e' /\
    Zpos m' = Zpos m * 2 ^ (e - e') /\
    canonical_mantissa prec emax m' e' = true.
Proof.
  intros e' He Hmax.
  assert (Ee' : fexp prec emax (Zpos (digits2_pos m) + e) = e') by reflexivity.
  clearbody e'. unfold binary_round, shl_align. rewrite Ee'.
  apply Z.leb_le in Hmax.
  destruct (e' - e) as [|d|d] eqn:Ed; try lia.
  - assert (Hee : e' = e) by lia. rewrite Hee in *. exists m.
    assert (Hc : canonical_mantissa prec emax m e = true).
    { unfold canonical_mantissa. apply Z.eqb_eq. assumption. }
    rewrite (binary_round_aux_canonical prec emax s m e Hc), Hmax.
    rewrite Z.sub_diag, Z.mul_1_r. auto.
  - exists (Pos.iter xO m d).
    assert (Hm : Zpos (Pos.iter xO m d) = Zpos m * 2 ^ (e - e')).
    { rewrite iter_xO_pow2. f_equal. f_equal. lia. }
    assert (Hc : canonical_mantissa prec emax (Pos.iter xO m d) e' = true).
    { unfold canonical_mantissa. apply Z.eqb_eq.
      change (Zpos (digits2_pos (Pos.iter xO m d))) with (Zdigits2 (Zpos (Pos.iter xO m d))).
      rewrite Hm, Zdigits2_mul_pow2 by lia.
      replace (Zdigits2 (Zpos m) + (e - e') + e') with (Zpos (digits2_pos m) + e)
        by (simpl Zdigits2; lia).
      assumption. }
    rewrite (binary_round_aux_canonical prec emax s _ e' Hc), Hmax. auto.
Qed.

Lemma binary_round_short_value (s : bool) (m m' : positive) (e e' : Z) :
  Zpos m' = Zpos m * 2 ^ (e - e') -> e' <= e ->
  (Fp.SF2Q (S754_finite s m' e') == Fp.SF2Q (S754_finite s m e))%Q.
Proof.
  intros Hm He. unfold Fp.SF2Q.
  assert (E : cond_Zopp s (Zpos m') = cond_Zopp s (Zpos m) * 2 ^ (e - e')).
  { destruct s; simpl cond_Zopp; [|assumption].
    change (Z.neg m') with (- Zpos m'). change (Z.neg m) with (- Zpos m). lia. }
  rewrite E. replace e' with (e - (e - e')) at 2 by lia.
  apply pow2Q_shift. lia.
Qed.

(** An integer of at most [prec] digits is a float of the format. *)
Lemma binary_normalize_int (n : Z) (sz : bool) :
  Zdigits2 n <= prec ->
  let x := binary_normalize prec emax n 0 sz in
  valid_binary prec emax x = true /\
  Fp.is_finite x = true /\
  (Fp.SF2Q x == inject_Z n)%Q /\
  Fp.trunc_Z x = n.
Proof.
  intros Hd x. subst x.
  assert (Hshort : forall (s : bool) (m : positive),
             Zdigits2 (Zpos m) <= prec ->
             let x := binary_round prec emax s m 0 in
             valid_binary prec emax x = true /\ Fp.is_finite x = true /\
             (Fp.SF2Q x == inject_Z (cond_Zopp s (Zpos m)))%Q /\
             Fp.trunc_Z x = cond_Zopp s (Zpos m)).
  { intros s m Hm x. subst x. simpl Zdigits2 in Hm.
    set (e' := fexp prec emax (Zpos (digits2_pos m) + 0)).
    assert (He : e' <= 0) by (subst e'; unfold fexp, emin; lia).
    assert (Hmax : e' <= emax - prec) by lia.
    destruct (binary_round_short s m 0 He Hmax) as (m' & -> & Hm' & Hc).
    fold e' in Hm', Hc |- *.
    split; [|split; [reflexivity|split]].
    - simpl. unfold bounded. rewrite Hc. apply Z.leb_le in Hmax. rewrite Hmax. reflexivity.
    - rewrite (binary_round_short_value s m m' 0 e' Hm' He). unfold Fp.SF2Q.
      change (Fp.pow2Q 0) with 1%Q. ring.
    - unfold Fp.trunc_Z. f_equal.
      destruct (0 <=? e') eqn:E0.
      + apply Z.leb_le in E0. assert (e' = 0) by lia.
        rewrite Hm'. replace (0 - e') with 0 by lia. replace e' with 0 by lia.
        rewrite Z.pow_0_r. lia.
      + rewrite Hm'. replace (0 - e') with (- e') by lia.
        apply Z.div_mul. apply Z.pow_nonzero; lia. }
  destruct n as [|m|m]; simpl binary_normalize.
  - repeat split; reflexivity.
  - apply (Hshort false m Hd).
  - apply (Hshort true m Hd).
Qed.

End Exact.

(** ** Rounding to an integer *)

Lemma rne_div_spec (m d : Z) :
  0 < d -> 0 <= m ->
  let n := Fp.rne_div m d in
  0 <= n <= m / d + 1 /\
  Z.abs (2 * n * d - 2 * m) <= d /\
  (Z.abs (2 * n * d - 2 * m) = d -> Z.even n = true).
Proof.
  intros Hd Hm n. subst n. unfold Fp.rne_div.
  pose proof (Z.div_mod m d ltac:(lia)) as Hdm.
  pose proof (Z.mod_pos_bound m d Hd) as Hr.
  pose proof (Z.div_pos m d Hm Hd) as Hq.
  set (q := m / d) in *. set (r := m mod d) in *.
  assert (Hqd : q * d = d * q) by ring.
  destruct (Z.compare_spec (2 * r) d) as [E|L|G].
  - destruct (Z.even q) eqn:Ev.
    + repeat split; try lia. intros _. assumption.
    + repeat split; try lia. intros _.
      rewrite Z.even_add, Ev. reflexivity.
  - repeat split; try lia.
  - repeat split; try lia.
Qed.

Lemma Q_scaled_bound (N M P D : Q) :
  (0 < P)%Q -> (P * D == 1)%Q ->
  (- D <= 2 * N * D - 2 * M <= D)%Q ->
  (- (1 # 2) <= N - M * P <= 1 # 2)%Q.
Proof.
  intros HP HPD [H1 H2].
  assert (E : (N - M * P == (2 * N * D - 2 * M) * P * (1 # 2))%Q).
  { transitivity (N * (P * D) - M * P)%Q; [rewrite HPD; ring | ring]. }
  assert (H1' : (- D * P <= (2 * N * D - 2 * M) * P)%Q)
    by (apply Qmult_le_compat_r; [assumption | apply Qlt_le_weak; assumption]).
  assert (H2' : ((2 * N * D - 2 * M) * P <= D * P)%Q)
    by (apply Qmult_le_compat_r; [assumption | apply Qlt_le_weak; assumption]).
  assert (HDP : (D * P == 1)%Q) by (rewrite Qmult_comm; assumption).
  rewrite E. split; nra.
Qed.

Lemma pow2Q_inv (e : Z) : e < 0 -> (Fp.pow2Q e * inject_Z (2 ^ (- e)) == 1)%Q.
Proof.
  intros He. rewrite <- (pow2Q_inject (- e)) by lia.
  rewrite <- pow2Q_add. replace (e + - e) with 0 by lia. reflexivity.
Qed.

(** [rint_Z] is within one half of the float, and even on a tie. *)
Lemma rint_Z_nearest (x : spec_float) :
  (Qabs (inject_Z (Fp.rint_Z x) - Fp.SF2Q x) <= 1 # 2)%Q.
Proof.
  destruct x as [s|s| |s m e]; try (simpl; discriminate).
  unfold Fp.rint_Z, Fp.SF2Q. destruct (0 <=? e) eqn:E.
  - apply Z.leb_le in E.
    assert (Eq0 : (inject_Z (cond_Zopp s (Z.pos m * 2 ^ e))
                   - inject_Z (cond_Zopp s (Z.pos m)) * Fp.pow2Q e == 0)%Q).
    { rewrite (pow2Q_inject e E).
      destruct s; cbn [cond_Zopp]; rewrite ?inject_Z_opp, ?inject_Z_mult;
        change (Z.neg m) with (- Z.pos m); rewrite ?inject_Z_opp; ring. }
    rewrite Eq0. discriminate.
  - apply Z.leb_gt in E.
    assert (Hd : 0 < 2 ^ (- e)) by (apply Z.pow_pos_nonneg; lia).
    destruct (rne_div_spec (Z.pos m) (2 ^ (- e)) Hd ltac:(lia)) as (_ & Hb & _).
    set (n := Fp.rne_div (Z.pos m) (2 ^ (- e))) in *.
    set (d := 2 ^ (- e)) in *.
    assert (HQ : (- inject_Z d <= 2 * inject_Z n * inject_Z d - 2 * inject_Z (Z.pos m)
                  <= inject_Z d)%Q).
    { change 2%Q with (inject_Z 2).
      rewrite <- !inject_Z_mult, <- inject_Z_opp.
      unfold Qminus. rewrite <- inject_Z_opp, <- inject_Z_plus.
      rewrite <- !Zle_Qle. lia. }
    pose proof (Q_scaled_bound (inject_Z n) (inject_Z (Z.pos m)) (Fp.pow2Q e) (inject_Z d)
                  (pow2Q_pos e) (pow2Q_inv e E) HQ) as [B1 B2].
    apply Qabs_Qle_condition.
    destruct s; cbn [cond_Zopp].
    + change (Z.neg m) with (- Z.pos m). rewrite !inject_Z_opp. split; nra.
    + split; nra.
Qed.


Lemma SF2Q_integral (s : bool) (m : positive) (e : Z) :
  0 <= e ->
  (Fp.SF2Q (S754_finite s m e) == inject_Z (cond_Zopp s (Z.pos m * 2 ^ e)))%Q.
Proof.
  intros He. unfold Fp.SF2Q. rewrite (pow2Q_inject e He).
  destruct s; cbn [cond_Zopp]; rewrite ?inject_Z_opp, ?inject_Z_mult;
    change (Z.neg m) with (- Z.pos m); rewrite ?inject_Z_opp; ring.
Qed.

Lemma Zdigits2_opp (n : Z) : Zdigits2 (- n) = Zdigits2 n.
Proof. destruct n; reflexivity. Qed.

Section Rint.

Variables prec emax : Z.
Hypothesis Hprec : 0 < prec.
Hypothesis Hemax : prec < emax.

(** [rint] stays in the format and holds exactly [rint_Z]. *)
Lemma rint_facts (x : spec_float) :
  valid_binary prec emax x = true -> Fp.is_finite x = true ->
  let y := Fp.rint prec emax x in
  valid_binary prec emax y = true /\
  Fp.is_finite y = true /\
  (Fp.SF2Q y == inject_Z (Fp.rint_Z x))%Q /\
  Fp.trunc_Z y = Fp.rint_Z x.
Proof.
  destruct x as [s|s| |s m e]; try discriminate; intros Vx _ y; subst y.
  - repeat split; reflexivity.
  - unfold Fp.rint. destruct (0 <=? e) eqn:E.
    + apply Z.leb_le in E. split; [assumption|]. split; [reflexivity|]. split.
      * rewrite (SF2Q_integral s m e E). unfold Fp.rint_Z.
        apply Z.leb_le in E. rewrite E. reflexivity.
      * unfold Fp.trunc_Z, Fp.rint_Z. apply Z.leb_le in E. rewrite E. reflexivity.
    + apply Z.leb_gt in E.
      apply binary_normalize_int; try assumption.
      unfold Fp.rint_Z. assert (E' : (0 <=? e) = false) by (apply Z.leb_gt; lia).
      rewrite E'.
      assert (Hd : 0 < 2 ^ (- e)) by (apply Z.pow_pos_nonneg; lia).
      destruct (rne_div_spec (Z.pos m) (2 ^ (- e)) Hd ltac:(lia)) as (Hn & _ & _).
      set (n := Fp.rne_div (Z.pos m) (2 ^ (- e))) in *.
      assert (Hdn : Zdigits2 n <= prec).
      { apply Zdigits2_le_pow; [lia|]. split; [lia|].
        simpl in Vx. unfold bounded in Vx. apply andb_true_iff in Vx.
        destruct Vx as [Cx _]. apply canonical_shaped in Cx.
        destruct Cx as (_ & Hdm & _).
        pose proof (Zdigits2_bounds (Z.pos m) ltac:(lia)) as [_ Hm].
        assert (Hm' : Z.pos m < 2 ^ prec).
        { eapply Z.lt_le_trans; [exact Hm|]. apply Z.pow_le_mono_r; lia. }
        assert (H2 : 2 ^ 1 <= 2 ^ (- e)) by (apply Z.pow_le_mono_r; lia).
        change (2 ^ 1) with 2 in H2.
        assert (H3 : Z.pos m / 2 ^ (- e) <= Z.pos m / 2)
          by (apply Z.div_le_compat_l; lia).
        assert (H4 : 2 ^ prec = 2 * 2 ^ (prec - 1)).
        { replace prec with (1 + (prec - 1)) at 1 by lia.
          rewrite Z.pow_add_r by lia. reflexivity. }
        assert (H5 : Z.pos m / 2 < 2 ^ (prec - 1))
          by (apply Z.div_lt_upper_bound; lia).
        assert (H6 : 0 < 2 ^ (prec - 1)) by (apply Z.pow_pos_nonneg; lia).
        lia. }
      destruct s; cbn [cond_Zopp]; [rewrite Zdigits2_opp|]; assumption.
Qed.

End Rint.

(** ** Quantizing one float32 element *)


Lemma f32_prec_pos : 0 < F32.prec.
Proof. reflexivity. Qed.

Lemma f32_prec_emax : F32.prec < F32.emax.
Proof. reflexivity. Qed.

Lemma in_rangeb_iff (bits v : Z) : Int.in_rangeb bits v = true <-> Int.in_range bits v.
Proof.
  unfold Int.in_rangeb, Int.in_range. rewrite andb_true_iff, Z.leb_le, Z.ltb_lt. tauto.
Qed.

Lemma cvtt32_fits (y : spec_float) :
  Fp.is_finite y = true -> Int.in_range 32 (Fp.trunc_Z y) -> Fp.cvtt32 y = Fp.trunc_Z y.
Proof.
  intros F R. unfold Fp.cvtt32. rewrite F. apply in_rangeb_iff in R. rewrite R. reflexivity.
Qed.

Lemma cvtt32_range (y : spec_float) : Int.in_range 32 (Fp.cvtt32 y).
Proof.
  unfold Fp.cvtt32.
  destruct (Fp.is_finite y && Int.in_rangeb 32 (Fp.trunc_Z y)) eqn:E.
  - apply andb_true_iff in E. apply in_rangeb_iff. exact (proj2 E).
  - apply in_range32_iff. change (- 2 ^ 31) with (-2147483648). lia.
Qed.

(** A float holding an integer of the int8 range converts to it. *)
Lemma to_int8_fits (y : spec_float) :
  Fp.is_finite y = true -> -128 <= Fp.trunc_Z y <= 127 -> Fp.to_int 8 y = Fp.trunc_Z y.
Proof.
  intros F R. unfold Fp.to_int. rewrite cvtt32_fits; [|exact F|apply in_range32_iff; lia].
  apply wrap8_id, in_range8_iff. exact R.
Qed.

(** Clamp to [-128, 127] and cast to int8, on an integral float. *)
Lemma clamp_to_int8 (y : spec_float) (n : Z) :
  F32.valid y = true -> Fp.is_finite y = true ->
  (Fp.SF2Q y == inject_Z n)%Q -> Fp.trunc_Z y = n ->
  Fp.to_int 8 (Fp.clamp (F32.of_Z (-128)) (F32.of_Z 127) y)
  = Z.min (Z.max n (-128)) 127.
Proof.
  intros Vy Fy Hv Ht.
  assert (Hlo : SFltb y (F32.of_Z (-128)) = true <-> n < -128).
  { rewrite (SFltb_SF2Q F32.prec F32.emax f32_prec_pos y (F32.of_Z (-128)) Vy eq_refl Fy eq_refl).
    rewrite Hv. change (Fp.SF2Q (F32.of_Z (-128))) with (Fp.SF2Q (S754_finite true 8388608 (-16))).
    assert (E : (Fp.SF2Q (S754_finite true 8388608 (-16)) == inject_Z (-128))%Q)
      by reflexivity.
    rewrite E, <- Zlt_Qlt. reflexivity. }
  assert (Hhi : SFltb (F32.of_Z 127) y = true <-> 127 < n).
  { rewrite (SFltb_SF2Q F32.prec F32.emax f32_prec_pos (F32.of_Z 127) y eq_refl Vy eq_refl Fy).
    rewrite Hv. change (Fp.SF2Q (F32.of_Z 127)) with (Fp.SF2Q (S754_finite false 16646144 (-17))).
    assert (E : (Fp.SF2Q (S754_finite false 16646144 (-17)) == inject_Z 127)%Q)
      by reflexivity.
    rewrite E, <- Zlt_Qlt. reflexivity. }
  unfold Fp.clamp.
  assert (Hnan : Fp.is_nan y = false) by (destruct y; try discriminate; reflexivity).
  rewrite Hnan.
  destruct (SFltb y (F32.of_Z (-128))) eqn:E1.
  - assert (n < -128) by (apply Hlo; reflexivity).
    change (SFltb (F32.of_Z 127) (F32.of_Z (-128))) with false. cbv iota.
    rewrite Z.max_r, Z.min_l by lia. reflexivity.
  - assert (-128 <= n).
    { destruct (Z_lt_le_dec n (-128)) as [Hlt|]; [|assumption].
      apply Hlo in Hlt. congruence. }
    destruct (SFltb (F32.of_Z 127) y) eqn:E2.
    + assert (127 < n) by (apply Hhi; reflexivity).
      rewrite Z.max_l, Z.min_r by lia. reflexivity.
    + assert (n <= 127).
      { destruct (Z_lt_le_dec 127 n) as [Hlt|]; [|assumption].
        apply Hhi in Hlt. congruence. }
      rewrite Z.max_l, Z.min_l by lia.
      rewrite to_int8_fits; [exact Ht | exact Fy | lia].
Qed.

(** [clamp_int8(q.round())] on one finite element. *)
Lemma quantize_elem_int8 (q : spec_float) :
  F32.valid q = true -> Fp.is_finite q = true ->
  Fp.to_int 8 (Fp.clamp (F32.of_Z (-128)) (F32.of_Z 127) (F32.rint q))
  = Z.min (Z.max (Fp.rint_Z q) (-128)) 127.
Proof.
  intros Vq Fq.
  destruct (rint_facts F32.prec F32.emax f32_prec_pos f32_prec_emax q Vq Fq)
    as (V & F & Hv & Ht).
  apply clamp_to_int8; assumption.
Qed.

(** [q.round().to(torch.int32)] on one element: its rounding when that
    fits in 32 bits, and [-2^31] otherwise. *)
Lemma quantize_elem_quant32 (q : spec_float) :
  F32.valid q = true -> Fp.to_int 32 (F32.rint q) = quant32 q.
Proof.
  intros Vq. unfold Fp.to_int. rewrite wrap32_id by apply cvtt32_range.
  unfold quant32, Fp.cvtt32. destruct (Fp.is_finite q) eqn:Fq.
  - destruct (rint_facts F32.prec F32.emax f32_prec_pos f32_prec_emax q Vq Fq)
      as (V & F & Hv & Ht).
    unfold F32.rint. rewrite F, Ht. reflexivity.
  - destruct q; try discriminate Fq; reflexivity.
Qed.

Lemma quant32_fits (q : spec_float) :
  Fp.is_finite q = true -> Int.in_range 32 (Fp.rint_Z q) -> quant32 q = Fp.rint_Z q.
Proof.
  intros F R. unfold quant32. rewrite F. apply in_rangeb_iff in R. rewrite R. reflexivity.
Qed.

(** ** The quantizers *)

Lemma ratio32_valid (v s : spec_float) : F32.valid (ratio32 v s) = true.
Proof. apply (SFdiv_valid F32.prec F32.emax f32_prec_pos). Qed.

Lemma quantize_row_int8 (row : list spec_float) (s : spec_float) :
  Forall (fun v => Fp.is_finite (ratio32 v s) = true) row ->
  Torch.to_intf 8 (Torch.clampf (Torch.round (Torch.div_scalar row s)) (-128) 127)
  = map (fun v => sat8 (Fp.rint_Z (ratio32 v s))) row.
Proof.
  intros H. unfold Torch.to_intf, Torch.clampf, Torch.round, Torch.div_scalar.
  rewrite !map_map. apply map_ext_in. intros v Hv.
  rewrite Forall_forall in H.
  apply quantize_elem_int8; [apply ratio32_valid | exact (H v Hv)].
Qed.

Lemma quantize_row_quant32 (row : list spec_float) (s : spec_float) :
  Torch.to_intf 32 (Torch.round (Torch.div_scalar row s))
  = map (fun v => quant32 (ratio32 v s)) row.
Proof.
  unfold Torch.to_intf, Torch.round, Torch.div_scalar.
  rewrite !map_map. apply map_ext. intros v.
  apply quantize_elem_quant32, ratio32_valid.
Qed.





(** ** Quantization error *)

Lemma sat8_range (k : Z) : -128 <= sat8 k <= 127.
Proof. unfold sat8; lia. Qed.

Lemma sat8_error (k : Z) (r : Q) :
  (Qabs (inject_Z k - r) <= 1 # 2)%Q ->
  (- (257 # 2) <= r <= 255 # 2)%Q ->
  (Qabs (inject_Z (sat8 k) - r) <= 1 # 2)%Q.
Proof.
  intros Hk [Hlo Hhi]. apply Qabs_Qle_condition in Hk. destruct Hk as [Hk1 Hk2].
  apply Qabs_Qle_condition. unfold sat8.
  destruct (Z_lt_le_dec k (-128)) as [Hlt|Hge].
  - rewrite Z.max_r, Z.min_l by lia.
    assert (HkQ : (inject_Z k <= inject_Z (-129))%Q) by (rewrite <- Zle_Qle; lia).
    change (inject_Z (-129)) with (- (129 # 1))%Q in HkQ.
    change (inject_Z (-128)) with (- (128 # 1))%Q. split; lra.
  - destruct (Z_lt_le_dec 127 k) as [Hgt|Hle].
    + rewrite Z.max_l, Z.min_r by lia.
      assert (HkQ : (inject_Z 128 <= inject_Z k)%Q) by (rewrite <- Zle_Qle; lia).
      change (inject_Z 128) with (128 # 1)%Q in HkQ.
      change (inject_Z 127) with (127 # 1)%Q. split; lra.
    + rewrite Z.max_l, Z.min_l by lia. split; assumption.
Qed.

(** C7 (amended). When the float32 ratio [r = v / s] is finite and lies
    in [-128.5, 127.5], the quantized integer [n] is within one half of
    [r]; hence, for [s > 0], [n * s] is within [s / 2] of [r * s], and
    of [v] itself when the division was exact. *)
Theorem C7_quantization_error (v s : spec_float) :
  Fp.is_finite (ratio32 v s) = true ->
  (- (257 # 2) <= Fp.SF2Q (ratio32 v s) <= 255 # 2)%Q ->
  exists n,
    x0_q [v] s = [n] /\
    -128 <= n <= 127 /\
    (Qabs (inject_Z n - Fp.SF2Q (ratio32 v s)) <= 1 # 2)%Q /\
    ((0 < Fp.SF2Q s)%Q ->
     (Qabs (inject_Z n * Fp.SF2Q s - Fp.SF2Q (ratio32 v s) * Fp.SF2Q s)
      <= (1 # 2) * Fp.SF2Q s)%Q /\
     ((Fp.SF2Q (ratio32 v s) * Fp.SF2Q s == Fp.SF2Q v)%Q ->
      (Qabs (inject_Z n * Fp.SF2Q s - Fp.SF2Q v) <= (1 # 2) * Fp.SF2Q s)%Q)).
Proof.
  intros Hf Hr. set (r := ratio32 v s) in *.
  exists (sat8 (Fp.rint_Z r)).
  assert (Herr : (Qabs (inject_Z (sat8 (Fp.rint_Z r)) - Fp.SF2Q r) <= 1 # 2)%Q)
    by (apply sat8_error; [apply rint_Z_nearest | assumption]).
  split; [|split; [apply sat8_range | split; [exact Herr|]]].
  - unfold x0_q. rewrite quantize_row_int8 by (repeat constructor; assumption).
    reflexivity.
  - intros Hs.
    assert (Hscaled : (Qabs (inject_Z (sat8 (Fp.rint_Z r)) * Fp.SF2Q s
                             - Fp.SF2Q r * Fp.SF2Q s) <= (1 # 2) * Fp.SF2Q s)%Q).
    { apply Qabs_Qle_condition in Herr. destruct Herr as [E1 E2].
      apply Qabs_Qle_condition. split; nra. }
    split; [exact Hscaled|].
    intros Hexact. rewrite <- Hexact. exact Hscaled.
Qed.

Lemma C7_witness :
  exists n,
    x0_q [Ex.one_and_three_quarters] Ex.seven_tenths = [n] /\
    -128 <= n <= 127 /\
    (Qabs (inject_Z n - Fp.SF2Q (ratio32 Ex.one_and_three_quarters Ex.seven_tenths))
     <= 1 # 2)%Q /\
    ((0 < Fp.SF2Q Ex.seven_tenths)%Q ->
     (Qabs (inject_Z n * Fp.SF2Q Ex.seven_tenths
            - Fp.SF2Q (ratio32 Ex.one_and_three_quarters Ex.seven_tenths)
              * Fp.SF2Q Ex.seven_tenths)
      <= (1 # 2) * Fp.SF2Q Ex.seven_tenths)%Q /\
     ((Fp.SF2Q (ratio32 Ex.one_and_three_quarters Ex.seven_tenths)
       * Fp.SF2Q Ex.seven_tenths == Fp.SF2Q Ex.one_and_three_quarters)%Q ->
      (Qabs (inject_Z n * Fp.SF2Q Ex.seven_tenths - Fp.SF2Q Ex.one_and_three_quarters)
       <= (1 # 2) * Fp.SF2Q Ex.seven_tenths)%Q)).
Proof.
  apply (C7_quantization_error Ex.one_and_three_quarters Ex.seven_tenths).
  - reflexivity.
  - split; vm_compute; congruence.
Defined.

(** C7 as stated fails where the clamp saturates: 1000 at scale 1
    quantizes to 127, which is 873 away. *)
Lemma C7_counterexample :
  x0_q [Ex.thousand] F64.one = [127] /\
  (0 < Fp.SF2Q F64.one)%Q /\
  ~ (Qabs (inject_Z 127 * Fp.SF2Q F64.one - Fp.SF2Q Ex.thousand)
     <= (1 # 2) * Fp.SF2Q F64.one)%Q.
Proof.
  split; [reflexivity|]. split; [reflexivity|].
  intros H. vm_compute in H. apply H. reflexivity.
Qed.

(** Within the range the bound is on the computed ratio, not on [v]: the
    float32 division 1.75 / 0.7 rounds to 2.5 exactly, the tie goes to 2,
    and 2 * 0.7 is further than 0.35 from 1.75. *)
Lemma quantization_error_float_rounding :
  ratio32 Ex.one_and_three_quarters Ex.seven_tenths = Ex.two_and_half /\
  x0_q [Ex.one_and_three_quarters] Ex.seven_tenths = [2] /\
  ~ (Qabs (inject_Z 2 * Fp.SF2Q Ex.seven_tenths - Fp.SF2Q Ex.one_and_three_quarters)
     <= (1 # 2) * Fp.SF2Q Ex.seven_tenths)%Q.
Proof.
  split; [reflexivity|]. split; [reflexivity|].
  intros H. vm_compute in H. apply H. reflexivity.
Qed.

(** ** The scale estimator *)

Lemma SF2Q_finite_pos (m : positive) (e : Z) : (0 < Fp.SF2Q (S754_finite false m e))%Q.
Proof. apply Qlt_alt. apply (SF2Q_zero_compare_r false m e). Qed.

Lemma SFabs_real32 (v : spec_float) : real32 v -> real32 (SFabs v).
Proof. destruct v; intros [V F]; try discriminate; split; assumption. Qed.

Lemma SFabs_value (v : spec_float) : (Fp.SF2Q (SFabs v) == Qabs (Fp.SF2Q v))%Q.
Proof.
  destruct v as [s|s| |s m e]; try reflexivity.
  pose proof (SF2Q_finite_pos m e) as Hp.
  destruct s; [|simpl SFabs; rewrite Qabs_pos by (apply Qlt_le_weak; assumption); reflexivity].
  simpl SFabs.
  assert (E : (Fp.SF2Q (S754_finite true m e) == - Fp.SF2Q (S754_finite false m e))%Q).
  { unfold Fp.SF2Q. cbn [cond_Zopp]. change (Z.neg m) with (- Z.pos m).
    rewrite inject_Z_opp. ring. }
  rewrite E, Qabs_opp, Qabs_pos by (apply Qlt_le_weak; assumption). reflexivity.
Qed.

Lemma max_nan_real32 (a b : spec_float) :
  real32 a -> real32 b ->
  let c := Fp.max_nan a b in
  (c = a \/ c = b) /\ (Fp.SF2Q a <= Fp.SF2Q c)%Q /\ (Fp.SF2Q b <= Fp.SF2Q c)%Q.
Proof.
  intros [Va Fa] [Vb Fb] c. subst c. unfold Fp.max_nan.
  assert (Na : Fp.is_nan a = false) by (destruct a; try discriminate; reflexivity).
  assert (Nb : Fp.is_nan b = false) by (destruct b; try discriminate; reflexivity).
  rewrite Na, Nb.
  pose proof (SFltb_SF2Q F32.prec F32.emax f32_prec_pos a b Va Vb Fa Fb) as Hlt.
  destruct (SFltb a b).
  - assert (Fp.SF2Q a < Fp.SF2Q b)%Q by (apply Hlt; reflexivity).
    split; [right; reflexivity|]. split; [apply Qlt_le_weak; assumption | apply Qle_refl].
  - split; [left; reflexivity|]. split; [apply Qle_refl|].
    apply Qnot_lt_le. intros H. apply Hlt in H. discriminate.
Qed.

Lemma fold_max_nan_greatest (l : list spec_float) (x : spec_float) :
  Forall real32 (x :: l) ->
  let r := fold_left Fp.max_nan l x in
  In r (x :: l) /\ forall y, In y (x :: l) -> (Fp.SF2Q y <= Fp.SF2Q r)%Q.
Proof.
  revert x; induction l as [|a l IH]; intros x H r; subst r.
  - simpl. split; [left; reflexivity|]. intros y [<-|[]]. apply Qle_refl.
  - inversion H as [|? ? Hx Hal]; subst. inversion Hal as [|? ? Ha Hl]; subst.
    destruct (max_nan_real32 x a Hx Ha) as (Hc & Hxc & Hac).
    set (c := Fp.max_nan x a) in *.
    assert (Hcr : real32 c) by (destruct Hc as [-> | ->]; assumption).
    destruct (IH c (Forall_cons c Hcr Hl)) as [Hin Hge].
    simpl fold_left. fold c. split.
    + destruct Hin as [E|Hin].
      * rewrite <- E. destruct Hc as [-> | ->]; simpl; auto.
      * right; right; assumption.
    + intros y [<-|[<-|Hy]].
      * eapply Qle_trans; [exact Hxc|]. apply Hge. left; reflexivity.
      * eapply Qle_trans; [exact Hac|]. apply Hge. left; reflexivity.
      * apply Hge. right; assumption.
Qed.

(** [t.abs().max()] of real values: the greatest absolute value. *)
Lemma max_abs_greatest (t : list spec_float) :
  t <> [] -> Forall real32 t ->
  exists mx,
    Torch.max (Torch.abs t) = Ok mx /\
    In mx (map SFabs t) /\
    real32 mx /\
    forall v, In v t -> (Qabs (Fp.SF2Q v) <= Fp.SF2Q mx)%Q.
Proof.
  intros Hne Ht. destruct t as [|x t]; [congruence|].
  assert (Habs : Forall real32 (map SFabs (x :: t))).
  { apply Forall_forall; intros y Hy. apply in_map_iff in Hy.
    destruct Hy as (v & <- & Hv). apply SFabs_real32.
    eapply Forall_forall; eauto. }
  simpl map in Habs.
  destruct (fold_max_nan_greatest (map SFabs t) (SFabs x) Habs) as [Hin Hge].
  exists (fold_left Fp.max_nan (map SFabs t) (SFabs x)).
  split; [reflexivity|]. split; [exact Hin|]. split.
  - eapply Forall_forall; [exact Habs | exact Hin].
  - intros v Hv. rewrite <- SFabs_value. apply Hge.
    change (SFabs x :: map SFabs t) with (map SFabs (x :: t)).
    apply in_map; assumption.
Qed.

Lemma f64_prec_pos : 0 < F64.prec.
Proof. reflexivity. Qed.

Lemma f64_prec_emax : F64.prec < F64.emax.
Proof. reflexivity. Qed.

(** [.item()] of a real float32: the same number as a binary64. *)
Lemma item_finite (s : bool) (m : positive) (e : Z) :
  F32.valid (S754_finite s m e) = true ->
  exists m' e',
    Torch.item (S754_finite s m e) = S754_finite s m' e' /\
    Zdigits2 (Zpos m') + e' = Zdigits2 (Zpos m) + e /\
    -149 < Zdigits2 (Zpos m) + e <= 128 /\
    (Fp.SF2Q (S754_finite s m' e') == Fp.SF2Q (S754_finite s m e))%Q.
Proof.
  intros V. unfold F32.valid in V. simpl in V. unfold bounded in V.
  apply andb_true_iff in V. destruct V as [C B].
  apply (canonical_shaped F32.prec F32.emax) in C. destruct C as (C1 & C2 & C3).
  apply Z.leb_le in B.
  change (emin F32.prec F32.emax) with (-149) in *.
  change F32.prec with 24 in *. change F32.emax with 128 in *.
  pose proof (Zdigits2_pos (Zpos m) ltac:(lia)) as Hd.
  unfold Torch.item, F64.of_f32, Fp.convert.
  assert (He : fexp 53 1024 (Zpos (digits2_pos m) + e) <= e).
  { unfold fexp, emin. simpl Zdigits2 in *. lia. }
  assert (Hmax : fexp 53 1024 (Zpos (digits2_pos m) + e) <= 1024 - 53).
  { unfold fexp, emin. simpl Zdigits2 in *. lia. }
  destruct (binary_round_short 53 1024 s m e He Hmax) as (m' & E & Hm' & Hc).
  exists m', (fexp 53 1024 (Zpos (digits2_pos m) + e)).
  assert (Enorm : binary_normalize 53 1024 (cond_Zopp s (Z.pos m)) e s
                  = binary_round 53 1024 s m e) by (destruct s; reflexivity).
  change F64.prec with 53. change F64.emax with 1024.
  rewrite Enorm, E. split; [reflexivity|]. split; [|split; [lia|]].
  - rewrite Hm', Zdigits2_mul_pow2 by lia. lia.
  - apply (binary_round_short_value s m m' e _ Hm' He).
Qed.

Lemma float_of_int_127 :
  Py.float_of_int 127 = Ok (S754_finite false 8936830510563328 (-46)).
Proof. reflexivity. Qed.

(** The two branches of [calc_scale_sym], by the maximum found. *)
Lemma calc_scale_sym_branches (t : list spec_float) (mx : spec_float) :
  Torch.max (Torch.abs t) = Ok mx -> In mx (map SFabs t) -> real32 mx ->
  (mx = S754_zero false /\ calc_scale_sym t 127 = Ok F64.one) \/
  (exists m e m' e',
      mx = S754_finite false m e /\
      calc_scale_sym t 127 = Ok (F64.div (F64.of_f32 mx) (F64.of_Z 127)) /\
      F64.div (F64.of_f32 mx) (F64.of_Z 127) = S754_finite false m' e').
Proof.
  intros Hmax Hin [V F]. unfold calc_scale_sym. rewrite Hmax. cbn [bind].
  apply in_map_iff in Hin. destruct Hin as (v & Hv & _).
  destruct mx as [s|s| |s m e]; try discriminate.
  - left. assert (s = false) by (destruct v; simpl in Hv; congruence). subst s.
    split; reflexivity.
  - right. assert (s = false) by (destruct v; simpl in Hv; congruence). subst s.
    destruct (item_finite false m e V) as (m1 & e1 & Eitem & Hd & Hrange & _).
    rewrite Eitem.
    change (Py.gt (S754_finite false m1 e1) F64.zero) with true. cbv iota.
    rewrite float_of_int_127. cbn [bind].
    unfold Py.truediv. simpl Fp.is_zero. cbv iota.
    unfold Torch.item in Eitem. rewrite Eitem.
    change (F64.of_Z 127) with (S754_finite false 8936830510563328 (-46)).
    destruct (SFdiv_finite F64.prec F64.emax f64_prec_pos f64_prec_emax
                false false m1 8936830510563328 e1 (-46)) as (m' & e' & E).
    + change (Zdigits2 (Z.pos 8936830510563328)) with 53.
      change (emin F64.prec F64.emax) with (-1074). lia.
    + change (Zdigits2 (Z.pos 8936830510563328)) with 53.
      change F64.emax with 1024. lia.
    + exists m, e, m', e'. split; [reflexivity|]. split; [reflexivity|]. exact E.
Qed.

(** C6 (amended). For a non-empty collection of real values,
    [calc_scale_sym] returns; it returns [max(|v|) / 127] when the
    greatest absolute value is positive and exactly 1.0 when it is zero,
    in particular when every value is zero; the scale returned is a
    finite, strictly positive float. *)
Theorem C6_calc_scale_sym (t : list spec_float) :
  t <> [] -> Forall real32 t ->
  exists mx scale,
    Torch.max (Torch.abs t) = Ok mx /\
    In mx (map SFabs t) /\
    (forall v, In v t -> (Qabs (Fp.SF2Q v) <= Fp.SF2Q mx)%Q) /\
    calc_scale_sym t 127 = Ok scale /\
    ((0 < Fp.SF2Q mx)%Q -> scale = F64.div (F64.of_f32 mx) (F64.of_Z 127)) /\
    ((Fp.SF2Q mx == 0)%Q -> scale = F64.one) /\
    (Forall (fun v => Fp.is_zero v = true) t -> scale = F64.one) /\
    Fp.is_finite scale = true /\
    (0 < Fp.SF2Q scale)%Q.
Proof.
  intros Hne Ht.
  destruct (max_abs_greatest t Hne Ht) as (mx & Hmax & Hin & Hreal & Hge).
  destruct (calc_scale_sym_branches t mx Hmax Hin Hreal)
    as [[Emx Ecalc] | (m & e & m' & e' & Emx & Ecalc & Ediv)].
  - exists mx, F64.one.
    split; [assumption|]. split; [assumption|]. split; [assumption|].
    split; [assumption|]. subst mx.
    split; [|split; [|split; [|split]]].
    + intros H. exfalso. revert H. apply Qlt_irrefl.
    + reflexivity.
    + reflexivity.
    + reflexivity.
    + reflexivity.
  - exists mx, (F64.div (F64.of_f32 mx) (F64.of_Z 127)).
    split; [assumption|]. split; [assumption|]. split; [assumption|].
    split; [assumption|]. split; [reflexivity|].
    assert (Hpos : (0 < Fp.SF2Q mx)%Q) by (subst mx; apply SF2Q_finite_pos).
    split; [|split; [|split]].
    + intros H0. rewrite H0 in Hpos. exfalso. revert Hpos. apply Qlt_irrefl.
    + intros Hz. exfalso.
      apply in_map_iff in Hin. destruct Hin as (v & Hv & Hvt).
      rewrite Forall_forall in Hz. specialize (Hz v Hvt).
      destruct v; try discriminate. subst mx. discriminate.
    + rewrite Ediv. reflexivity.
    + rewrite Ediv. apply SF2Q_finite_pos.
Qed.

Lemma C6_witness :
  exists mx scale,
    Torch.max (Torch.abs [Ex.half; Ex.minus_three_and_half; S754_zero false]) = Ok mx /\
    In mx (map SFabs [Ex.half; Ex.minus_three_and_half; S754_zero false]) /\
    (forall v, In v [Ex.half; Ex.minus_three_and_half; S754_zero false] ->
               (Qabs (Fp.SF2Q v) <= Fp.SF2Q mx)%Q) /\
    calc_scale_sym [Ex.half; Ex.minus_three_and_half; S754_zero false] 127 = Ok scale /\
    ((0 < Fp.SF2Q mx)%Q -> scale = F64.div (F64.of_f32 mx) (F64.of_Z 127)) /\
    ((Fp.SF2Q mx == 0)%Q -> scale = F64.one) /\
    (Forall (fun v => Fp.is_zero v = true)
            [Ex.half; Ex.minus_three_and_half; S754_zero false] -> scale = F64.one) /\
    Fp.is_finite scale = true /\
    (0 < Fp.SF2Q scale)%Q.
Proof.
  apply (C6_calc_scale_sym [Ex.half; Ex.minus_three_and_half; S754_zero false]).
  - discriminate.
  - repeat constructor.
Defined.

(** C6 as stated fails on the empty collection: every value of it is
    zero, yet [t.abs().max()] raises and no scale is returned. *)
Lemma C6_counterexample :
  Forall (fun v => Fp.is_zero v = true) [] /\
  calc_scale_sym [] 127 = Err RuntimeError /\
  ~ exists scale, calc_scale_sym [] 127 = Ok scale.
Proof.
  split; [constructor|]. split; [reflexivity|].
  intros [scale H]. discriminate.
Qed.

(** ** The shift solver *)

Lemma M1_of_total (acc1_scale scale_h1_target : spec_float) :
  M1_of acc1_scale scale_h1_target
  = Ok (F64.div acc1_scale
          (if Py.gt scale_h1_target F64.zero then scale_h1_target else F64.one)).
Proof.
  unfold M1_of, Py.truediv.
  destruct (Py.gt scale_h1_target F64.zero) eqn:E; [|reflexivity].
  destruct scale_h1_target; try reflexivity. discriminate.
Qed.

Lemma rint_Z_nonpos (x : spec_float) : SFleb x F64.zero = true -> Fp.rint_Z x <= 0.
Proof.
  destruct x as [s|s| |s m e]; unfold Fp.rint_Z; try (intros _; lia).
  destruct s; [intros _ | discriminate]. cbn [cond_Zopp].
  destruct (0 <=? e) eqn:E.
  - apply Z.leb_le in E. pose proof (Z.pow_pos_nonneg 2 e ltac:(lia) E). nia.
  - apply Z.leb_gt in E.
    assert (Hd : 0 < 2 ^ (- e)) by (apply Z.pow_pos_nonneg; lia).
    destruct (rne_div_spec (Z.pos m) (2 ^ (- e)) Hd ltac:(lia)) as (Hn & _ & _).
    lia.
Qed.

Lemma py_round_finite (x : spec_float) :
  Fp.is_finite x = true -> Py.round x = Ok (Fp.rint_Z x).
Proof. destruct x; try discriminate; reflexivity. Qed.

Lemma f64_valid_range (s : bool) (m : positive) (e : Z) :
  F64.valid (S754_finite s m e) = true ->
  -1074 <= e <= 971 /\ 1 <= Zpos (digits2_pos m) <= 53 /\
  (Zpos (digits2_pos m) < 53 -> e = -1074).
Proof.
  unfold F64.valid. simpl. unfold bounded. intros V.
  apply andb_true_iff in V. destruct V as [C B]. apply Z.leb_le in B.
  apply (canonical_shaped F64.prec F64.emax) in C. destruct C as (C1 & C2 & C3).
  change (emin F64.prec F64.emax) with (-1074) in *.
  change F64.prec with 53 in *. change F64.emax with 1024 in *.
  simpl Zdigits2 in *. lia.
Qed.

(** ** Division by 1.0 *)

Lemma div_eucl_div_mod (a b : Z) : Z.div_eucl a b = (a / b, a mod b).
Proof. unfold Z.div, Z.modulo. destruct (Z.div_eucl a b); reflexivity. Qed.

(** [x / 1.0] is [x], for every binary64 [x]. *)
Lemma F64_div_one (x : spec_float) : F64.valid x = true -> F64.div x F64.one = x.
Proof.
  destruct x as [s|s| |s m e]; intros V.
  - destruct s; reflexivity.
  - destruct s; reflexivity.
  - reflexivity.
  - destruct (f64_valid_range s m e V) as (He & Hd & Hsub).
    assert (Hc : canonical_mantissa 53 1024 m e = true).
    { unfold F64.valid in V. simpl valid_binary in V. unfold bounded in V.
      apply andb_true_iff in V. exact (proj1 V). }
    assert (Hs : xorb s false = s) by (destruct s; reflexivity).
    unfold F64.div, F64.one, SFdiv, SFdiv_core_binary. rewrite Hs.
    change (Zdigits2 (Z.pos 4503599627370496)) with 53.
    change (Zdigits2 (Z.pos m)) with (Z.pos (digits2_pos m)).
    change F64.prec with 53. change F64.emax with 1024.
    destruct (Z_lt_le_dec (-1074) e) as [Hnorm|Hsub'].
    + (* normal: the quotient is 2m at exponent e - 1 *)
      assert (Hd53 : Z.pos (digits2_pos m) = 53) by lia.
      rewrite Hd53.
      replace (Z.min (fexp 53 1024 (53 + e - (53 + -52))) (e - -52)) with (e - 1)
        by (unfold fexp, emin; lia).
      replace (e - -52 - (e - 1)) with 53 by lia.
      rewrite div_eucl_div_mod, Z.shiftl_mul_pow2 by lia.
      replace (Z.pos m * 2 ^ 53) with (Z.pos m~0 * 4503599627370496)
        by (rewrite (Pos2Z.inj_xO m); change (2 ^ 53) with 9007199254740992; lia).
      rewrite Z.div_mul, Z.mod_mul by discriminate.
      change (new_location 4503599627370496 0) with loc_Exact.
      unfold binary_round_aux, shr_fexp.
      change (Zdigits2 (Z.pos m~0)) with (Z.pos (Pos.succ (digits2_pos m))).
      rewrite Pos2Z.inj_succ, Hd53.
      replace (fexp 53 1024 (Z.succ 53 + (e - 1)) - (e - 1)) with 1
        by (unfold fexp, emin; lia).
      cbn [shr shr_record_of_loc iter_pos shr_1 shr_m loc_of_shr_record
             round_nearest_even orb].
      change (Zdigits2 (Z.pos m)) with (Z.pos (digits2_pos m)). rewrite Hd53.
      replace (e - 1 + 1) with e by lia.
      replace (fexp 53 1024 (53 + e) - e) with 0 by (unfold fexp, emin; lia).
      cbn [shr shr_m]. 
      assert (E : (e <=? 1024 - 53) = true) by (apply Z.leb_le; lia).
      rewrite E. reflexivity.
    + (* smallest exponent: the quotient is m at exponent e *)
      assert (Ee : e = -1074) by lia. subst e.
      replace (Z.min (fexp 53 1024 (Z.pos (digits2_pos m) + -1074 - (53 + -52)))
                 (-1074 - -52)) with (-1074)
        by (unfold fexp, emin; lia).
      change (-1074 - -52 - -1074) with 52.
      rewrite div_eucl_div_mod, Z.shiftl_mul_pow2 by lia.
      change (2 ^ 52) with 4503599627370496.
      rewrite Z.div_mul, Z.mod_mul by discriminate.
      change (new_location 4503599627370496 0) with loc_Exact.
      rewrite (binary_round_aux_canonical 53 1024 s m (-1074) Hc). reflexivity.
Qed.

Section ShiftSolverFacts.

Variable log2 : spec_float -> spec_float.

(** What is assumed of the C library's [log2]: on a positive finite
    binary64 it returns a finite value, non-positive up to 1.0, and it
    maps [+inf] to [+inf]. *)
Hypothesis log2_finite :
  forall x, F64.valid x = true -> Py.gt x F64.zero = true -> Fp.is_inf x = false ->
            Fp.is_finite (log2 x) = true.
Hypothesis log2_nonpos :
  forall x, F64.valid x = true -> Py.gt x F64.zero = true -> SFleb x F64.one = true ->
            SFleb (log2 x) F64.zero = true.
Hypothesis log2_inf : log2 (S754_infinity false) = S754_infinity false.

Lemma shift1_of_spec (M : spec_float) :
  F64.valid M = true -> Fp.is_inf M = false ->
  exists shift,
    shift1_of log2 M = Ok shift /\
    shift = (if Py.gt M F64.zero then Z.max 0 (Fp.rint_Z (log2 M)) else 0) /\
    0 <= shift /\
    (Py.gt M F64.zero = true -> SFleb M F64.one = true -> shift = 0).
Proof.
  intros V Hinf. unfold shift1_of.
  destruct (Py.gt M F64.zero) eqn:E.
  - rewrite (py_round_finite _ (log2_finite M V E Hinf)). cbn [bind].
    eexists; split; [reflexivity|]. split; [reflexivity|]. split; [lia|].
    intros _ Hle. pose proof (rint_Z_nonpos _ (log2_nonpos M V E Hle)). lia.
  - exists 0. split; [reflexivity|]. split; [reflexivity|]. split; [lia|]. discriminate.
Qed.

(** C4 (amended). The multiplier is [M = S_acc / S_target] when
    [S_target > 0] and [S_acc / 1.0], which is [S_acc], otherwise.  When
    [M] is not infinite the solver returns [shift = max(0, round(log2(M)))]
    for [M > 0] and [0] otherwise, a non-negative integer, equal to [0]
    for [M] in (0, 1].  When [M] is [+inf] it returns no shift:
    [round(log2(M))] raises OverflowError. *)
Theorem C4_shift_solver (S_acc S_target : spec_float) :
  exists M,
    M1_of S_acc S_target = Ok M /\
    M = F64.div S_acc (if Py.gt S_target F64.zero then S_target else F64.one) /\
    (Py.gt S_target F64.zero = false -> F64.valid S_acc = true -> M = S_acc) /\
    (Fp.is_inf M = false ->
     exists shift,
       shift1_of log2 M = Ok shift /\
       shift = (if Py.gt M F64.zero then Z.max 0 (Fp.rint_Z (log2 M)) else 0) /\
       0 <= shift /\
       (Py.gt M F64.zero = true -> SFleb M F64.one = true -> shift = 0)) /\
    (M = S754_infinity false -> shift1_of log2 M = Err OverflowError).
Proof.
  eexists. split; [apply M1_of_total|]. split; [reflexivity|]. split; [|split].
  - intros Hgt V. rewrite Hgt. apply F64_div_one; assumption.
  - intros Hinf. apply shift1_of_spec; [|assumption].
    apply (SFdiv_valid F64.prec F64.emax f64_prec_pos).
  - intros ->. unfold shift1_of. cbn [Py.gt SFltb SFcompare F64.zero].
    rewrite log2_inf. reflexivity.
Qed.

End ShiftSolverFacts.

(** The stand-in of the examples meets what is assumed of [log2]. *)

Lemma f64_of_Z_small (k : Z) :
  -2000 <= k <= 2000 ->
  Fp.is_finite (F64.of_Z k) = true /\ (k <= 0 -> SFleb (F64.of_Z k) F64.zero = true).
Proof.
  intros Hk.
  assert (Hd : Zdigits2 k <= F64.prec).
  { change F64.prec with 53.
    destruct (Z_lt_le_dec k 0) as [Hneg|Hpos].
    - rewrite <- Zdigits2_opp. apply Zdigits2_le_pow; [lia|].
      change (2 ^ 53) with 9007199254740992. lia.
    - apply Zdigits2_le_pow; [lia|]. change (2 ^ 53) with 9007199254740992. lia. }
  destruct (binary_normalize_int F64.prec F64.emax f64_prec_pos f64_prec_emax k false Hd)
    as (_ & F & Hv & _).
  split; [exact F|]. intros Hle.
  unfold F64.of_Z, Fp.of_Z in *.
  destruct k as [|p|p]; try lia; [reflexivity|].
  simpl binary_normalize in *.
  assert (He : fexp 53 1024 (Zpos (digits2_pos p) + 0) <= 0).
  { simpl Zdigits2 in Hd. change F64.prec with 53 in Hd. unfold fexp, emin. lia. }
  assert (Hmax : fexp 53 1024 (Zpos (digits2_pos p) + 0) <= 1024 - 53).
  { lia. }
  destruct (binary_round_short 53 1024 true p 0 He Hmax) as (m' & E & _).
  change F64.prec with 53. change F64.emax with 1024. rewrite E. reflexivity.
Qed.

Lemma ilog2_finite (x : spec_float) :
  F64.valid x = true -> Py.gt x F64.zero = true -> Fp.is_inf x = false ->
  Fp.is_finite (Ex.ilog2 x) = true.
Proof.
  destruct x as [s|s| |s m e]; try discriminate. intros V _ _.
  destruct (f64_valid_range s m e V) as (He & Hd & _).
  apply f64_of_Z_small. lia.
Qed.

Lemma ilog2_nonpos (x : spec_float) :
  F64.valid x = true -> Py.gt x F64.zero = true -> SFleb x F64.one = true ->
  SFleb (Ex.ilog2 x) F64.zero = true.
Proof.
  destruct x as [s|s| |s m e].
  - discriminate.
  - intros _ H. destruct s; discriminate.
  - discriminate.
  - intros V Hpos Hle.
    destruct (f64_valid_range s m e V) as (He & Hd & Hsub).
    destruct s; [discriminate|].
    apply f64_of_Z_small; [lia|].
    assert (Hc : SFcompare (S754_finite false m e) F64.one
                 = Some (match e ?= -52 with
                         | Lt => Lt
                         | Gt => Gt
                         | Eq => Pos.compare_cont Eq m 4503599627370496
                         end)) by reflexivity.
    unfold SFleb in Hle. rewrite Hc in Hle. clear Hc.
    pose proof (Zdigits2_bounds (Z.pos m) ltac:(lia)) as [Hlo _].
    change (Zdigits2 (Z.pos m)) with (Z.pos (digits2_pos m)) in Hlo.
    destruct (Z.compare_spec e (-52)) as [E|L|G]; [|lia|discriminate].
    subst e. rewrite Pos.compare_cont_spec in Hle.
    assert (Hm : Z.pos m <= 4503599627370496).
    { destruct (Pos.compare_spec m 4503599627370496) as [E|L|G].
      - rewrite E. apply Z.le_refl.
      - apply Z.lt_le_incl. exact L.
      - discriminate. }
    destruct (Z.eq_dec (Z.pos (digits2_pos m)) 53) as [E53|N53]; [|lia].
    rewrite E53 in Hlo. change (2 ^ (53 - 1)) with 4503599627370496 in Hlo. lia.
Qed.

Lemma C4_witness :
  exists M,
    M1_of Ex.f64_1024 Ex.f64_quarter = Ok M /\
    M = F64.div Ex.f64_1024
          (if Py.gt Ex.f64_quarter F64.zero then Ex.f64_quarter else F64.one) /\
    (Py.gt Ex.f64_quarter F64.zero = false -> F64.valid Ex.f64_1024 = true ->
     M = Ex.f64_1024) /\
    (Fp.is_inf M = false ->
     exists shift,
       shift1_of Ex.ilog2 M = Ok shift /\
       shift = (if Py.gt M F64.zero then Z.max 0 (Fp.rint_Z (Ex.ilog2 M)) else 0) /\
       0 <= shift /\
       (Py.gt M F64.zero = true -> SFleb M F64.one = true -> shift = 0)) /\
    (M = S754_infinity false -> shift1_of Ex.ilog2 M = Err OverflowError).
Proof.
  apply (C4_shift_solver Ex.ilog2 ilog2_finite ilog2_nonpos eq_refl Ex.f64_1024 Ex.f64_quarter).
Defined.

(** C4 as stated fails where the multiplier overflows: the positive
    scales [2**1000] and [2**-1000] have the quotient [+inf], and
    [round(log2(+inf))] raises OverflowError, whatever [log2] that maps
    [+inf] to [+inf]: no shift is returned. *)
Lemma C4_counterexample :
  F64.valid Ex.f64_huge = true /\ Py.gt Ex.f64_huge F64.zero = true /\
  F64.valid Ex.f64_tiny = true /\ Py.gt Ex.f64_tiny F64.zero = true /\
  M1_of Ex.f64_huge Ex.f64_tiny = Ok (S754_infinity false) /\
  shift1_of Ex.ilog2 (S754_infinity false) = Err OverflowError /\
  (forall log2 : spec_float -> spec_float,
      log2 (S754_infinity false) = S754_infinity false ->
      shift1_of log2 (S754_infinity false) = Err OverflowError /\
      ~ exists shift, shift1_of log2 (S754_infinity false) = Ok shift).
Proof.
  split; [reflexivity|]. split; [reflexivity|]. split; [reflexivity|].
  split; [reflexivity|]. split; [vm_compute; reflexivity|]. split; [reflexivity|].
  intros log2 H.
  assert (E : shift1_of log2 (S754_infinity false) = Err OverflowError).
  { unfold shift1_of. cbn [Py.gt SFltb SFcompare F64.zero]. rewrite H. reflexivity. }
  split; [exact E|]. intros [shift Hs]. rewrite E in Hs. discriminate.
Qed.

(** ** Calibration, top to bottom *)

Lemma calibrate_and_quantize_inv
  (log2 : spec_float -> spec_float) (c : Calibration) (g : Globals) :
  calibrate_and_quantize log2 c = Ok g ->
  calc_scale_sym (x_flat c) 127 = Ok (scale_x g) /\
  calc_scale_sym (concat (weight (fc1 c))) 127 = Ok (scale_w1 g) /\
  calc_scale_sym (concat (weight (fc2 c))) 127 = Ok (scale_w2 g) /\
  calc_scale_sym (h1_f c) 127 = Ok (scale_h1_target g) /\
  quantize_linear (fc1 c) (scale_x g) (scale_w1 g) = (W1_q g, b1_q g) /\
  acc1_scale g = F64.mul (scale_x g) (scale_w1 g) /\
  M1_of (acc1_scale g) (scale_h1_target g) = Ok (M1 g) /\
  shift1_of log2 (M1 g) = Ok (shift1 g) /\
  scale_h1_eff_of (acc1_scale g) (shift1 g) = Ok (scale_h1_eff g) /\
  in2_scale g = scale_h1_eff g /\
  quantize_linear (fc2 c) (in2_scale g) (scale_w2 g) = (W2_q g, b2_q g) /\
  h1_q_sim g
  = Torch.to_intf 8
      (Torch.clampf (Torch.round (Torch.div_scalar (h1_f c) (scale_h1_eff g))) (-128) 127) /\
  acc2_scale g = F64.mul (in2_scale g) (scale_w2 g) /\
  shift2 g = 0.
Proof.
  unfold calibrate_and_quantize. intros H. inv_bind H. cbv zeta in H.
  inversion H; subst g; clear H. cbn [scale_x scale_w1 scale_w2 scale_h1_target W1_q b1_q
    acc1_scale M1 shift1 scale_h1_eff in2_scale W2_q b2_q h1_q_sim acc2_scale shift2].
  repeat split; try assumption; try reflexivity; symmetry; apply surjective_pairing.
Qed.





(** ** The forward pass: failures and shapes *)

Lemma matmul32_inv (W : list (list Z)) (x mm : list Z) :
  Torch.matmul32 W x = Ok mm ->
  Forall (fun row => length row = length x) W /\ mm = map (fun row => Torch.dot32 row x) W.
Proof.
  unfold Torch.matmul32. destruct (forallb _ W) eqn:E; [|discriminate].
  intros H. inversion H. split; [|reflexivity].
  rewrite forallb_forall in E. apply Forall_forall. intros r Hr.
  apply Nat.eqb_eq. apply E. exact Hr.
Qed.

Lemma matmul32_Err (W : list (list Z)) (x : list Z) (e : error) :
  Torch.matmul32 W x = Err e -> e = RuntimeError.
Proof.
  unfold Torch.matmul32. destruct (forallb _ W); intros H; inversion H. reflexivity.
Qed.

Lemma matmul32_mismatch (W : list (list Z)) (x : list Z) :
  Exists (fun row => length row <> length x) W -> Torch.matmul32 W x = Err RuntimeError.
Proof.
  intros H. unfold Torch.matmul32.
  destruct (forallb _ W) eqn:E; [|reflexivity].
  rewrite forallb_forall in E. apply Exists_exists in H. destruct H as [r [Hr Hn]].
  apply E in Hr. apply Nat.eqb_eq in Hr. contradiction.
Qed.

Lemma add32_Err (a b : list Z) (e : error) : Torch.add32 a b = Err e -> e = RuntimeError.
Proof.
  unfold Torch.add32. destruct (Nat.eqb _ _); [discriminate|].
  destruct a as [|a0 [|a1 a']]; destruct b as [|b0 [|b1 b']]; intros H; inversion H; reflexivity.
Qed.

Lemma argmax_Err (l : list Z) (e : error) : Torch.argmax l = Err e -> e = IndexError /\ l = [].
Proof. destruct l; intros H; inversion H. split; reflexivity. Qed.

Lemma rshift32_Err (a : list Z) (s : Z) (e : error) :
  Torch.rshift32 a s = Err e -> e = OverflowError /\ ~ - 2 ^ 63 <= s < 2 ^ 64.
Proof.
  unfold Torch.rshift32, Torch.scalar_of_int.
  destruct ((- 2 ^ 63 <=? s) && (s <? 2 ^ 64)) eqn:E; [discriminate|].
  intros H. injection H as <-. split; [reflexivity|]. intros [L U].
  apply Z.leb_le in L. apply Z.ltb_lt in U. rewrite L, U in E. discriminate.
Qed.

Lemma add32_nil_l (b r : list Z) : Torch.add32 [] b = Ok r -> r = [].
Proof.
  unfold Torch.add32. destruct b as [|b0 [|b1 b']]; simpl; intros H; inversion H; reflexivity.
Qed.

Lemma add32_length (a b r : list Z) :
  Torch.add32 a b = Ok r -> length b = length a -> length r = length a.
Proof.
  intros H L. rewrite add32_same_length in H by (symmetry; exact L).
  inversion H. rewrite length_map, length_combine. lia.
Qed.

Lemma bind_Err {A B : Type} (r : result A) (k : A -> result B) (e : error) :
  bind r k = Err e -> r = Err e \/ exists a, r = Ok a /\ k a = Err e.
Proof. destruct r; simpl; intros H; [right; eauto | left; inversion H; reflexivity]. Qed.

Lemma forward_quantized_Err (g : Globals) (x : list Z) (e : error) :
  forward_quantized g x = Err e ->
  e = RuntimeError \/ e = IndexError \/
  (e = OverflowError /\ ~ - 2 ^ 63 <= shift1 g < 2 ^ 64).
Proof.
  intros H. unfold forward_quantized in H.
  apply bind_Err in H. destruct H as [H|[mm1 [_ H]]].
  { left. unfold int8_mm_int32_acc in H. exact (matmul32_Err _ _ _ H). }
  apply bind_Err in H. destruct H as [H|[acc1 [_ H]]].
  { left. exact (add32_Err _ _ _ H). }
  apply bind_Err in H. destruct H as [H|[sh [_ H]]].
  { right. right. exact (rshift32_Err _ _ _ H). }
  cbv zeta in H.
  apply bind_Err in H. destruct H as [H|[mm2 [_ H]]].
  { left. unfold int8_mm_int32_acc in H. exact (matmul32_Err _ _ _ H). }
  apply bind_Err in H. destruct H as [H|[acc2 [_ H]]].
  { left. exact (add32_Err _ _ _ H). }
  apply bind_Err in H. destruct H as [H|[p [_ H]]].
  { right. left. exact (proj1 (argmax_Err _ _ H)). }
  discriminate.
Qed.

Lemma forward_quantized_no_outputs (g : Globals) (x : list Z) (r : Z * list Z * list Z * list Z) :
  W2_q g = [] -> forward_quantized g x <> Ok r.
Proof.
  intros HW E. destruct r as [[[pred acc1] h1] acc2].
  apply forward_quantized_inv in E.
  destruct E as (mm1 & sh & mm2 & i & _ & _ & _ & _ & H2 & H3 & H4 & _).
  rewrite HW in H2. unfold int8_mm_int32_acc in H2. simpl in H2.
  inversion H2; subst mm2. apply add32_nil_l in H3. subst acc2. discriminate.
Qed.

(** How the forward pass can fail.  With a shift count that fits a
    64-bit integer it fails only with torch's shape error, a
    RuntimeError, or with the IndexError of [argmax] on an empty tensor,
    never on an integer overflow.  It raises the shape error when a row
    of [W1_q] has not the length of the input.  It never returns when
    [W2_q] has no row: with the first layer well-shaped and no layer-2
    bias either, the logits are empty and [argmax] raises IndexError. *)
Theorem forward_quantized_failure (g : Globals) (x : list Z) :
  (- 2 ^ 63 <= shift1 g < 2 ^ 63 ->
   forall e, forward_quantized g x = Err e -> e = RuntimeError \/ e = IndexError) /\
  (Exists (fun row => length row <> length x) (W1_q g) ->
   forward_quantized g x = Err RuntimeError) /\
  (W2_q g = [] -> forall r, forward_quantized g x <> Ok r) /\
  (W2_q g = [] -> b2_q g = [] ->
   Forall (fun row => length row = length x) (W1_q g) ->
   length (b1_q g) = length (W1_q g) ->
   - 2 ^ 63 <= shift1 g < 2 ^ 63 ->
   forward_quantized g x = Err IndexError).
Proof.
  assert (P : 2 ^ 63 < 2 ^ 64) by reflexivity.
  split; [|split; [|split]].
  - intros Hs e He. apply forward_quantized_Err in He.
    destruct He as [He|[He|[_ He]]]; [left; exact He | right; exact He | exfalso].
    apply He. lia.
  - intros H. unfold forward_quantized, int8_mm_int32_acc.
    rewrite matmul32_mismatch; [reflexivity|].
    apply Exists_exists in H. destruct H as [r [Hr Hn]].
    apply Exists_exists. exists (Torch.to_int 32 r). split.
    + apply in_map. exact Hr.
    + unfold Torch.to_int. rewrite !length_map. exact Hn.
  - intros HW r. apply forward_quantized_no_outputs. exact HW.
  - intros HW Hb HW1 Hb1 Hs.
    unfold forward_quantized, int8_mm_int32_acc, Torch.matmul32.
    rewrite forallb_length_eq.
    2:{ apply Forall_forall. intros r Hr. apply in_map_iff in Hr. destruct Hr as (r' & <- & Hr').
        rewrite Forall_forall in HW1. unfold Torch.to_int. rewrite !length_map. auto. }
    cbn [bind]. rewrite add32_same_length by (rewrite !length_map; congruence).
    cbn [bind]. unfold Torch.rshift32. rewrite scalar_of_int_ok by lia.
    cbn [bind]. rewrite HW, Hb. reflexivity.
Qed.

Lemma forward_quantized_failure_witness :
  forward_quantized (Ex.pipeline F64.one 0) [1; 2; 3] = Err RuntimeError /\
  forward_quantized Ex.no_outputs Ex.input = Err IndexError.
Proof.
  split.
  - apply (proj1 (proj2 (forward_quantized_failure (Ex.pipeline F64.one 0) [1; 2; 3]))).
    apply Exists_cons_hd. simpl. lia.
  - apply (proj2 (proj2 (proj2 (forward_quantized_failure Ex.no_outputs Ex.input)))).
    + reflexivity.
    + reflexivity.
    + repeat constructor.
    + reflexivity.
    + cbn [Ex.no_outputs shift1].
      change (2 ^ 63) with 9223372036854775808. lia.
Defined.

Lemma int8_mm_int32_acc_length (W : list (list Z)) (x mm : list Z) :
  int8_mm_int32_acc W x = Ok mm ->
  length mm = length W /\ Forall (fun row => length row = length x) W.
Proof.
  unfold int8_mm_int32_acc. intros H. apply matmul32_inv in H. destruct H as [F ->].
  rewrite !length_map. split; [reflexivity|].
  rewrite Forall_forall in *. intros r Hr.
  specialize (F (Torch.to_int 32 r) (in_map _ _ _ Hr)).
  unfold Torch.to_int in F. rewrite !length_map in F. exact F.
Qed.

(** The shapes of what the forward pass returns, and the prediction as a
    class index. *)
Theorem forward_quantized_shapes
  (g : Globals) (x : list Z) (pred : Z) (acc1 h1 acc2 : list Z) :
  forward_quantized g x = Ok (pred, acc1, h1, acc2) ->
  length (b1_q g) = length (W1_q g) ->
  length (b2_q g) = length (W2_q g) ->
  length acc1 = length (W1_q g) /\
  length h1 = length (W1_q g) /\
  length acc2 = length (W2_q g) /\
  Forall (fun row => length row = length x) (W1_q g) /\
  Forall (fun row => length row = length (W1_q g)) (W2_q g) /\
  0 <= pred < Z.of_nat (length (W2_q g)).
Proof.
  intros H L1 L2. pose proof (argmax_first_max acc2) as FM.
  apply forward_quantized_inv in H.
  destruct H as (mm1 & sh & mm2 & i & H1 & H2 & Hsh & H3 & H4 & H5 & H6 & H7).
  apply int8_mm_int32_acc_length in H1. destruct H1 as [Lm1 F1].
  apply add32_length in H2; [|congruence].
  assert (Lh : length h1 = length acc1).
  { apply rshift32_inv in Hsh. destruct Hsh as (n & _ & ->).
    subst h1. unfold Torch.maximum, Torch.to_int, Torch.clamp.
    rewrite !length_map. reflexivity. }
  apply int8_mm_int32_acc_length in H4. destruct H4 as [Lm2 F2].
  apply add32_length in H5; [|congruence].
  specialize (FM i H6). destruct FM as [Hi _].
  split; [congruence|]. split; [congruence|]. split; [congruence|].
  split; [exact F1|]. split.
  - rewrite Forall_forall in *. intros r Hr. rewrite (F2 r Hr). congruence.
  - lia.
Qed.

Lemma forward_quantized_shapes_witness :
  length [-90; -720; 1130] = length (W1_q (Ex.pipeline F64.one 0)) /\
  length [0; 0; 127] = length (W1_q (Ex.pipeline F64.one 0)) /\
  length [127; 127] = length (W2_q (Ex.pipeline F64.one 0)) /\
  Forall (fun row => length row = length Ex.input) (W1_q (Ex.pipeline F64.one 0)) /\
  Forall (fun row => length row = length (W1_q (Ex.pipeline F64.one 0)))
         (W2_q (Ex.pipeline F64.one 0)) /\
  0 <= 0 < Z.of_nat (length (W2_q (Ex.pipeline F64.one 0))).
Proof.
  apply (forward_quantized_shapes (Ex.pipeline F64.one 0) Ex.input
           0 [-90; -720; 1130] [0; 0; 127] [127; 127]); reflexivity.
Defined.

Lemma shiftr_31_sign (v : Z) :
  Int.in_range 32 v -> Z.max (Int.wrap 8 (Z.min (Z.max (Z.shiftr v 31) (-128)) 127)) 0 = 0.
Proof.
  intros H. apply in_range32_iff in H. rewrite Z.shiftr_div_pow2 by lia.
  change (2 ^ 31) with 2147483648.
  assert (v / 2147483648 = 0 \/ v / 2147483648 = -1) as [-> | ->].
  { destruct (Z_lt_le_dec v 0).
    - right. symmetry. apply (Z.div_unique v 2147483648 (-1) (v + 2147483648)); lia.
    - left. apply Z.div_small. lia. }
  - reflexivity.
  - reflexivity.
Qed.

Lemma add32_int32 (a b r : list Z) : Torch.add32 a b = Ok r -> is_int32 r.
Proof.
  assert (K : forall (A : Type) (f : A -> Z) (l : list A),
             (forall p, Int.in_range 32 (f p)) -> is_int32 (map f l)).
  { intros A f l Hf. apply Forall_forall. intros v Hv.
    apply in_map_iff in Hv. destruct Hv as [p [<- _]]. apply Hf. }
  unfold Torch.add32. destruct (Nat.eqb _ _).
  - intros H; injection H as <-. apply K. intros p. apply wrap32_range.
  - destruct a as [|a0 [|a1 a']]; destruct b as [|b0 [|b1 b']]; intros H;
      try discriminate H; injection H as <-;
      repeat (apply Forall_cons; [apply wrap32_range|]);
      first [ apply Forall_nil | apply K; intros p; apply wrap32_range ].
Qed.

Lemma dot32_zeros (w : list Z) (z : list Z) :
  Forall (fun v => v = 0) z -> Torch.dot32 w z = 0.
Proof.
  revert w. induction z as [|b z IH]; intros w F.
  - destruct w; reflexivity.
  - inversion F; subst. destruct w as [|a w]; [reflexivity|].
    simpl. rewrite IH by assumption. unfold Int.add32, Int.mul32.
    rewrite Z.mul_0_r. reflexivity.
Qed.

(** A shift count of 31 or more, up to what fits in 32 bits, leaves only
    the sign of each accumulator, which the ReLU discards. *)
Theorem forward_quantized_large_shift
  (g : Globals) (x : list Z) (pred : Z) (acc1 h1 acc2 : list Z) :
  forward_quantized g x = Ok (pred, acc1, h1, acc2) ->
  31 <= shift1 g < 2 ^ 31 ->
  h1 = map (fun _ => 0) acc1 /\
  (length (b2_q g) = length (W2_q g) -> is_int32 (b2_q g) ->
   acc2 = b2_q g /\ Torch.argmax (b2_q g) = Ok (Z.to_nat pred)).
Proof.
  intros H Hs. apply forward_quantized_inv in H.
  destruct H as (mm1 & sh & mm2 & i & H1 & H2 & Hsh & H3 & H4 & H5 & H6 & H7).
  assert (Hh : h1 = map (fun _ => 0) acc1).
  { unfold Torch.rshift32 in Hsh.
    rewrite scalar_of_int_ok in Hsh
      by (change (2 ^ 31) with 2147483648 in Hs; change (2 ^ 63) with 9223372036854775808;
          change (2 ^ 64) with 18446744073709551616; lia).
    cbn [bind] in Hsh. rewrite wrap32_count in Hsh by lia.
    replace ((shift1 g <? 0) || (31 <=? shift1 g)) with true in Hsh
      by (symmetry; apply orb_true_iff; right; apply Z.leb_le; lia).
    injection Hsh as <-.
    subst h1. unfold Torch.maximum, Torch.to_int, Torch.clamp.
    rewrite !map_map. apply map_ext_in. intros v Hv.
    apply shiftr_31_sign. apply add32_int32 in H2.
    unfold is_int32 in H2. rewrite Forall_forall in H2. apply H2. exact Hv. }
  split; [exact Hh|]. intros L2 I2.
  assert (acc2 = b2_q g) as E.
  { unfold int8_mm_int32_acc in H4. apply matmul32_inv in H4. destruct H4 as [_ ->].
    rewrite add32_same_length in H5 by (rewrite !length_map; congruence).
    inversion H5. clear H5.
    assert (Z0s : Forall (fun v => v = 0) (Torch.to_int 32 h1)).
    { rewrite Hh. unfold Torch.to_int. rewrite map_map. apply Forall_forall.
      intros v Hv. apply in_map_iff in Hv. destruct Hv as [a [<- _]]. reflexivity. }
    rewrite map_map.
    revert I2 L2. generalize (b2_q g). generalize (W2_q g).
    induction l as [|r W IH]; intros b I2 L2.
    - destruct b; [reflexivity|discriminate].
    - destruct b as [|b0 b]; [discriminate|]. simpl.
      inversion I2; subst. rewrite dot32_zeros by exact Z0s. simpl.
      rewrite wrap32_id by assumption. f_equal. apply IH; [assumption|].
      simpl in L2. congruence. }
  split; [exact E|]. rewrite <- E, H7, Nat2Z.id. exact H6.
Qed.

Lemma forward_quantized_large_shift_witness :
  [0; 0; 0] = map (fun _ => 0) [-90; -720; 1130] /\
  (length (b2_q Ex.deep_shift) = length (W2_q Ex.deep_shift) ->
   is_int32 (b2_q Ex.deep_shift) ->
   [5; 9] = b2_q Ex.deep_shift /\ Torch.argmax (b2_q Ex.deep_shift) = Ok (Z.to_nat 1)).
Proof.
  apply (forward_quantized_large_shift Ex.deep_shift Ex.input
           1 [-90; -720; 1130] [0; 0; 0] [5; 9]).
  - reflexivity.
  - cbn [Ex.deep_shift shift1]. change (2 ^ 31) with 2147483648. lia.
Defined.

(** ** Reading the exported files back *)

Lemma byte_token (v : Z) : Fmt.format_0x 2 (Z.land v 255) = hex_token 2 (v mod 256).
Proof.
  change 255 with (Z.ones 8). rewrite Z.land_ones by lia. change (2 ^ 8) with 256.
  apply format_0x_token; [lia|]. change (16 ^ Z.of_nat 2) with 256.
  apply Z.mod_pos_bound. lia.
Qed.

Lemma word_token (v : Z) :
  Fmt.format_0x 8 (Z.land v 4294967295) = hex_token 8 (v mod 4294967296).
Proof.
  change 4294967295 with (Z.ones 32). rewrite Z.land_ones by lia.
  change (2 ^ 32) with 4294967296.
  apply format_0x_token; [lia|]. change (16 ^ Z.of_nat 8) with 4294967296.
  apply Z.mod_pos_bound. lia.
Qed.

Lemma wrap8_mod (v : Z) : Int.wrap 8 (v mod 256) = Int.wrap 8 v.
Proof.
  rewrite !wrap8_eq. f_equal. rewrite Zplus_mod_idemp_l. reflexivity.
Qed.

Lemma wrap32_mod (v : Z) : Int.wrap 32 (v mod 4294967296) = Int.wrap 32 v.
Proof.
  rewrite !wrap32_eq. f_equal. rewrite Zplus_mod_idemp_l. reflexivity.
Qed.

Lemma byte_token_value (v : Z) :
  Int.wrap 8 (hex_value (Fmt.format_0x 2 (Z.land v 255))) = Int.wrap 8 v.
Proof.
  rewrite byte_token, hex_token_value, wrap8_mod; [reflexivity|].
  change (16 ^ Z.of_nat 2) with 256. apply Z.mod_pos_bound. lia.
Qed.

Lemma word_token_value (v : Z) :
  Int.wrap 32 (hex_value (Fmt.format_0x 8 (Z.land v 4294967295))) = Int.wrap 32 v.
Proof.
  rewrite word_token, hex_token_value, wrap32_mod; [reflexivity|].
  change (16 ^ Z.of_nat 8) with 4294967296. apply Z.mod_pos_bound. lia.
Qed.

Lemma hex_token_nonempty (w : nat) (u : Z) :
  (0 < w)%nat -> String.eqb (hex_token w u) EmptyString = false.
Proof.
  intros Hw. pose proof (hex_token_length w u) as L.
  destruct (hex_token w u); [simpl in L; lia | reflexivity].
Qed.

Lemma words_join (toks : list string) :
  Forall (fun t => string_forallb (fun c => negb (Ascii.eqb c " "%char)) t = true /\
                   String.eqb t EmptyString = false) toks ->
  words (String.concat " " toks) = toks.
Proof.
  intros H. unfold words. destruct toks as [|t toks]; [reflexivity|].
  rewrite split_spaces_join.
  - induction H as [|a l [_ Ha] _ IH]; [reflexivity|].
    cbn [filter]. rewrite Ha. cbn [negb]. f_equal. exact IH.
  - discriminate.
  - eapply Forall_impl; [|exact H]. intros a [Ha _]. exact Ha.
Qed.

Lemma byte_line_words (row : list Z) :
  map (fun t => Int.wrap 8 (hex_value t))
      (words (String.concat " " (map (fun v => Fmt.format_0x 2 (Z.land v 255)) row)))
  = map (Int.wrap 8) row.
Proof.
  rewrite words_join.
  - rewrite map_map. apply map_ext. intros v. apply byte_token_value.
  - apply Forall_forall. intros t Ht. apply in_map_iff in Ht. destruct Ht as [v [<- _]].
    rewrite byte_token. split.
    + apply hex_token_all. intros d. rewrite hex_digit_not_space. reflexivity.
    + apply hex_token_nonempty. lia.
Qed.

Lemma byte_line_no_newline (row : list Z) :
  string_forallb (fun c => negb (Ascii.eqb c "010"%char))
    (String.concat " " (map (fun v => Fmt.format_0x 2 (Z.land v 255)) row)) = true.
Proof.
  apply concat_forallb; [reflexivity|].
  apply Forall_forall; intros t Ht. apply in_map_iff in Ht. destruct Ht as (v & <- & _).
  rewrite byte_token.
  apply hex_token_all; intros d. rewrite hex_digit_not_newline; reflexivity.
Qed.

Lemma wrap_id_list (t : list Z) : is_int8 t -> map (Int.wrap 8) t = t.
Proof.
  intros H. rewrite <- (map_id t) at 2. apply map_ext_in. intros v Hv.
  apply wrap8_id. unfold is_int8 in H. rewrite Forall_forall in H. auto.
Qed.

Lemma wrap32_id_list (t : list Z) : is_int32 t -> map (Int.wrap 32) t = t.
Proof.
  intros H. rewrite <- (map_id t) at 2. apply map_ext_in. intros v Hv.
  apply wrap32_id. unfold is_int32 in H. rewrite Forall_forall in H. auto.
Qed.

Lemma wrap8_id_matrix (W : list (list Z)) :
  Forall is_int8 W -> map (map (Int.wrap 8)) W = W.
Proof.
  intros H. rewrite <- (map_id W) at 2. apply map_ext_in. intros row Hr.
  apply wrap_id_list. rewrite Forall_forall in H. auto.
Qed.

Lemma read_save_mem_int8 (W : list (list Z)) :
  read_mem_int8 (save_mem_int8 W) = map (map (Int.wrap 8)) W.
Proof.
  unfold read_mem_int8, save_mem_int8.
  rewrite (fold_write_unlines
             (fun row => String.concat " "
                           (map (fun v => Fmt.format_0x 2 (Z.land v 255)) row))).
  change (append EmptyString ?s) with s. cbv beta.
  rewrite lines_unlines.
  - rewrite map_map. apply map_ext. intros row. apply byte_line_words.
  - apply Forall_forall. intros l Hl. apply in_map_iff in Hl.
    destruct Hl as [row [<- _]]. apply byte_line_no_newline.
Qed.

Lemma read_save_mem_int32 (b : list Z) :
  read_mem_int32 (save_mem_int32 b) = map (Int.wrap 32) b.
Proof.
  unfold read_mem_int32, save_mem_int32.
  rewrite (fold_write_unlines (fun v => Fmt.format_0x 8 (Z.land v 4294967295))).
  change (append EmptyString ?s) with s.
  rewrite lines_unlines.
  - rewrite map_map. apply map_ext. intros v. apply word_token_value.
  - apply Forall_forall. intros l Hl. apply in_map_iff in Hl.
    destruct Hl as [v [<- _]]. rewrite word_token.
    apply hex_token_all; intros d. rewrite hex_digit_not_newline; reflexivity.
Qed.

Lemma save_sample_input_column (x : list Z) :
  save_sample_input x = save_mem_int8 (map (fun v => [v]) x).
Proof.
  unfold save_sample_input, save_mem_int8.
  rewrite (fold_write_unlines (fun v => Fmt.format_0x 2 (Z.land v 255))).
  rewrite (fold_write_unlines
             (fun row => String.concat " "
                           (map (fun v => Fmt.format_0x 2 (Z.land v 255)) row))).
  rewrite map_map. reflexivity.
Qed.

Lemma read_save_sample_input (x : list Z) :
  concat (read_mem_int8 (save_sample_input x)) = map (Int.wrap 8) x.
Proof.
  rewrite save_sample_input_column, read_save_mem_int8, map_map.
  induction x as [|v x IH]; [reflexivity|]. simpl. f_equal. exact IH.
Qed.

(** Reading a weight file back gives the low byte of every element, in
    the rows and order in which they were saved; an int8 matrix is read
    back unchanged, and two int8 matrices with the same file are equal. *)
Theorem save_mem_int8_round_trip (W : list (list Z)) :
  read_mem_int8 (save_mem_int8 W) = map (map (Int.wrap 8)) W /\
  (Forall is_int8 W -> read_mem_int8 (save_mem_int8 W) = W) /\
  (forall W', Forall is_int8 W -> Forall is_int8 W' ->
              save_mem_int8 W = save_mem_int8 W' -> W = W').
Proof.
  split; [apply read_save_mem_int8|]. split.
  - intros H. rewrite read_save_mem_int8. apply wrap8_id_matrix. exact H.
  - intros W' H H' E.
    rewrite <- (wrap8_id_matrix W H), <- (wrap8_id_matrix W' H'), <- !read_save_mem_int8, E.
    reflexivity.
Qed.

Lemma save_mem_int8_round_trip_witness :
  read_mem_int8 (save_mem_int8 Ex.weights) = Ex.weights.
Proof.
  apply (proj1 (proj2 (save_mem_int8_round_trip Ex.weights))).
  repeat (constructor; try (apply in_range8_iff; lia)).
Defined.

(** The same for a bias file: the low 32 bits of every element come
    back, and an int32 vector comes back unchanged. *)
Theorem save_mem_int32_round_trip (b : list Z) :
  read_mem_int32 (save_mem_int32 b) = map (Int.wrap 32) b /\
  (is_int32 b -> read_mem_int32 (save_mem_int32 b) = b) /\
  (forall b', is_int32 b -> is_int32 b' -> save_mem_int32 b = save_mem_int32 b' -> b = b').
Proof.
  split; [apply read_save_mem_int32|]. split.
  - intros H. rewrite read_save_mem_int32. apply wrap32_id_list. exact H.
  - intros b' H H' E.
    rewrite <- (wrap32_id_list b H), <- (wrap32_id_list b' H'), <- !read_save_mem_int32, E.
    reflexivity.
Qed.

Lemma save_mem_int32_round_trip_witness :
  read_mem_int32 (save_mem_int32 Ex.biases) = Ex.biases.
Proof.
  apply (proj1 (proj2 (save_mem_int32_round_trip Ex.biases))).
  repeat (constructor; try (apply in_range32_iff; lia)).
Defined.

(** The sample file is a weight file with one element per row: as many
    lines as the sample has elements, which are read back in order. *)
Theorem save_sample_input_round_trip (x : list Z) :
  save_sample_input x = save_mem_int8 (map (fun v => [v]) x) /\
  length (lines (save_sample_input x)) = length x /\
  concat (read_mem_int8 (save_sample_input x)) = map (Int.wrap 8) x /\
  (is_int8 x -> concat (read_mem_int8 (save_sample_input x)) = x).
Proof.
  split; [apply save_sample_input_column|]. split; [|split].
  - pose proof (f_equal (@length _) (read_save_mem_int8 (map (fun v => [v]) x))) as L.
    rewrite <- save_sample_input_column in L. unfold read_mem_int8 in L.
    rewrite !length_map in L. exact L.
  - apply read_save_sample_input.
  - intros H. rewrite read_save_sample_input. apply wrap_id_list. exact H.
Qed.

Lemma save_sample_input_round_trip_witness :
  concat (read_mem_int8 (save_sample_input Ex.input)) = Ex.input.
Proof.
  apply (proj2 (proj2 (proj2 (save_sample_input_round_trip Ex.input)))).
  repeat (constructor; try (apply in_range8_iff; lia)).
Defined.

(** ** The sample search and the decimal files *)

Lemma find_test_idx_spec (test_ds : Dataset) (n k d : nat) :
  (k + n = length test_ds)%nat ->
  (forall j s, (j < k)%nat -> nth_error test_ds j = Some s -> snd s <> 3) ->
  exists i,
    find_test_idx test_ds (seq k n) d = Some i /\
    (((i < length test_ds)%nat /\
      (exists img, nth_error test_ds i = Some (img, 3)) /\
      (forall j s, (j < i)%nat -> nth_error test_ds j = Some s -> snd s <> 3))
     \/ (i = d /\ forall j s, nth_error test_ds j = Some s -> snd s <> 3)).
Proof.
  revert k. induction n as [|n IH]; intros k Hk Hbefore.
  - exists d. split; [reflexivity|]. right. split; [reflexivity|].
    intros j s Hj. apply (Hbefore j s); [|exact Hj].
    assert (nth_error test_ds j <> None) as Hn by congruence.
    apply nth_error_Some in Hn. lia.
  - cbn [seq find_test_idx].
    destruct (nth_error test_ds k) as [s|] eqn:E.
    2:{ apply nth_error_None in E. lia. }
    destruct (snd s =? 3) eqn:E3.
    + exists k. split; [reflexivity|]. left. split; [lia|]. split.
      * apply Z.eqb_eq in E3. destruct s as [img l]. simpl in E3. subst l.
        exists img. exact E.
      * exact Hbefore.
    + apply (IH (S k)); [lia|].
      intros j s' Hj Hs'. destruct (Nat.eq_dec j k) as [->|Hne].
      * rewrite E in Hs'. inversion Hs'; subst s'. apply Z.eqb_neq in E3. exact E3.
      * apply (Hbefore j s'); [lia|exact Hs'].
Qed.

Lemma test_idx_some (test_ds : Dataset) :
  exists i, test_idx test_ds = Some i /\ ((i < length test_ds)%nat \/ i = 0%nat).
Proof.
  destruct (find_test_idx_spec test_ds (length test_ds) 0 0) as [i [Hi H]].
  - reflexivity.
  - intros j s Hj. lia.
  - exists i. split; [exact Hi|]. destruct H as [[H _]|[H _]]; [left|right]; exact H.
Qed.

(** The sample search never fails; it stops at the first image labelled 3
    and falls back to index 0 when there is none. *)
Theorem test_idx_first_three (test_ds : Dataset) :
  exists i,
    test_idx test_ds = Some i /\
    (((i < length test_ds)%nat /\
      (exists img, nth_error test_ds i = Some (img, 3)) /\
      (forall j s, (j < i)%nat -> nth_error test_ds j = Some s -> snd s <> 3))
     \/ (i = 0%nat /\ Forall (fun s => snd s <> 3) test_ds)).
Proof.
  destruct (find_test_idx_spec test_ds (length test_ds) 0 0) as [i [Hi H]].
  - reflexivity.
  - intros j s Hj. lia.
  - exists i. split; [exact Hi|]. destruct H as [H|[H0 H]]; [left; exact H|].
    right. split; [exact H0|]. apply Forall_forall. intros s Hs.
    apply In_nth_error in Hs. destruct Hs as [j Hj]. exact (H j s Hj).
Qed.

Lemma format_d_round_trip (n : Z) :
  option_map Z.of_int (NilZero.int_of_string (format_d n)) = Some n.
Proof.
  unfold format_d. rewrite NilZero.isi.
  - simpl. rewrite DecimalZ.of_to. reflexivity.
  - destruct n; simpl; try discriminate.
    intros H. inversion H. 
    pose proof (DecimalPos.Unsigned.to_uint_nonnil p). congruence.
  - destruct n; simpl; try discriminate.
    intros H. inversion H. 
    pose proof (DecimalPos.Unsigned.to_uint_nonnil p). congruence.
Qed.

(** ** The int8 quantizer is total *)

Lemma binary_round_aux_class (prec emax : Z) (sx : bool) (mx ex : Z) (lx : location) :
  0 < prec -> 0 <= mx -> ex <= fexp prec emax (Zdigits2 mx + ex) ->
  binary_round_aux prec emax sx mx ex lx = S754_zero sx \/
  binary_round_aux prec emax sx mx ex lx = S754_infinity sx \/
  exists m e, binary_round_aux prec emax sx mx ex lx = S754_finite sx m e.
Proof.
  intros Hp Hm He.
  destruct (binary_round_aux_steps prec emax Hp sx mx ex lx Hm He)
    as (m3 & e3 & E & H0 & _).
  rewrite E. destruct m3 as [|m|m]; [left; reflexivity | | lia].
  destruct (e3 <=? emax - prec); [right; right; eauto | right; left; reflexivity].
Qed.

Lemma SFdiv_class (prec emax : Z) (sx sy : bool) (mx my : positive) (ex ey : Z) :
  0 < prec ->
  let r := SFdiv prec emax (S754_finite sx mx ex) (S754_finite sy my ey) in
  r = S754_zero (xorb sx sy) \/ r = S754_infinity (xorb sx sy) \/
  exists m e, r = S754_finite (xorb sx sy) m e.
Proof.
  intros Hp. unfold SFdiv.
  destruct (SFdiv_core_binary prec emax (Zpos mx) ex (Zpos my) ey) as [[q e'] l] eqn:E.
  destruct (SFdiv_core_binary_roundable _ _ _ _ _ _ _ _ _ E) as [Hq He].
  cbv zeta. apply binary_round_aux_class; assumption.
Qed.

(** Where a quotient is a NaN. *)
Lemma SFdiv_nan (prec emax : Z) (x y : spec_float) :
  0 < prec ->
  Fp.is_nan (SFdiv prec emax x y)
  = Fp.is_nan x || Fp.is_nan y || (Fp.is_zero x && Fp.is_zero y)
    || (Fp.is_inf x && Fp.is_inf y).
Proof.
  intros Hp.
  destruct x as [sx|sx| |sx mx ex], y as [sy|sy| |sy my ey]; try reflexivity.
  destruct (SFdiv_class prec emax sx sy mx my ex ey Hp) as [E|[E|[m [e E]]]];
    rewrite E; reflexivity.
Qed.

Lemma quantize_elem_total (r : spec_float) :
  F32.valid r = true ->
  Fp.to_int 8 (Fp.clamp (F32.of_Z (-128)) (F32.of_Z 127) (F32.rint r)) = quant8 r.
Proof.
  intros V. destruct r as [s|s| |s m e] eqn:Er.
  - reflexivity.
  - destruct s; reflexivity.
  - reflexivity.
  - rewrite <- Er in *. rewrite quantize_elem_int8; [|exact V|rewrite Er; reflexivity].
    rewrite Er. reflexivity.
Qed.

Lemma quantize_row_total (row : list spec_float) (s : spec_float) :
  Torch.to_intf 8 (Torch.clampf (Torch.round (Torch.div_scalar row s)) (-128) 127)
  = map (fun v => quant8 (ratio32 v s)) row.
Proof.
  unfold Torch.to_intf, Torch.clampf, Torch.round, Torch.div_scalar.
  rewrite !map_map. apply map_ext. intros v.
  apply quantize_elem_total, ratio32_valid.
Qed.

Lemma quant8_range (r : spec_float) : -128 <= quant8 r <= 127.
Proof.
  destruct r as [s|s| |s m e]; try apply sat8_range; [destruct s|]; simpl; lia.
Qed.

Lemma quant8_int8 (f : spec_float -> spec_float) (row : list spec_float) :
  is_int8 (map (fun v => quant8 (f v)) row).
Proof.
  apply Forall_forall. intros n Hn. apply in_map_iff in Hn. destruct Hn as [v [<- _]].
  apply in_range8_iff, quant8_range.
Qed.

Lemma quant32_range (r : spec_float) : Int.in_range 32 (quant32 r).
Proof.
  unfold quant32. destruct (Fp.is_finite r && Int.in_rangeb 32 (Fp.rint_Z r)) eqn:E.
  - apply andb_true_iff in E. apply in_rangeb_iff. exact (proj2 E).
  - apply in_range32_iff. change (- 2 ^ 31) with (-2147483648). lia.
Qed.

Lemma quant32_int32 (f : spec_float -> spec_float) (row : list spec_float) :
  is_int32 (map (fun v => quant32 (f v)) row).
Proof.
  apply Forall_forall. intros n Hn. apply in_map_iff in Hn. destruct Hn as [v [<- _]].
  apply quant32_range.
Qed.

Lemma quant32_indefinite (r : spec_float) :
  Fp.is_finite r = false \/ ~ Int.in_range 32 (Fp.rint_Z r) -> quant32 r = - 2 ^ 31.
Proof.
  intros H. unfold quant32.
  destruct (Fp.is_finite r && Int.in_rangeb 32 (Fp.rint_Z r)) eqn:E; [|reflexivity].
  apply andb_true_iff in E. destruct E as [F R]. apply in_rangeb_iff in R.
  destruct H as [H|H]; [congruence | contradiction].
Qed.

(** The int8 quantizer of the sample raises nothing: every element is
    the saturated rounding of its float32 ratio, an infinite ratio
    saturating as well and a NaN ratio giving 0; the result has the
    length of the input and the int8 range.  A ratio is a NaN for a NaN
    pixel or scale, for 0 / 0 and for inf / inf only. *)
Theorem x0_q_total (x0 : list spec_float) (scale_x : spec_float) :
  x0_q x0 scale_x = map (fun v => quant8 (ratio32 v scale_x)) x0 /\
  length (x0_q x0 scale_x) = length x0 /\
  is_int8 (x0_q x0 scale_x) /\
  (forall v, Fp.is_nan (ratio32 v scale_x)
             = Fp.is_nan v || Fp.is_nan (F32.of_f64 scale_x)
               || (Fp.is_zero v && Fp.is_zero (F32.of_f64 scale_x))
               || (Fp.is_inf v && Fp.is_inf (F32.of_f64 scale_x))) /\
  (forall r, Fp.is_nan r = true -> quant8 r = 0) /\
  (forall r, Fp.is_finite r = true -> quant8 r = Z.min (Z.max (Fp.rint_Z r) (-128)) 127).
Proof.
  assert (E : x0_q x0 scale_x = map (fun v => quant8 (ratio32 v scale_x)) x0)
    by apply quantize_row_total.
  split; [exact E|]. rewrite E.
  split; [apply length_map|].
  split; [apply (quant8_int8 (fun v => ratio32 v scale_x))|].
  split; [intros v; apply SFdiv_nan; reflexivity|].
  split.
  - intros r Hr. destruct r; try discriminate Hr. reflexivity.
  - intros r Hr. destruct r; try discriminate Hr; reflexivity.
Qed.

(** A row with a finite, an infinite and a NaN ratio. *)
Lemma x0_q_not_finite :
  x0_q [Ex.one_and_three_quarters; S754_infinity false; S754_infinity true; S754_nan]
       Ex.seven_tenths
  = [2; 127; -128; 0].
Proof. reflexivity. Qed.

(** ** The layer quantizer is total *)

Lemma quantize_linear_eq (linear : Linear) (in_scale w_scale : spec_float) :
  quantize_linear linear in_scale w_scale
  = (map (map (fun w => quant8 (ratio32 w w_scale))) (weight linear),
     map (fun b => quant32 (ratio32 b (F64.mul in_scale w_scale))) (bias linear)).
Proof.
  unfold quantize_linear, clamp_int8. cbv zeta. f_equal.
  - apply map_ext. intros row. apply quantize_row_total.
  - apply quantize_row_quant32.
Qed.

Lemma quantize_linear_inv
  (linear : Linear) (in_scale w_scale : spec_float) (Wq : list (list Z)) (bq : list Z) :
  quantize_linear linear in_scale w_scale = (Wq, bq) ->
  Wq = map (map (fun w => quant8 (ratio32 w w_scale))) (weight linear) /\
  bq = map (fun b => quant32 (ratio32 b (F64.mul in_scale w_scale))) (bias linear).
Proof. rewrite quantize_linear_eq. intros H. inversion H. split; reflexivity. Qed.

(** [quantize_linear] raises nothing.  Every weight is the saturated
    rounding of its float32 ratio (127 or -128 for an infinite ratio, 0
    for a NaN); every bias is the rounding of its ratio when the ratio
    is finite and the rounding fits in 32 bits, and -2^31 otherwise.
    The weights are int8, the biases int32. *)
Theorem quantize_linear_defined (linear : Linear) (in_scale w_scale : spec_float) :
  quantize_linear linear in_scale w_scale
  = (map (map (fun w => quant8 (ratio32 w w_scale))) (weight linear),
     map (fun b => quant32 (ratio32 b (F64.mul in_scale w_scale))) (bias linear)) /\
  Forall is_int8 (fst (quantize_linear linear in_scale w_scale)) /\
  is_int32 (snd (quantize_linear linear in_scale w_scale)) /\
  (forall r, Fp.is_finite r = true -> Int.in_range 32 (Fp.rint_Z r) ->
             quant32 r = Fp.rint_Z r) /\
  (forall r, Fp.is_finite r = false \/ ~ Int.in_range 32 (Fp.rint_Z r) ->
             quant32 r = - 2 ^ 31).
Proof.
  pose proof (quantize_linear_eq linear in_scale w_scale) as E.
  split; [exact E|]. rewrite E. cbn [fst snd].
  split; [|split; [|split]].
  - apply Forall_forall. intros q Hq. apply in_map_iff in Hq. destruct Hq as [row [<- _]].
    apply (quant8_int8 (fun w => ratio32 w w_scale)).
  - apply (quant32_int32 (fun b => ratio32 b (F64.mul in_scale w_scale))).
  - apply quant32_fits.
  - apply quant32_indefinite.
Qed.

(** The layer of the examples, and one whose bias overflows. *)
Lemma quantize_linear_examples :
  quantize_linear Ex.linear F64.one F64.one = ([[0; 2]; [2; -4]], [100; -4]) /\
  quantize_linear Ex.heavy_bias F64.one F64.one = ([[0; 2]], [-2147483648]).
Proof. split; reflexivity. Qed.

(** ** Tensors that are not finite *)

Lemma max_nan_nan_l (b : spec_float) : Fp.max_nan S754_nan b = S754_nan.
Proof. reflexivity. Qed.

Lemma max_nan_nan_r (a : spec_float) : Fp.max_nan a S754_nan = S754_nan.
Proof. destruct a; reflexivity. Qed.

Lemma fold_max_nan_nan (l : list spec_float) (x : spec_float) :
  Exists (fun v => Fp.is_nan v = true) (x :: l) -> fold_left Fp.max_nan l x = S754_nan.
Proof.
  revert x. induction l as [|b l IH]; intros x H.
  - inversion H as [? ? Hx|? ? Hx]; [|inversion Hx].
    destruct x; try discriminate. reflexivity.
  - cbn [fold_left]. apply IH.
    inversion H as [? ? Hx|? ? Hx]; subst.
    + destruct x; try discriminate. rewrite max_nan_nan_l. left. reflexivity.
    + inversion Hx as [? ? Hb|? ? Hb]; subst.
      * destruct b; try discriminate. rewrite max_nan_nan_r. left. reflexivity.
      * right. exact Hb.
Qed.

Lemma abs_nan (t : list spec_float) :
  Exists (fun v => Fp.is_nan v = true) t ->
  Exists (fun v => Fp.is_nan v = true) (Torch.abs t).
Proof.
  unfold Torch.abs. induction 1 as [v t H|v t _ IH]; simpl.
  - left. destruct v; try discriminate. reflexivity.
  - right. exact IH.
Qed.

Lemma max_abs_nan (t : list spec_float) :
  Exists (fun v => Fp.is_nan v = true) t -> Torch.max (Torch.abs t) = Ok S754_nan.
Proof.
  intros H. apply abs_nan in H. unfold Torch.max.
  destruct (Torch.abs t) as [|x l]; [inversion H|].
  rewrite fold_max_nan_nan by exact H. reflexivity.
Qed.

Lemma fold_max_nan_inf (l : list spec_float) (x : spec_float) :
  Forall (fun v => Fp.is_nan v = false) (x :: l) ->
  Exists (fun v => v = S754_infinity false) (x :: l) ->
  fold_left Fp.max_nan l x = S754_infinity false.
Proof.
  revert x. induction l as [|b l IH]; intros x F H.
  - inversion H as [? ? Hx|? ? Hx]; [exact Hx|inversion Hx].
  - cbn [fold_left]. inversion F as [|? ? Fx F']; subst. inversion F' as [|? ? Fb F'']; subst.
    apply IH.
    + constructor; [|exact F''].
      unfold Fp.max_nan. rewrite Fx, Fb. destruct (SFltb x b); assumption.
    + inversion H as [? ? Hx|? ? Hx]; subst.
      * left. destruct b as [s|[|]| |s m e]; try discriminate Fb; reflexivity.
      * inversion Hx as [? ? Hb|? ? Hb]; subst.
        -- left. destruct x as [s|[|]| |[|] m e]; try discriminate Fx; reflexivity.
        -- right. exact Hb.
Qed.

Lemma max_abs_inf (t : list spec_float) :
  Forall (fun v => Fp.is_nan v = false) t ->
  Exists (fun v => Fp.is_inf v = true) t ->
  Torch.max (Torch.abs t) = Ok (S754_infinity false).
Proof.
  intros F H. unfold Torch.max.
  assert (F' : Forall (fun v => Fp.is_nan v = false) (Torch.abs t)).
  { unfold Torch.abs. apply Forall_forall. intros v Hv. apply in_map_iff in Hv.
    destruct Hv as [w [<- Hw]]. rewrite Forall_forall in F. specialize (F w Hw).
    destruct w; try discriminate; reflexivity. }
  assert (H' : Exists (fun v => v = S754_infinity false) (Torch.abs t)).
  { unfold Torch.abs. clear F F'. induction H as [v t H|v t _ IH]; simpl.
    - left. destruct v; try discriminate. reflexivity.
    - right. exact IH. }
  destruct (Torch.abs t) as [|x l]; [inversion H'|].
  rewrite fold_max_nan_inf by assumption. reflexivity.
Qed.

Lemma calc_scale_sym_nan (t : list spec_float) (int8_max : Z) :
  Exists (fun v => Fp.is_nan v = true) t -> calc_scale_sym t int8_max = Ok F64.one.
Proof.
  intros H. unfold calc_scale_sym. rewrite max_abs_nan by exact H. reflexivity.
Qed.

Lemma calc_scale_sym_inf (t : list spec_float) :
  Forall (fun v => Fp.is_nan v = false) t -> Exists (fun v => Fp.is_inf v = true) t ->
  calc_scale_sym t 127 = Ok (S754_infinity false).
Proof.
  intros F H. unfold calc_scale_sym. rewrite max_abs_inf by assumption. reflexivity.
Qed.

(** A NaN anywhere in the tensor makes the scale 1.0: the maximum is the
    NaN, and [m > 0] is false for it.  With no NaN, an infinity makes the
    scale infinite. *)
Theorem calc_scale_sym_not_finite (t : list spec_float) :
  (Exists (fun v => Fp.is_nan v = true) t ->
   forall int8_max, calc_scale_sym t int8_max = Ok F64.one) /\
  (Forall (fun v => Fp.is_nan v = false) t -> Exists (fun v => Fp.is_inf v = true) t ->
   calc_scale_sym t 127 = Ok (S754_infinity false)).
Proof.
  split.
  - intros H k. apply calc_scale_sym_nan. exact H.
  - apply calc_scale_sym_inf.
Qed.

Lemma calc_scale_sym_not_finite_witness :
  calc_scale_sym [Ex.half; S754_nan; S754_infinity true] 127 = Ok F64.one /\
  calc_scale_sym [Ex.half; S754_infinity true] 127 = Ok (S754_infinity false).
Proof.
  split.
  - apply (proj1 (calc_scale_sym_not_finite [Ex.half; S754_nan; S754_infinity true])).
    apply Exists_cons_tl, Exists_cons_hd. reflexivity.
  - apply (proj2 (calc_scale_sym_not_finite [Ex.half; S754_infinity true])).
    + repeat constructor.
    + apply Exists_cons_tl, Exists_cons_hd. reflexivity.
Defined.

Lemma quant8_over_inf (w : spec_float) :
  Fp.is_nan w = false -> quant8 (ratio32 w (S754_infinity false)) = 0.
Proof. destruct w as [s|s| |s m e]; try discriminate; intros _; reflexivity. Qed.

Lemma quant8_nan_over_one (w : spec_float) :
  Fp.is_nan w = true -> quant8 (ratio32 w F64.one) = 0.
Proof. destruct w; try discriminate. reflexivity. Qed.

(** A layer quantized with the scale of its own weights when these are
    not finite.  With an infinite weight and no NaN the scale is [+inf]
    and every weight is quantized to 0: the ratio of a finite weight is
    0, that of an infinite one is inf / inf, a NaN.  With a NaN weight
    the scale is 1.0, and the NaN weights are quantized to 0. *)
Theorem quantize_linear_not_finite (l : Linear) (in_scale w_scale : spec_float) :
  calc_scale_sym (concat (weight l)) 127 = Ok w_scale ->
  (Forall (fun w => Fp.is_nan w = false) (concat (weight l)) ->
   Exists (fun w => Fp.is_inf w = true) (concat (weight l)) ->
   w_scale = S754_infinity false /\
   fst (quantize_linear l in_scale w_scale) = map (map (fun _ => 0)) (weight l)) /\
  (Exists (fun w => Fp.is_nan w = true) (concat (weight l)) ->
   w_scale = F64.one /\
   fst (quantize_linear l in_scale w_scale)
   = map (map (fun w => if Fp.is_nan w then 0 else quant8 (ratio32 w F64.one))) (weight l)).
Proof.
  intros Hs. rewrite quantize_linear_eq. cbn [fst]. split.
  - intros F I. rewrite (calc_scale_sym_inf _ F I) in Hs. inversion Hs; subst w_scale.
    split; [reflexivity|].
    apply map_ext_in. intros row Hrow. apply map_ext_in. intros w Hw.
    apply quant8_over_inf. rewrite Forall_forall in F. apply F.
    apply in_concat. exists row. split; assumption.
  - intros E. rewrite (calc_scale_sym_nan _ 127 E) in Hs. inversion Hs; subst w_scale.
    split; [reflexivity|].
    apply map_ext. intros row. apply map_ext. intros w.
    destruct (Fp.is_nan w) eqn:N; [|reflexivity]. apply quant8_nan_over_one. exact N.
Qed.

Lemma quantize_linear_not_finite_witness :
  S754_infinity false = S754_infinity false /\
  fst (quantize_linear Ex.diverged F64.one (S754_infinity false)) = [[0; 0]].
Proof.
  apply (proj1 (quantize_linear_not_finite Ex.diverged F64.one (S754_infinity false) eq_refl)).
  - repeat constructor.
  - apply Exists_cons_tl, Exists_cons_hd. reflexivity.
Defined.

(** ** The scale does not depend on the layout *)

Lemma real32_value_inj (a b : spec_float) :
  real32 a -> real32 b -> SFabs a = a -> SFabs b = b ->
  (Fp.SF2Q a == Fp.SF2Q b)%Q -> a = b.
Proof.
  intros [Va Fa] [Vb Fb] Aa Ab E.
  pose proof (SFcompare_SF2Q F32.prec F32.emax f32_prec_pos a b Va Vb Fa Fb) as C.
  rewrite (proj1 (Qeq_alt _ _) E) in C.
  destruct a as [sa|sa| |sa ma ea]; try discriminate Fa;
    destruct b as [sb|sb| |sb mb eb]; try discriminate Fb.
  - simpl in Aa, Ab. inversion Aa; inversion Ab; subst. reflexivity.
  - simpl in C. destruct sb; discriminate.
  - simpl in C. destruct sa; discriminate.
  - simpl in Aa, Ab. inversion Aa as [Sa]; inversion Ab as [Sb].
    rewrite <- Sa, <- Sb in *. clear Sa Sb.
    cbn [SFcompare] in C.
    destruct (ea ?= eb) eqn:Ce; try discriminate.
    apply Z.compare_eq in Ce. subst eb.
    inversion C as [Cm]. change (Pos.compare_cont Eq ma mb) with (Pos.compare ma mb) in Cm.
    apply Pos.compare_eq in Cm.
    subst. reflexivity.
Qed.

Lemma max_abs_unique (t t' : list spec_float) (mx mx' : spec_float) :
  Forall real32 t -> Permutation (map SFabs t) (map SFabs t') ->
  t <> [] ->
  Torch.max (Torch.abs t) = Ok mx -> Torch.max (Torch.abs t') = Ok mx' -> mx = mx'.
Proof.
  intros F P Hne H H'.
  assert (F' : Forall real32 t').
  { apply Forall_forall. intros v Hv.
    assert (In (SFabs v) (map SFabs t)).
    { eapply Permutation_in; [apply Permutation_sym; exact P|]. apply in_map. exact Hv. }
    apply in_map_iff in H0. destruct H0 as [w [Ew Hw]].
    rewrite Forall_forall in F. specialize (F w Hw). destruct F as [Vw Fw].
    destruct w as [sw|sw| |sw mw ew]; try discriminate Fw;
      destruct v as [sv|sv| |sv mv ev]; try discriminate Ew.
    - split; reflexivity.
    - simpl in Ew. inversion Ew; subst. split; [exact Vw|reflexivity]. }
  assert (Hne' : t' <> []).
  { intros ->. apply Permutation_length in P. destruct t; [congruence|discriminate]. }
  destruct (max_abs_greatest t Hne F) as (m & Hm & Im & Rm & Gm).
  destruct (max_abs_greatest t' Hne' F') as (m' & Hm' & Im' & Rm' & Gm').
  rewrite Hm in H. rewrite Hm' in H'. inversion H; inversion H'; subst m m'.
  assert (A : forall l x, In x (map SFabs l) -> SFabs x = x).
  { intros l x Hx. apply in_map_iff in Hx. destruct Hx as [w [<- _]].
    destruct w; reflexivity. }
  apply real32_value_inj; try assumption.
  - exact (A _ _ Im).
  - exact (A _ _ Im').
  - apply Qle_antisym.
    + assert (In mx (map SFabs t')) as I by (eapply Permutation_in; eassumption).
      apply in_map_iff in I. destruct I as [w [<- Hw]].
      rewrite SFabs_value. apply Gm'. exact Hw.
    + assert (In mx' (map SFabs t)) as I
          by (eapply Permutation_in; [apply Permutation_sym|]; eassumption).
      apply in_map_iff in I. destruct I as [w [<- Hw]].
      rewrite SFabs_value. apply Gm. exact Hw.
Qed.

(** The scale depends on the magnitudes only, not on their signs or
    their order in the tensor. *)
Theorem calc_scale_sym_layout (t t' : list spec_float) (int8_max : Z) :
  Forall real32 t -> Permutation (map SFabs t) (map SFabs t') ->
  calc_scale_sym t int8_max = calc_scale_sym t' int8_max.
Proof.
  intros F P. destruct t as [|v t].
  { apply Permutation_nil in P. destruct t'; [reflexivity|discriminate]. }
  unfold calc_scale_sym.
  destruct (Torch.max (Torch.abs (v :: t))) as [mx|e] eqn:E; [|discriminate].
  destruct (Torch.max (Torch.abs t')) as [mx'|e] eqn:E'.
  - rewrite (max_abs_unique (v :: t) t' mx mx' F P) by (assumption || discriminate).
    reflexivity.
  - destruct t'; [|discriminate]. apply Permutation_sym, Permutation_nil in P. discriminate.
Qed.

Lemma calc_scale_sym_layout_witness :
  calc_scale_sym [Ex.half; Ex.minus_three_and_half] 127
  = calc_scale_sym [S754_finite false 14680064 (-22); S754_finite true 8388608 (-24)] 127.
Proof.
  apply (calc_scale_sym_layout [Ex.half; Ex.minus_three_and_half]
           [S754_finite false 14680064 (-22); S754_finite true 8388608 (-24)] 127).
  - repeat constructor.
  - apply perm_swap.
Defined.

(** ** Binary floating point: the two neighbours of a rounded value *)

Section Bracket.

Variables prec emax : Z.
Hypothesis Hprec : 0 < prec.

(** Rounding moves a mantissa to one of the two neighbours it has at the
    exponent of the format. *)
Lemma binary_round_aux_bracket (sx : bool) (mx ex : Z) (lx : location) :
  0 <= mx -> ex <= fexp prec emax (Zdigits2 mx + ex) ->
  let e1 := fexp prec emax (Zdigits2 mx + ex) in
  let T := mx / 2 ^ (e1 - ex) in
  exists m3 e3,
    binary_round_aux prec emax sx mx ex lx
    = match m3 with
      | Z0 => S754_zero sx
      | Zpos m => if e3 <=? emax - prec then S754_finite sx m e3 else S754_infinity sx
      | Zneg _ => S754_nan
      end /\
    0 <= m3 /\ shaped prec emax m3 e3 /\ e1 <= e3 <= e1 + 1 /\
    (m3 * 2 ^ (e3 - e1) = T \/ m3 * 2 ^ (e3 - e1) = T + 1).
Proof.
  intros Hm Hk e1 T. unfold binary_round_aux.
  pose proof (shr_fexp_shape prec emax Hprec mx ex lx Hm Hk) as H1. cbv zeta in H1.
  destruct (shr_fexp prec emax mx ex lx) as [mrs1 e1']. simpl fst in H1; simpl snd in H1.
  destruct H1 as (Ee1 & Em1 & Ed1 & Hs1).
  fold e1 in Ee1. subst e1'. fold T in Em1.
  set (m1 := shr_m mrs1) in *.
  assert (Hm1 : 0 <= m1).
  { rewrite Em1. apply Z.div_pos; [assumption|]. apply Z.pow_pos_nonneg; lia. }
  set (m2 := round_nearest_even m1 (loc_of_shr_record mrs1)).
  destruct (round_nearest_even_digits m1 (loc_of_shr_record mrs1) Hm1) as [Hm12 Hd12].
  pose proof (round_nearest_even_cases m1 (loc_of_shr_record mrs1)) as Hc.
  fold m2 in Hm12, Hd12, Hc.
  assert (Hm2 : 0 <= m2) by lia.
  assert (Hk2 : e1 <= fexp prec emax (Zdigits2 m2 + e1)).
  { destruct Hs1 as (Hs1a & Hs1b & Hs1c). unfold fexp in *. lia. }
  pose proof (shr_fexp_shape prec emax Hprec m2 e1 loc_Exact Hm2 Hk2) as H2. cbv zeta in H2.
  destruct (shr_fexp prec emax m2 e1 loc_Exact) as [mrs2 e2].
  simpl fst in H2; simpl snd in H2.
  destruct H2 as (Ee2 & Em2 & Ed2 & Hs2).
  exists (shr_m mrs2), e2. split; [reflexivity|].
  assert (Hm3 : 0 <= shr_m mrs2).
  { rewrite Em2. apply Z.div_pos; [assumption|]. apply Z.pow_pos_nonneg; lia. }
  split; [assumption|]. split; [assumption|].
  destruct Hs1 as (Hs1a & Hs1b & Hs1c).
  destruct (Z_le_gt_dec (Zdigits2 m2) prec) as [Hd|Hd].
  - assert (E2 : e2 = e1) by (rewrite Ee2; unfold fexp in *; lia).
    rewrite E2 in *. split; [lia|].
    rewrite Em2, Z.sub_diag, Z.div_1_r, Z.mul_1_r. rewrite <- Em1. exact Hc.
  - assert (E2 : e2 = e1 + 1) by (rewrite Ee2; unfold fexp in *; lia).
    rewrite E2 in *. split; [lia|].
    assert (Hne : m2 = m1 + 1) by (destruct Hc as [Hc|Hc]; [rewrite Hc in Hd; lia|exact Hc]).
    assert (Hpos1 : 0 < m1).
    { destruct (Z.eq_dec m1 0) as [Z0|]; [|lia].
      rewrite Hne, Z0 in Hd. simpl in Hd. lia. }
    pose proof (Zdigits2_bounds m1 Hpos1) as B1.
    assert (Hpos2 : 0 < m2) by lia.
    pose proof (Zdigits2_bounds m2 Hpos2) as B2.
    assert (D1 : Zdigits2 m1 = prec) by lia.
    assert (D2 : Zdigits2 m2 = prec + 1) by lia.
    rewrite D1 in B1. rewrite D2 in B2.
    replace (prec + 1 - 1) with prec in B2 by lia.
    assert (M2 : m2 = 2 ^ prec) by lia.
    rewrite Em2. replace (e1 + 1 - e1) with 1 by lia. change (2 ^ 1) with 2.
    right. rewrite <- Em1. rewrite <- Hne, M2.
    replace prec with (prec - 1 + 1) at 1 by lia.
    rewrite Z.pow_add_r by lia. change (2 ^ 1) with 2.
    rewrite Z.div_mul by lia.
    replace prec with (prec - 1 + 1) at 2 by lia.
    rewrite Z.pow_add_r by lia. reflexivity.
Qed.

End Bracket.

(** ** Powers of two as Python floats *)

(** [float(2**s)]: finite up to 2**1023, an OverflowError from 2**1024 on. *)
Lemma float_of_int_pow2 (s : Z) :
  0 <= s ->
  (s <= 1023 ->
   exists d, Py.float_of_int (2 ^ s) = Ok d /\ Fp.is_finite d = true /\ Fp.is_zero d = false) /\
  (1024 <= s -> Py.float_of_int (2 ^ s) = Err OverflowError).
Proof.
  intros Hs.
  assert (P : 0 < 2 ^ s) by (apply Z.pow_pos_nonneg; lia).
  assert (D : Zdigits2 (2 ^ s) = s + 1).
  { apply Zdigits2_unique; [|lia]. replace (s + 1 - 1) with s by lia.
    split; [lia|]. apply Z.pow_lt_mono_r; lia. }
  unfold Py.float_of_int, F64.of_Z, Fp.of_Z, binary_normalize.
  destruct (2 ^ s) as [|p|p] eqn:E2; try lia.
  unfold binary_round, shl_align.
  change (Zpos (digits2_pos p)) with (Zdigits2 (Zpos p)). rewrite D.
  destruct (Z_le_gt_dec s 52) as [Hsmall|Hbig].
  - split; [intros _|lia].
    pose proof (binary_normalize_int F64.prec F64.emax f64_prec_pos f64_prec_emax
                  (Zpos p) false) as H.
    rewrite D in H. specialize (H ltac:(unfold F64.prec; lia)). cbv zeta in H.
    destruct H as (_ & Hf & Hv & _).
    unfold binary_normalize, binary_round, shl_align in Hf, Hv.
    change (Zpos (digits2_pos p)) with (Zdigits2 (Zpos p)) in Hf, Hv. rewrite D in Hf, Hv.
    match goal with |- context [if Fp.is_inf ?x then _ else _] => set (d := x) in * end.
    exists d. destruct d as [sd|sd| |sd md ed]; try discriminate Hf.
    + exfalso. simpl in Hv. rewrite <- E2 in Hv.
      assert (inject_Z 0 == inject_Z (2 ^ s))%Q as Hq by exact Hv.
      apply (proj1 (inject_Z_injective _ _)) in Hq. lia.
    + simpl. auto.
  - assert (F : fexp F64.prec F64.emax (s + 1 + 0) = s - 52)
      by (unfold fexp, emin, F64.prec, F64.emax; lia).
    rewrite F. destruct (s - 52 - 0) as [|q|q] eqn:Eq; try lia.
    assert (R : 0 <= fexp F64.prec F64.emax (Zdigits2 (Zpos p) + 0))
      by (rewrite D, F; lia).
    destruct (binary_round_aux_bracket F64.prec F64.emax f64_prec_pos false (Zpos p) 0
                loc_Exact ltac:(lia) R) as (m3 & e3 & E & H0 & Sh & He & Hv).
    rewrite D, F in He, Hv. rewrite E.
    replace (s - 52 - 0) with (s - 52) in Hv by lia.
    assert (T : Zpos p / 2 ^ (s - 52) = 2 ^ 52).
    { rewrite <- E2. replace s with (52 + (s - 52)) at 1 by lia.
      rewrite Z.pow_add_r by lia. apply Z.div_mul.
      apply Z.pow_nonzero; lia. }
    rewrite T in Hv.
    assert (E3 : e3 = s - 52).
    { destruct (Z.eq_dec e3 (s - 52)) as [|Hne]; [assumption|exfalso].
      assert (E3 : e3 = s - 52 + 1) by lia. rewrite E3 in Hv, Sh.
      replace (s - 52 + 1 - (s - 52)) with 1 in Hv by lia. change (2 ^ 1) with 2 in Hv.
      change (2 ^ 52) with 4503599627370496 in Hv.
      assert (M3 : m3 = 2251799813685248) by lia.
      destruct Sh as (_ & _ & Sh). rewrite M3 in Sh.
      change (Zdigits2 2251799813685248) with 52 in Sh.
      unfold F64.prec, emin, F64.emax in Sh. lia. }
    rewrite E3 in *. replace (s - 52 - (s - 52)) with 0 in Hv by lia.
    rewrite Z.mul_1_r in Hv.
    destruct m3 as [|m|m]; [change (2 ^ 52) with 4503599627370496 in Hv; lia| |lia].
    split.
    + intros Hle. replace (s - 52 <=? F64.emax - F64.prec) with true
        by (symmetry; apply Z.leb_le; unfold F64.emax, F64.prec; lia).
      eexists. split; [reflexivity|]. split; reflexivity.
    + intros Hge. replace (s - 52 <=? F64.emax - F64.prec) with false
        by (symmetry; apply Z.leb_gt; unfold F64.emax, F64.prec; lia).
      reflexivity.
Qed.

(** The shift count calibration returns is one the effective scale can
    be computed for, from 0 to 1023: [float(2**s)] is finite up to
    [s = 1023] and raises OverflowError from [s = 1024] on. *)
Theorem calibrated_shift_range
  (log2 : spec_float -> spec_float) (c : Calibration) (g : Globals) :
  calibrate_and_quantize log2 c = Ok g ->
  0 <= shift1 g <= 1023 /\
  (exists d, Py.float_of_int (2 ^ shift1 g) = Ok d /\ Fp.is_finite d = true /\
             scale_h1_eff g = F64.div (acc1_scale g) d) /\
  (forall acc s, 1024 <= s -> scale_h1_eff_of acc s = Err OverflowError).
Proof.
  intros Hc.
  pose proof (calibrate_and_quantize_inv log2 c g Hc)
    as (_ & _ & _ & _ & _ & _ & _ & Hs & He & _).
  assert (H0 : 0 <= shift1 g).
  { unfold shift1_of in Hs. destruct (Py.gt (M1 g) F64.zero).
    - apply bind_Ok in Hs. destruct Hs as [n [_ Hs]]. inversion Hs. lia.
    - inversion Hs. lia. }
  destruct (float_of_int_pow2 (shift1 g) H0) as [Hsmall Hbig].
  assert (H1 : shift1 g <= 1023).
  { destruct (Z_le_gt_dec (shift1 g) 1023) as [|Hgt]; [assumption|exfalso].
    unfold scale_h1_eff_of in He. rewrite (Hbig ltac:(lia)) in He. discriminate. }
  split; [lia|]. split.
  - destruct (Hsmall H1) as (d & Hd & Hf & Hz). exists d.
    split; [exact Hd|]. split; [exact Hf|].
    unfold scale_h1_eff_of in He. rewrite Hd in He. cbn [bind] in He.
    unfold Py.truediv in He. rewrite Hz in He. inversion He. reflexivity.
  - intros acc s Hge. unfold scale_h1_eff_of.
    rewrite (proj2 (float_of_int_pow2 s ltac:(lia)) Hge). reflexivity.
Qed.

Lemma calibrated_shift_range_witness :
  exists g,
    calibrate_and_quantize Ex.ilog2 Ex.calibration = Ok g /\
    0 <= shift1 g <= 1023 /\
    (exists d, Py.float_of_int (2 ^ shift1 g) = Ok d /\ Fp.is_finite d = true /\
               scale_h1_eff g = F64.div (acc1_scale g) d) /\
    (forall acc s, 1024 <= s -> scale_h1_eff_of acc s = Err OverflowError).
Proof.
  destruct (calibrate_and_quantize Ex.ilog2 Ex.calibration) as [g|e] eqn:E;
    [|vm_compute in E; discriminate].
  exists g. split; [reflexivity|].
  apply (calibrated_shift_range Ex.ilog2 Ex.calibration g E).
Defined.

(** ** From calibration to the forward pass *)

Lemma shift1_of_nonneg (log2 : spec_float -> spec_float) (M : spec_float) (s : Z) :
  shift1_of log2 M = Ok s -> 0 <= s.
Proof.
  unfold shift1_of. destruct (Py.gt M F64.zero).
  - intros H. apply bind_Ok in H. destruct H as [n [_ H]]. inversion H. lia.
  - intros H. inversion H. lia.
Qed.

(** A completed calibration has a shift count [float(2**s)] exists for. *)
Lemma calibrated_shift_bound
  (log2 : spec_float -> spec_float) (c : Calibration) (g : Globals) :
  calibrate_and_quantize log2 c = Ok g -> 0 <= shift1 g <= 1023.
Proof.
  intros Hc.
  pose proof (calibrate_and_quantize_inv log2 c g Hc)
    as (_ & _ & _ & _ & _ & _ & _ & Hs & He & _).
  pose proof (shift1_of_nonneg _ _ _ Hs) as H0. split; [exact H0|].
  destruct (Z_le_gt_dec (shift1 g) 1023) as [|Hgt]; [assumption|exfalso].
  unfold scale_h1_eff_of in He.
  rewrite (proj2 (float_of_int_pow2 (shift1 g) H0) ltac:(lia)) in He. discriminate.
Qed.

Lemma quantized_shapes (l : Linear) (a b : spec_float) (Wq : list (list Z)) (bq : list Z)
      (n_out n_in : nat) :
  quantize_linear l a b = (Wq, bq) -> linear_shape l n_out n_in ->
  length Wq = n_out /\ Forall (fun row => length row = n_in) Wq /\ length bq = n_out /\
  Forall is_int8 Wq /\ is_int32 bq.
Proof.
  intros H [L1 [L2 L3]]. apply quantize_linear_inv in H.
  destruct H as [-> ->]. rewrite !length_map.
  split; [exact L1|]. split; [|split; [exact L3|split]].
  - apply Forall_forall. intros q Hq. apply in_map_iff in Hq. destruct Hq as [row [<- Hr]].
    rewrite length_map. rewrite Forall_forall in L2. auto.
  - apply Forall_forall. intros q Hq. apply in_map_iff in Hq. destruct Hq as [row [<- Hr]].
    apply (quant8_int8 (fun w => ratio32 w b)).
  - apply (quant32_int32 (fun v => ratio32 v (F64.mul a b))).
Qed.

Lemma quantized_dtypes (l : Linear) (a b : spec_float) (Wq : list (list Z)) (bq : list Z) :
  quantize_linear l a b = (Wq, bq) -> Forall is_int8 Wq /\ is_int32 bq.
Proof.
  intros H. apply quantize_linear_inv in H. destruct H as [-> ->]. split.
  - apply Forall_forall. intros q Hq. apply in_map_iff in Hq. destruct Hq as [row [<- Hr]].
    apply (quant8_int8 (fun w => ratio32 w b)).
  - apply (quant32_int32 (fun v => ratio32 v (F64.mul a b))).
Qed.

Lemma x0_q_int8 (x0 : list spec_float) (s : spec_float) :
  length (x0_q x0 s) = length x0 /\ is_int8 (x0_q x0 s).
Proof.
  unfold x0_q. rewrite quantize_row_total. split; [apply length_map|].
  apply (quant8_int8 (fun v => ratio32 v s)).
Qed.

Lemma pipeline_pred_bound (g : Globals) (x : list Z) :
  pipeline_ok g x ->
  exists pred acc1 h1 acc2,
    forward_quantized g x = Ok (pred, acc1, h1, acc2) /\
    0 <= pred < Z.of_nat (length (W2_q g)).
Proof.
  intros P. destruct (forward_quantized_run g x P) as [i [Hi Hf]].
  eexists _, _, _, _. split; [exact Hf|].
  apply argmax_first_max in Hi. destruct Hi as [Hi _].
  rewrite affine32_length in Hi by apply (ok_b2_len g x P). lia.
Qed.

Lemma calibrated_pipeline
  (log2 : spec_float -> spec_float) (c : Calibration) (g : Globals)
  (n_in n_h n_out : nat) (x : list Z) :
  calibrate_and_quantize log2 c = Ok g ->
  linear_shape (fc1 c) n_h n_in -> linear_shape (fc2 c) n_out n_h -> (0 < n_out)%nat ->
  is_int8 x -> length x = n_in ->
  pipeline_ok g x /\ length (W1_q g) = n_h /\ length (W2_q g) = n_out.
Proof.
  intros H S1 S2 Hout Hx Lx.
  pose proof (calibrated_shift_bound log2 c g H) as Hs.
  pose proof (calibrate_and_quantize_inv log2 c g H)
    as (_ & _ & _ & _ & Q1 & _ & _ & _ & _ & _ & Q2 & _).
  destruct (quantized_shapes _ _ _ _ _ _ _ Q1 S1) as (A1 & A2 & A3 & A4 & A5).
  destruct (quantized_shapes _ _ _ _ _ _ _ Q2 S2) as (B1 & B2 & B3 & B4 & B5).
  split; [|split; [exact A1|exact B1]].
  constructor; try assumption.
  - change (2 ^ 31) with 2147483648. lia.
  - rewrite Lx. exact A2.
  - congruence.
  - rewrite A1. exact B2.
  - congruence.
  - intros E. rewrite E in B1. simpl in B1. lia.
Qed.

(** What calibration hands to the integer pipeline: int8 weights and
    int32 biases with the shapes of the float layers, and a shift count
    that is not negative and fits in 32 bits.  On an int8 input of the
    right length the forward pass then runs to its end. *)
Theorem calibrated_pipeline_ok
  (log2 : spec_float -> spec_float) (c : Calibration) (g : Globals)
  (n_in n_h n_out : nat) (x : list Z) :
  calibrate_and_quantize log2 c = Ok g ->
  linear_shape (fc1 c) n_h n_in -> linear_shape (fc2 c) n_out n_h -> (0 < n_out)%nat ->
  is_int8 x -> length x = n_in ->
  pipeline_ok g x /\
  length (W1_q g) = n_h /\ length (W2_q g) = n_out /\
  exists pred acc1 h1 acc2,
    forward_quantized g x = Ok (pred, acc1, h1, acc2) /\ 0 <= pred < Z.of_nat n_out.
Proof.
  intros H S1 S2 Hout Hx Lx.
  destruct (calibrated_pipeline log2 c g n_in n_h n_out x H S1 S2 Hout Hx Lx)
    as (P & L1 & L2).
  split; [exact P|]. split; [exact L1|]. split; [exact L2|].
  destruct (pipeline_pred_bound g x P) as (pred & acc1 & h1 & acc2 & Hf & Hp).
  exists pred, acc1, h1, acc2. split; [exact Hf|]. rewrite <- L2. exact Hp.
Qed.

Lemma calibrated_pipeline_ok_witness :
  exists g,
    calibrate_and_quantize Ex.ilog2 Ex.calibration = Ok g /\
    pipeline_ok g [127; 42] /\
    length (W1_q g) = 2%nat /\ length (W2_q g) = 1%nat /\
    exists pred acc1 h1 acc2,
      forward_quantized g [127; 42] = Ok (pred, acc1, h1, acc2) /\ 0 <= pred < Z.of_nat 1.
Proof.
  destruct (calibrate_and_quantize Ex.ilog2 Ex.calibration) as [g|e] eqn:E;
    [|vm_compute in E; discriminate].
  exists g. split; [reflexivity|].
  apply (calibrated_pipeline_ok Ex.ilog2 Ex.calibration g 2 2 1 [127; 42] E).
  - repeat constructor.
  - repeat constructor.
  - lia.
  - repeat (constructor; try (apply in_range8_iff; lia)).
  - reflexivity.
Defined.

(** ** The script, top to bottom *)

Lemma string_of_uint_no_newline (d : Decimal.uint) :
  string_forallb (fun c => negb (Ascii.eqb c "010"%char)) (NilEmpty.string_of_uint d) = true.
Proof. induction d; simpl; auto. Qed.

Lemma format_d_no_newline (n : Z) :
  string_forallb (fun c => negb (Ascii.eqb c "010"%char)) (format_d n) = true.
Proof.
  unfold format_d, NilZero.string_of_int, NilZero.string_of_uint.
  destruct (Z.to_int n) as [d|d]; destruct d; try reflexivity;
    try apply string_of_uint_no_newline;
    cbn [string_forallb]; apply string_of_uint_no_newline.
Qed.

Lemma read_int_format_d (n : Z) : read_int (format_d n ++ Fmt.newline) = Some n.
Proof.
  unfold read_int.
  pose proof (lines_unlines [format_d n]) as L. cbn [unlines] in L.
  rewrite append_nil_r in L. rewrite L.
  - apply format_d_round_trip.
  - constructor; [apply format_d_no_newline | constructor].
Qed.

(** After a completed calibration the forward pass raises nothing but a
    shape error or the IndexError of [argmax]. *)
Lemma calibrated_forward_Err
  (log2 : spec_float -> spec_float) (c : Calibration) (g : Globals) (x : list Z) (e : error) :
  calibrate_and_quantize log2 c = Ok g ->
  forward_quantized g x = Err e -> e = RuntimeError \/ e = IndexError.
Proof.
  intros Hc He. pose proof (calibrated_shift_bound log2 c g Hc) as Hs.
  apply forward_quantized_Err in He.
  destruct He as [He|[He|[_ He]]]; [left; exact He | right; exact He | exfalso].
  apply He. change (2 ^ 63) with 9223372036854775808.
  change (2 ^ 64) with 18446744073709551616. lia.
Qed.

Section ScriptFacts.

Variable log2 : spec_float -> spec_float.
Variable format_float : spec_float -> string.

Lemma script_inv (c : Calibration) (test_ds : Dataset) (fs : Files) :
  script log2 format_float c test_ds = (fs, None) ->
  exists g i img label pred acc1 h1 acc2,
    calibrate_and_quantize log2 c = Ok g /\
    test_idx test_ds = Some i /\
    nth_error test_ds i = Some (img, label) /\
    forward_quantized g (x0_q img (scale_x g)) = Ok (pred, acc1, h1, acc2) /\
    fs = write_text "golden_pred_int32.txt" (format_d pred ++ Fmt.newline)
           (write_text "sample_label.txt" (format_d label ++ Fmt.newline)
              (write_text "sample_input.mem" (save_sample_input (x0_q img (scale_x g)))
                 (save_params format_float g []))).
Proof.
  unfold script. intros H.
  destruct (calibrate_and_quantize log2 c) as [g|e] eqn:E1; [|discriminate].
  destruct (test_idx test_ds) as [i|] eqn:E2; [|discriminate].
  destruct (nth_error test_ds i) as [[img label]|] eqn:E3; [|discriminate].
  cbv zeta in H.
  destruct (forward_quantized g (x0_q img (scale_x g)))
    as [[[[pred acc1] h1] acc2]|e] eqn:E5; [|discriminate].
  injection H as <-. exists g, i, img, label, pred, acc1, h1, acc2.
  split; [reflexivity|]. split; [reflexivity|]. split; [exact E3|].
  split; [exact E5|]. reflexivity.
Qed.

(** A reader of the exported files gets back the integer pipeline and
    the quantized sample the script ran, and the forward pass on what it
    has read gives the digit stored in [golden_pred_int32.txt]. *)
Theorem script_files_replay (c : Calibration) (test_ds : Dataset) (fs : Files) :
  script log2 format_float c test_ds = (fs, None) ->
  exists g x pred acc1 h1 acc2,
    calibrate_and_quantize log2 c = Ok g /\
    option_map read_mem_int8 (read_text fs "W1.mem") = Some (W1_q g) /\
    option_map read_mem_int32 (read_text fs "b1.mem") = Some (b1_q g) /\
    option_map read_mem_int8 (read_text fs "W2.mem") = Some (W2_q g) /\
    option_map read_mem_int32 (read_text fs "b2.mem") = Some (b2_q g) /\
    read_int_file fs "shift1.txt" = Some (shift1 g) /\
    read_int_file fs "shift2.txt" = Some 0 /\
    option_map (fun text => concat (read_mem_int8 text)) (read_text fs "sample_input.mem")
    = Some x /\
    forward_quantized g x = Ok (pred, acc1, h1, acc2) /\
    read_int_file fs "golden_pred_int32.txt" = Some pred.
Proof.
  intros H. apply script_inv in H.
  destruct H as (g & i & img & label & pred & acc1 & h1 & acc2
                 & Hc & Hi & Hn & Hf & ->).
  pose proof (calibrate_and_quantize_inv log2 c g Hc)
    as (_ & _ & _ & _ & Q1 & _ & _ & _ & _ & _ & Q2 & _ & _ & S2).
  destruct (quantized_dtypes _ _ _ _ _ Q1) as [I1 J1].
  destruct (quantized_dtypes _ _ _ _ _ Q2) as [I2 J2].
  destruct (x0_q_int8 img (scale_x g)) as [_ Ix].
  exists g, (x0_q img (scale_x g)), pred, acc1, h1, acc2.
  split; [exact Hc|].
  unfold read_int_file, save_params, write_text. cbn [read_text String.eqb Ascii.eqb Bool.eqb option_map].
  split; [f_equal; rewrite read_save_mem_int8; apply wrap8_id_matrix; exact I1|].
  split; [f_equal; rewrite read_save_mem_int32; apply wrap32_id_list; exact J1|].
  split; [f_equal; rewrite read_save_mem_int8; apply wrap8_id_matrix; exact I2|].
  split; [f_equal; rewrite read_save_mem_int32; apply wrap32_id_list; exact J2|].
  split; [apply read_int_format_d|].
  split; [rewrite S2; apply read_int_format_d|].
  split; [f_equal; rewrite read_save_sample_input; apply wrap_id_list; exact Ix|].
  split; [exact Hf|].
  apply read_int_format_d.
Qed.

(** How the script can stop, and what it has written by then: nothing
    when calibration raises; the nine parameter files when the test set
    is empty and [test_ds[0]] raises IndexError; the two sample files as
    well when the forward pass raises, which is a shape error or the
    IndexError of [argmax].  The quantization of the layers and of the
    sample never stops it. *)
Theorem script_failure (c : Calibration) (test_ds : Dataset) (fs : Files) (ex : error) :
  script log2 format_float c test_ds = (fs, Some ex) ->
  (calibrate_and_quantize log2 c = Err ex /\ fs = []) \/
  (exists g, calibrate_and_quantize log2 c = Ok g /\
             fs = save_params format_float g [] /\
             written fs = ["scale_x.txt"; "scale_w1.txt"; "scale_w2.txt"; "shift1.txt";
                           "shift2.txt"; "W1.mem"; "b1.mem"; "W2.mem"; "b2.mem"]%string /\
             ex = IndexError /\ test_ds = []) \/
  (exists g img, calibrate_and_quantize log2 c = Ok g /\
             written fs = ["scale_x.txt"; "scale_w1.txt"; "scale_w2.txt"; "shift1.txt";
                           "shift2.txt"; "W1.mem"; "b1.mem"; "W2.mem"; "b2.mem";
                           "sample_input.mem"; "sample_label.txt"]%string /\
             read_text fs "sample_input.mem"
             = Some (save_sample_input (x0_q img (scale_x g))) /\
             forward_quantized g (x0_q img (scale_x g)) = Err ex /\
             (ex = RuntimeError \/ ex = IndexError) /\ test_ds <> []).
Proof.
  unfold script. intros H.
  destruct (calibrate_and_quantize log2 c) as [g|e] eqn:Hc.
  2:{ left. inversion H. split; reflexivity. }
  right.
  destruct (test_idx_some test_ds) as [i [Hi Hcase]]. rewrite Hi in H.
  destruct (nth_error test_ds i) as [[img label]|] eqn:Hn.
  2:{ left. exists g. inversion H. split; [reflexivity|]. split; [reflexivity|].
      split; [reflexivity|]. split; [reflexivity|].
      apply nth_error_None in Hn. destruct Hcase as [Hlt| ->]; [lia|].
      destruct test_ds; [reflexivity|simpl in Hn; lia]. }
  assert (Hne : test_ds <> []).
  { intros ->. destruct i; discriminate Hn. }
  cbv zeta in H.
  destruct (forward_quantized g (x0_q img (scale_x g)))
    as [[[[pred acc1] h1] acc2]|e] eqn:Hf; [discriminate|].
  right. exists g, img. inversion H; subst e fs.
  split; [reflexivity|]. split; [reflexivity|]. split; [reflexivity|].
  split; [exact Hf|]. split; [|exact Hne].
  exact (calibrated_forward_Err log2 c g _ _ Hc Hf).
Qed.

(** With float layers of matching shapes and a non-empty test set of
    images of the input size, the script runs to its end once
    calibration has succeeded, whatever the pixels: it writes the twelve
    files, and the golden prediction is a class index. *)
Theorem script_succeeds
  (c : Calibration) (test_ds : Dataset) (g : Globals) (n_in n_h n_out : nat) :
  calibrate_and_quantize log2 c = Ok g ->
  linear_shape (fc1 c) n_h n_in -> linear_shape (fc2 c) n_out n_h -> (0 < n_out)%nat ->
  test_ds <> [] ->
  Forall (fun s => length (fst s) = n_in) test_ds ->
  exists fs pred,
    script log2 format_float c test_ds = (fs, None) /\
    written fs = ["scale_x.txt"; "scale_w1.txt"; "scale_w2.txt"; "shift1.txt";
                  "shift2.txt"; "W1.mem"; "b1.mem"; "W2.mem"; "b2.mem";
                  "sample_input.mem"; "sample_label.txt";
                  "golden_pred_int32.txt"]%string /\
    read_int_file fs "golden_pred_int32.txt" = Some pred /\
    0 <= pred < Z.of_nat n_out.
Proof.
  intros Hc S1 S2 Hout Hne Hds.
  destruct (test_idx_some test_ds) as [i [Hi Hcase]].
  assert (Hlt : (i < length test_ds)%nat).
  { destruct Hcase as [Hlt| ->]; [exact Hlt|].
    destruct test_ds; [congruence|simpl; lia]. }
  destruct (nth_error test_ds i) as [[img label]|] eqn:Hn.
  2:{ apply nth_error_None in Hn. lia. }
  assert (Hin : In (img, label) test_ds) by (eapply nth_error_In; exact Hn).
  rewrite Forall_forall in Hds. pose proof (Hds _ Hin) as Limg. simpl in Limg.
  destruct (x0_q_int8 img (scale_x g)) as [Lx Ix].
  destruct (calibrated_pipeline log2 c g n_in n_h n_out _ Hc S1 S2 Hout Ix)
    as (P & _ & L2).
  { congruence. }
  destruct (pipeline_pred_bound g _ P) as (pred & acc1 & h1 & acc2 & Hf & Hp).
  rewrite L2 in Hp.
  unfold script. rewrite Hc, Hi, Hn. cbv zeta. rewrite Hf.
  eexists _, pred. split; [reflexivity|]. split; [reflexivity|].
  split; [|exact Hp].
  unfold read_int_file, write_text. cbn [read_text String.eqb Ascii.eqb Bool.eqb].
  apply read_int_format_d.
Qed.

End ScriptFacts.

Lemma script_files_replay_witness :
  exists fs g x pred acc1 h1 acc2,
    script Ex.ilog2 Ex.format_float Ex.calibration Ex.test_ds = (fs, None) /\
    calibrate_and_quantize Ex.ilog2 Ex.calibration = Ok g /\
    option_map read_mem_int8 (read_text fs "W1.mem") = Some (W1_q g) /\
    option_map read_mem_int32 (read_text fs "b1.mem") = Some (b1_q g) /\
    option_map read_mem_int8 (read_text fs "W2.mem") = Some (W2_q g) /\
    option_map read_mem_int32 (read_text fs "b2.mem") = Some (b2_q g) /\
    read_int_file fs "shift1.txt" = Some (shift1 g) /\
    read_int_file fs "shift2.txt" = Some 0 /\
    option_map (fun text => concat (read_mem_int8 text)) (read_text fs "sample_input.mem")
    = Some x /\
    forward_quantized g x = Ok (pred, acc1, h1, acc2) /\
    read_int_file fs "golden_pred_int32.txt" = Some pred.
Proof.
  destruct (script Ex.ilog2 Ex.format_float Ex.calibration Ex.test_ds) as [fs o] eqn:E.
  assert (O : o = None) by (vm_compute in E; inversion E; reflexivity).
  subst o. exists fs.
  destruct (script_files_replay Ex.ilog2 Ex.format_float Ex.calibration Ex.test_ds fs E)
    as (g & x & pred & acc1 & h1 & acc2 & H).
  exists g, x, pred, acc1, h1, acc2. split; [reflexivity|exact H].
Defined.

Lemma script_failure_witness :
  exists fs,
    script Ex.ilog2 Ex.format_float Ex.calibration [] = (fs, Some IndexError) /\
    written fs = ["scale_x.txt"; "scale_w1.txt"; "scale_w2.txt"; "shift1.txt";
                  "shift2.txt"; "W1.mem"; "b1.mem"; "W2.mem"; "b2.mem"]%string.
Proof.
  destruct (script Ex.ilog2 Ex.format_float Ex.calibration []) as [fs o] eqn:E.
  assert (O : o = Some IndexError) by (vm_compute in E; inversion E; reflexivity).
  subst o. exists fs. split; [reflexivity|].
  destruct (script_failure Ex.ilog2 Ex.format_float Ex.calibration [] fs IndexError E)
    as [(H & _)|[(g & _ & _ & H & _)|(g & img & _ & _ & _ & _ & _ & H)]].
  - vm_compute in H. discriminate H.
  - exact H.
  - exfalso. apply H. reflexivity.
Defined.

Lemma script_succeeds_witness :
  exists fs pred,
    script Ex.ilog2 Ex.format_float Ex.calibration Ex.test_ds = (fs, None) /\
    written fs = ["scale_x.txt"; "scale_w1.txt"; "scale_w2.txt"; "shift1.txt";
                  "shift2.txt"; "W1.mem"; "b1.mem"; "W2.mem"; "b2.mem";
                  "sample_input.mem"; "sample_label.txt";
                  "golden_pred_int32.txt"]%string /\
    read_int_file fs "golden_pred_int32.txt" = Some pred /\
    0 <= pred < Z.of_nat 1.
Proof.
  destruct (calibrate_and_quantize Ex.ilog2 Ex.calibration) as [g|e] eqn:E;
    [|vm_compute in E; discriminate].
  apply (script_succeeds Ex.ilog2 Ex.format_float Ex.calibration Ex.test_ds g 2 2 1 E).
  - repeat constructor.
  - repeat constructor.
  - lia.
  - discriminate.
  - repeat constructor.
Defined.

(** A NaN pixel does not stop the script: its byte is 0. *)
Lemma script_nan_pixel :
  exists fs,
    script Ex.ilog2 Ex.format_float Ex.calibration [([S754_nan; Ex.half], 3)] = (fs, None) /\
    option_map (fun text => concat (read_mem_int8 text)) (read_text fs "sample_input.mem")
    = Some [0; 42].
Proof. eexists. split; vm_compute; reflexivity. Qed.

(** ** Signs *)

Lemma shl_align_roundable (prec emax : Z) (m : positive) (e : Z) :
  let '(mz, ez) := shl_align m e (fexp prec emax (Zpos (digits2_pos m) + e)) in
  ez <= fexp prec emax (Zdigits2 (Zpos mz) + ez) /\
  Zdigits2 (Zpos mz) + ez = Zdigits2 (Zpos m) + e /\
  Zpos mz * 2 ^ (ez - Z.min e ez) = Zpos m * 2 ^ (e - Z.min e ez) /\ ez <= e.
Proof.
  unfold shl_align.
  set (e' := fexp prec emax (Zpos (digits2_pos m) + e)).
  assert (Ee' : fexp prec emax (Zdigits2 (Zpos m) + e) = e') by reflexivity.
  destruct (e' - e) as [|d|d] eqn:Ed.
  - rewrite Ee'. rewrite Z.min_id, Z.sub_diag. lia.
  - rewrite Ee'. rewrite Z.min_id, Z.sub_diag. lia.
  - assert (Hm : Zpos (Pos.iter xO m d) = Zpos m * 2 ^ (e - e')).
    { rewrite iter_xO_pow2. f_equal. f_equal. lia. }
    rewrite Hm, Zdigits2_mul_pow2 by lia.
    replace (Zdigits2 (Zpos m) + (e - e') + e') with (Zdigits2 (Zpos m) + e) by lia.
    rewrite Ee'. rewrite Z.min_r by lia. rewrite Z.sub_diag, Z.mul_1_r. lia.
Qed.

Lemma binary_round_class (prec emax : Z) (s : bool) (m : positive) (e : Z) :
  0 < prec ->
  binary_round prec emax s m e = S754_zero s \/
  binary_round prec emax s m e = S754_infinity s \/
  exists m' e', binary_round prec emax s m e = S754_finite s m' e'.
Proof.
  intros Hp. unfold binary_round.
  pose proof (shl_align_roundable prec emax m e) as H.
  destruct (shl_align m e (fexp prec emax (Zpos (digits2_pos m) + e))) as [mz ez].
  destruct H as [H _]. apply binary_round_aux_class; [assumption|lia|assumption].
Qed.

Lemma convert_nonneg (prec emax : Z) (x : spec_float) :
  0 < prec -> nonneg x = true -> nonneg (Fp.convert prec emax x) = true.
Proof.
  intros Hp H. destruct x as [s|s| |s m e]; try exact H.
  destruct s; [discriminate|]. unfold Fp.convert, binary_normalize. cbn [cond_Zopp].
  destruct (binary_round_class prec emax false m e Hp) as [E|[E|[m' [e' E]]]];
    rewrite E; reflexivity.
Qed.

Lemma SFdiv_nonneg (prec emax : Z) (x y : spec_float) :
  0 < prec -> nonneg x = true -> nonneg y = true ->
  Fp.is_nan (SFdiv prec emax x y) = false -> nonneg (SFdiv prec emax x y) = true.
Proof.
  intros Hp Hx Hy.
  destruct x as [sx|sx| |sx mx ex]; try discriminate Hx;
    destruct y as [sy|sy| |sy my ey]; try discriminate Hy;
    simpl in Hx, Hy; apply negb_true_iff in Hx, Hy; subst sx sy;
    try (intros; reflexivity); try (intros N; discriminate N).
  intros _.
  destruct (SFdiv_class prec emax false false mx my ex ey Hp) as [E|[E|[m [e E]]]];
    rewrite E; reflexivity.
Qed.

Lemma rint_Z_nonneg (x : spec_float) : nonneg x = true -> 0 <= Fp.rint_Z x.
Proof.
  destruct x as [s|s| |s m e]; cbn [Fp.rint_Z nonneg]; try lia.
  intros H. apply negb_true_iff in H. subst s. cbn [cond_Zopp].
  destruct (Z.leb_spec 0 e) as [He|He].
  - apply Z.mul_nonneg_nonneg; [lia|]. apply Z.pow_nonneg. lia.
  - apply (rne_div_spec (Zpos m) (2 ^ (- e))); [apply Z.pow_pos_nonneg; lia|lia].
Qed.

Lemma quant8_nonneg (r : spec_float) : nonneg r = true -> 0 <= quant8 r <= 127.
Proof.
  intros H. pose proof (quant8_range r) as R. split; [|lia].
  destruct r as [s|s| |s m e] eqn:E; try discriminate H.
  - simpl. unfold sat8. simpl. lia.
  - simpl in H. apply negb_true_iff in H. subst s. simpl. lia.
  - rewrite <- E in *. assert (0 <= Fp.rint_Z r) by (apply rint_Z_nonneg; exact H).
    rewrite E. cbn [quant8]. rewrite <- E. unfold sat8. lia.
Qed.

(** Pixels that are not negative, quantized with a scale that is not
    negative, give bytes from 0 to 127. *)
Theorem x0_q_nonneg (x0 : list spec_float) (scale_x : spec_float) :
  Forall (fun v => nonneg v = true) x0 -> nonneg scale_x = true ->
  Forall (fun n => 0 <= n <= 127) (x0_q x0 scale_x).
Proof.
  intros Fx Hs. unfold x0_q. rewrite quantize_row_total.
  apply Forall_forall. intros n Hn. apply in_map_iff in Hn. destruct Hn as [v [<- Hv]].
  destruct (Fp.is_nan (ratio32 v scale_x)) eqn:N.
  - destruct (ratio32 v scale_x); try discriminate N. simpl. lia.
  - apply quant8_nonneg. unfold ratio32, F32.div in *. apply SFdiv_nonneg.
    + reflexivity.
    + rewrite Forall_forall in Fx. auto.
    + apply convert_nonneg; [reflexivity|exact Hs].
    + exact N.
Qed.

Lemma x0_q_nonneg_witness :
  Forall (fun n => 0 <= n <= 127)
         (x0_q [Ex.one_and_three_quarters; Ex.half; Ex.thousand] Ex.seven_tenths).
Proof.
  apply (x0_q_nonneg [Ex.one_and_three_quarters; Ex.half; Ex.thousand] Ex.seven_tenths).
  - repeat constructor.
  - reflexivity.
Defined.

(** ** Binary floating point: the error of one rounding *)

Ltac hide_pow2Q :=
  repeat match goal with
         | |- context [Fp.pow2Q ?e] =>
             let p := fresh "p" in set (p := Fp.pow2Q e) in *; clearbody p
         | H : context [Fp.pow2Q ?e] |- _ =>
             let p := fresh "p" in set (p := Fp.pow2Q e) in *; clearbody p
         end.

Lemma pow2Q_le_mono (a b : Z) : a <= b -> (Fp.pow2Q a <= Fp.pow2Q b)%Q.
Proof.
  intros H. replace b with (a + (b - a)) by lia. rewrite pow2Q_add.
  rewrite (pow2Q_inject (b - a)) by lia.
  pose proof (pow2Q_pos a) as Pa.
  assert (1 <= inject_Z (2 ^ (b - a)))%Q.
  { change 1%Q with (inject_Z 1). rewrite <- Zle_Qle.
    pose proof (Z.pow_pos_nonneg 2 (b - a)). lia. }
  nra.
Qed.

Lemma pow2Q_lt_inv (a b : Z) : (Fp.pow2Q a < Fp.pow2Q b)%Q -> a < b.
Proof.
  intros H. destruct (Z_lt_le_dec a b) as [|Hle]; [assumption|exfalso].
  apply pow2Q_le_mono in Hle. lra.
Qed.

Section Error.

Variables prec emax : Z.
Hypothesis Hprec : 1 < prec.
Hypothesis Hemax : prec < emax.

(** The rounded value is within one unit of the last place of the value
    it rounds. *)
Lemma binary_round_aux_error (sx : bool) (mx ex : Z) (lx : location) (X : Q) :
  0 <= mx -> ex <= fexp prec emax (Zdigits2 mx + ex) ->
  (inject_Z mx * Fp.pow2Q ex <= X)%Q -> (X < inject_Z (mx + 1) * Fp.pow2Q ex)%Q ->
  let d := Zdigits2 mx + ex in
  exists m3 e3,
    binary_round_aux prec emax sx mx ex lx
    = match m3 with
      | Z0 => S754_zero sx
      | Zpos m => if e3 <=? emax - prec then S754_finite sx m e3 else S754_infinity sx
      | Zneg _ => S754_nan
      end /\
    0 <= m3 /\ e3 <= fexp prec emax d + 1 /\
    (Qabs (inject_Z m3 * Fp.pow2Q e3 - X) <= Fp.pow2Q (fexp prec emax d))%Q /\
    (X < Fp.pow2Q d)%Q /\
    (0 < mx -> (Fp.pow2Q (d - 1) <= X)%Q) /\
    (mx = 0 -> d <= emin prec emax).
Proof.
  intros Hm Hk Hlo Hhi d.
  destruct (binary_round_aux_bracket prec emax ltac:(lia) sx mx ex lx Hm Hk)
    as (m3 & e3 & E & H0 & Sh & He & Hv).
  fold d in He, Hv. set (e1 := fexp prec emax d) in *.
  exists m3, e3. split; [exact E|]. split; [exact H0|]. split; [lia|].
  set (k := e1 - ex) in *.
  assert (Hk0 : 0 <= k) by (unfold k, e1, d; lia).
  set (T := mx / 2 ^ k) in *.
  assert (P2 : 0 < 2 ^ k) by (apply Z.pow_pos_nonneg; lia).
  assert (HT : T * 2 ^ k <= mx < (T + 1) * 2 ^ k).
  { unfold T. pose proof (Z.div_mod mx (2 ^ k) ltac:(lia)) as DM.
    pose proof (Z.mod_pos_bound mx (2 ^ k) P2) as MB. nia. }
  assert (EY : (inject_Z m3 * Fp.pow2Q e3
                == inject_Z (m3 * 2 ^ (e3 - e1)) * Fp.pow2Q e1)%Q).
  { rewrite <- (pow2Q_shift m3 (e3 - e1) e3) by lia.
    replace (e3 - (e3 - e1)) with e1 by lia. reflexivity. }
  assert (ET : forall n, (inject_Z n * Fp.pow2Q e1 == inject_Z (n * 2 ^ k) * Fp.pow2Q ex)%Q).
  { intros n. rewrite <- (pow2Q_shift n k e1) by lia.
    replace (e1 - k) with ex by (unfold k; lia). reflexivity. }
  pose proof (pow2Q_pos ex) as Pex. pose proof (pow2Q_pos e1) as Pe1.
  assert (L1 : (inject_Z T * Fp.pow2Q e1 <= X)%Q).
  { rewrite ET. eapply Qle_trans; [|exact Hlo].
    apply Qmult_le_compat_r; [|lra]. rewrite <- Zle_Qle. lia. }
  assert (L2 : (X < inject_Z (T + 1) * Fp.pow2Q e1)%Q).
  { rewrite ET. eapply Qlt_le_trans; [exact Hhi|].
    apply Qmult_le_compat_r; [|lra]. rewrite <- Zle_Qle. lia. }
  split.
  { rewrite EY. rewrite inject_Z_plus in L2. change (inject_Z 1) with 1%Q in L2.
    apply Qabs_Qle_condition.
    destruct Hv as [Hv|Hv]; rewrite Hv.
    - split; lra.
    - rewrite inject_Z_plus. change (inject_Z 1) with 1%Q. split; lra. }
  assert (Dz : mx = 0 -> d <= emin prec emax).
  { intros Z0. unfold d in *. rewrite Z0 in *. simpl Zdigits2 in *.
    unfold fexp in Hk. lia. }
  split; [|split; [|exact Dz]].
  - eapply Qlt_le_trans; [exact Hhi|].
    unfold d. rewrite pow2Q_add. apply Qmult_le_compat_r; [|lra].
    rewrite pow2Q_inject by apply Zdigits2_nonneg. rewrite <- Zle_Qle.
    destruct (Z.eq_dec mx 0) as [->|Hne]; [simpl; lia|].
    pose proof (Zdigits2_bounds mx ltac:(lia)). lia.
  - intros Hpos. eapply Qle_trans; [|exact Hlo].
    unfold d. replace (Zdigits2 mx + ex - 1) with ((Zdigits2 mx - 1) + ex) by lia.
    rewrite pow2Q_add. apply Qmult_le_compat_r; [|lra].
    pose proof (Zdigits2_pos mx Hpos).
    rewrite pow2Q_inject by lia. rewrite <- Zle_Qle.
    pose proof (Zdigits2_bounds mx Hpos). lia.
Qed.

(** In the normal range the relative error is at most [2^(1-prec)]. *)
Lemma binary_round_aux_normal (sx : bool) (mx ex : Z) (lx : location) (X : Q) :
  0 <= mx -> ex <= fexp prec emax (Zdigits2 mx + ex) ->
  (inject_Z mx * Fp.pow2Q ex <= X)%Q -> (X < inject_Z (mx + 1) * Fp.pow2Q ex)%Q ->
  (Fp.pow2Q (emin prec emax + prec - 1) <= X)%Q -> (X < Fp.pow2Q (emax - 1))%Q ->
  exists m e,
    binary_round_aux prec emax sx mx ex lx = S754_finite sx m e /\
    (Qabs (inject_Z (Zpos m) * Fp.pow2Q e - X) <= X * Fp.pow2Q (1 - prec))%Q.
Proof.
  intros Hm Hk Hlo Hhi Hn Hu.
  destruct (binary_round_aux_error sx mx ex lx X Hm Hk Hlo Hhi)
    as (m3 & e3 & E & H0 & He & Hv & Hd & Hp & Hz).
  set (d := Zdigits2 mx + ex) in *.
  assert (D1 : emin prec emax + prec - 1 < d).
  { apply pow2Q_lt_inv. hide_pow2Q. lra. }
  assert (Hpos : 0 < mx).
  { destruct (Z.eq_dec mx 0) as [Z0|]; [specialize (Hz Z0); lia|lia]. }
  specialize (Hp Hpos).
  assert (D2 : d - 1 < emax - 1).
  { apply pow2Q_lt_inv. hide_pow2Q. lra. }
  assert (F : fexp prec emax d = d - prec) by (unfold fexp; lia).
  rewrite F in *.
  assert (B : (Fp.pow2Q (d - prec) <= X * Fp.pow2Q (1 - prec))%Q).
  { replace (d - prec) with ((d - 1) + (1 - prec)) by lia. rewrite pow2Q_add.
    apply Qmult_le_compat_r; [exact Hp|]. pose proof (pow2Q_pos (1 - prec)). lra. }
  assert (Xpos : (0 < X)%Q).
  { pose proof (pow2Q_pos (d - 1)). lra. }
  assert (Small : (Fp.pow2Q (1 - prec) <= 1 # 2)%Q).
  { eapply Qle_trans; [apply (pow2Q_le_mono (1 - prec) (-1)); lia|]. 
    apply Qle_bool_iff. reflexivity. }
  destruct m3 as [|m|m]; [|clear H0|lia].
  - exfalso. rewrite Qmult_0_l in Hv.
    apply Qabs_Qle_condition in Hv. nra.
  - replace (e3 <=? emax - prec) with true in E by (symmetry; apply Z.leb_le; lia).
    exists m, e3. split; [exact E|]. lra.
Qed.

(** Outside it the error is at most the smallest positive float. *)
Lemma binary_round_aux_small (sx : bool) (mx ex : Z) (lx : location) (X : Q) :
  0 <= mx -> ex <= fexp prec emax (Zdigits2 mx + ex) ->
  (inject_Z mx * Fp.pow2Q ex <= X)%Q -> (X < inject_Z (mx + 1) * Fp.pow2Q ex)%Q ->
  (X < Fp.pow2Q (emax - 1))%Q ->
  exists r,
    binary_round_aux prec emax sx mx ex lx = r /\
    (r = S754_zero sx \/ exists m e, r = S754_finite sx m e) /\
    ((Qabs (Qabs (Fp.SF2Q r) - X) <= X * Fp.pow2Q (1 - prec))%Q \/
     (Qabs (Qabs (Fp.SF2Q r) - X) <= Fp.pow2Q (emin prec emax))%Q).
Proof.
  intros Hm Hk Hlo Hhi Hu.
  destruct (binary_round_aux_error sx mx ex lx X Hm Hk Hlo Hhi)
    as (m3 & e3 & E & H0 & He & Hv & Hd & Hp & Hz).
  set (d := Zdigits2 mx + ex) in *.
  eexists. split; [reflexivity|]. rewrite E.
  assert (Fin : m3 <> 0 -> e3 <= emax - prec).
  { intros Hne. destruct (Z_le_gt_dec (emin prec emax) (d - prec)) as [Hn|Hn].
    - assert (Hpos : 0 < mx).
      { destruct (Z.eq_dec mx 0) as [Z0|]; [specialize (Hz Z0); lia|lia]. }
      specialize (Hp Hpos).
      assert (D2 : d - 1 < emax - 1) by (apply pow2Q_lt_inv; hide_pow2Q; lra).
      unfold fexp in He. lia.
    - unfold fexp, emin in *. lia. }
  assert (Val : (Qabs (inject_Z m3 * Fp.pow2Q e3 - X) <= X * Fp.pow2Q (1 - prec))%Q \/
                (Qabs (inject_Z m3 * Fp.pow2Q e3 - X) <= Fp.pow2Q (emin prec emax))%Q).
  { destruct (Z_le_gt_dec (emin prec emax) (d - prec)) as [Hn|Hn].
    - left.
      assert (Hpos : 0 < mx).
      { destruct (Z.eq_dec mx 0) as [Z0|]; [specialize (Hz Z0); lia|lia]. }
      specialize (Hp Hpos).
      assert (F : fexp prec emax d = d - prec) by (unfold fexp; lia).
      rewrite F in Hv. eapply Qle_trans; [exact Hv|].
      replace (d - prec) with ((d - 1) + (1 - prec)) by lia. rewrite pow2Q_add.
      apply Qmult_le_compat_r; [exact Hp|]. pose proof (pow2Q_pos (1 - prec)). lra.
    - right. assert (F : fexp prec emax d = emin prec emax) by (unfold fexp; lia).
      rewrite F in Hv. exact Hv. }
  destruct m3 as [|m|m]; [| |lia].
  - split; [left; reflexivity|]. cbn [Fp.SF2Q]. rewrite Qmult_0_l in Val. exact Val.
  - replace (e3 <=? emax - prec) with true
      by (symmetry; apply Z.leb_le; apply Fin; lia).
    split; [right; eauto|].
    assert (A : (Qabs (Fp.SF2Q (S754_finite sx m e3)) == inject_Z (Zpos m) * Fp.pow2Q e3)%Q).
    { cbn [Fp.SF2Q]. rewrite Qabs_Qmult. rewrite (Qabs_pos (Fp.pow2Q e3))
        by (pose proof (pow2Q_pos e3); lra).
      apply Qmult_comp; [|reflexivity].
      destruct sx; cbn [cond_Zopp]; [rewrite inject_Z_opp, Qabs_opp|];
        apply Qabs_pos; rewrite <- (Zle_Qle 0); lia. }
    rewrite A. exact Val.
Qed.

End Error.

Lemma SFdiv_core_binary_quotient (prec emax : Z) (mx my : positive) (ex ey q e' : Z)
      (l : location) :
  SFdiv_core_binary prec emax (Zpos mx) ex (Zpos my) ey = (q, e', l) ->
  0 <= ex - ey - e' /\ q = (Zpos mx * 2 ^ (ex - ey - e')) / Zpos my.
Proof.
  unfold SFdiv_core_binary.
  set (D := Zdigits2 (Zpos mx) + ex - (Zdigits2 (Zpos my) + ey)).
  set (e0 := Z.min (fexp prec emax D) (ex - ey)).
  remember (ex - ey - e0) as s eqn:Es.
  assert (Hs : 0 <= s) by (subst s e0; lia).
  set (m' := match s with Z.pos _ => Z.shiftl (Zpos mx) s | 0 => Zpos mx | Z.neg _ => 0 end).
  assert (Hm' : m' = Zpos mx * 2 ^ s).
  { subst m'. clear Es. destruct s as [|p|p]; try lia.
    apply Z.shiftl_mul_pow2; lia. }
  rewrite div_eucl_div_mod. intros H. inversion H. subst e'. rewrite <- Es.
  split; [exact Hs|]. rewrite Hm'. reflexivity.
Qed.

Lemma SFdiv_core_binary_bracket (prec emax : Z) (mx my : positive) (ex ey q e' : Z)
      (l : location) :
  SFdiv_core_binary prec emax (Zpos mx) ex (Zpos my) ey = (q, e', l) ->
  (inject_Z q * Fp.pow2Q e' <= Qquot mx my ex ey)%Q /\
  (Qquot mx my ex ey < inject_Z (q + 1) * Fp.pow2Q e')%Q.
Proof.
  intros H. apply SFdiv_core_binary_quotient in H. destruct H as [Hs Hq].
  set (s := ex - ey - e') in *.
  assert (P2 : 0 < 2 ^ s) by (apply Z.pow_pos_nonneg; lia).
  pose proof (Z.div_mod (Zpos mx * 2 ^ s) (Zpos my) ltac:(lia)) as DM.
  pose proof (Z.mod_pos_bound (Zpos mx * 2 ^ s) (Zpos my) ltac:(lia)) as MB.
  rewrite <- Hq in DM.
  assert (B1 : q * Zpos my <= Zpos mx * 2 ^ s) by lia.
  assert (B2 : Zpos mx * 2 ^ s < (q + 1) * Zpos my) by lia.
  assert (EN : (inject_Z (Zpos mx) * Fp.pow2Q ex
                == inject_Z (Zpos mx * 2 ^ s) * (Fp.pow2Q e' * Fp.pow2Q ey))%Q).
  { rewrite <- pow2Q_add. rewrite <- (pow2Q_shift (Zpos mx) s ex) by lia.
    replace (ex - s) with (e' + ey) by (unfold s; lia). reflexivity. }
  pose proof (pow2Q_pos e') as Pe. pose proof (pow2Q_pos ey) as Py.
  assert (My : (0 < inject_Z (Zpos my))%Q) by (rewrite <- (Zlt_Qlt 0); lia).
  assert (Dp : (0 < inject_Z (Zpos my) * Fp.pow2Q ey)%Q) by (apply Qmult_lt_0_compat; assumption).
  assert (Q1 : (inject_Z q * inject_Z (Zpos my) <= inject_Z (Zpos mx * 2 ^ s))%Q)
    by (rewrite <- inject_Z_mult, <- Zle_Qle; exact B1).
  assert (Q2 : (inject_Z (Zpos mx * 2 ^ s) < inject_Z (q + 1) * inject_Z (Zpos my))%Q)
    by (rewrite <- inject_Z_mult, <- Zlt_Qlt; exact B2).
  unfold Qquot. split.
  - apply Qle_shift_div_l; [exact Dp|]. rewrite EN.
    set (a := inject_Z (Zpos mx * 2 ^ s)) in *. hide_pow2Q.
    assert (0 < p * p0)%Q by (apply Qmult_lt_0_compat; assumption).
    assert (inject_Z q * inject_Z (Zpos my) * (p * p0) <= a * (p * p0))%Q
      by (apply Qmult_le_compat_r; lra).
    lra.
  - apply Qlt_shift_div_r; [exact Dp|]. rewrite EN.
    set (a := inject_Z (Zpos mx * 2 ^ s)) in *. hide_pow2Q.
    assert (0 < p * p0)%Q by (apply Qmult_lt_0_compat; assumption).
    assert (a * (p * p0) < inject_Z (q + 1) * inject_Z (Zpos my) * (p * p0))%Q
      by (apply Qmult_lt_compat_r; lra).
    lra.
Qed.

Section ErrorOps.

Variables prec emax : Z.
Hypothesis Hprec : 1 < prec.
Hypothesis Hemax : prec < emax.

Lemma SFdiv_normal (sx sy : bool) (mx my : positive) (ex ey : Z) :
  (Fp.pow2Q (emin prec emax + prec - 1) <= Qquot mx my ex ey)%Q ->
  (Qquot mx my ex ey < Fp.pow2Q (emax - 1))%Q ->
  exists m e,
    SFdiv prec emax (S754_finite sx mx ex) (S754_finite sy my ey)
    = S754_finite (xorb sx sy) m e /\
    (Qabs (inject_Z (Zpos m) * Fp.pow2Q e - Qquot mx my ex ey)
     <= Qquot mx my ex ey * Fp.pow2Q (1 - prec))%Q.
Proof.
  intros Hn Hu. unfold SFdiv.
  destruct (SFdiv_core_binary prec emax (Zpos mx) ex (Zpos my) ey) as [[q e'] l] eqn:E.
  destruct (SFdiv_core_binary_roundable prec emax _ _ _ _ _ _ _ E) as [Hq He].
  destruct (SFdiv_core_binary_bracket prec emax _ _ _ _ _ _ _ E) as [B1 B2].
  apply binary_round_aux_normal; assumption.
Qed.

Lemma SFdiv_small (sx sy : bool) (mx my : positive) (ex ey : Z) :
  (Qquot mx my ex ey < Fp.pow2Q (emax - 1))%Q ->
  let r := SFdiv prec emax (S754_finite sx mx ex) (S754_finite sy my ey) in
  (r = S754_zero (xorb sx sy) \/ exists m e, r = S754_finite (xorb sx sy) m e) /\
  ((Qabs (Qabs (Fp.SF2Q r) - Qquot mx my ex ey)
    <= Qquot mx my ex ey * Fp.pow2Q (1 - prec))%Q \/
   (Qabs (Qabs (Fp.SF2Q r) - Qquot mx my ex ey) <= Fp.pow2Q (emin prec emax))%Q).
Proof.
  intros Hu. unfold SFdiv.
  destruct (SFdiv_core_binary prec emax (Zpos mx) ex (Zpos my) ey) as [[q e'] l] eqn:E.
  destruct (SFdiv_core_binary_roundable prec emax _ _ _ _ _ _ _ E) as [Hq He].
  destruct (SFdiv_core_binary_bracket prec emax _ _ _ _ _ _ _ E) as [B1 B2].
  destruct (binary_round_aux_small prec emax Hprec Hemax (xorb sx sy) q e' l _
              Hq He B1 B2 Hu) as (r & Er & Hc & Hv).
  cbv zeta. rewrite Er. split; assumption.
Qed.

Lemma convert_normal (s : bool) (m : positive) (e : Z) :
  (Fp.pow2Q (emin prec emax + prec - 1) <= inject_Z (Zpos m) * Fp.pow2Q e)%Q ->
  (inject_Z (Zpos m) * Fp.pow2Q e < Fp.pow2Q (emax - 1))%Q ->
  exists m' e',
    Fp.convert prec emax (S754_finite s m e) = S754_finite s m' e' /\
    (Qabs (inject_Z (Zpos m') * Fp.pow2Q e' - inject_Z (Zpos m) * Fp.pow2Q e)
     <= inject_Z (Zpos m) * Fp.pow2Q e * Fp.pow2Q (1 - prec))%Q.
Proof.
  intros Hn Hu. unfold Fp.convert, binary_normalize.
  assert (R : binary_round prec emax s m e
              = match cond_Zopp s (Zpos m) with
                | 0 => S754_zero s
                | Zpos m0 => binary_round prec emax false m0 e
                | Zneg m0 => binary_round prec emax true m0 e
                end) by (destruct s; reflexivity).
  rewrite <- R. clear R. unfold binary_round.
  pose proof (shl_align_roundable prec emax m e) as H.
  destruct (shl_align m e (fexp prec emax (Zpos (digits2_pos m) + e))) as [mz ez].
  destruct H as (Hr & _ & Hv & Hle).
  rewrite Z.min_r in Hv by lia. rewrite Z.sub_diag, Z.mul_1_r in Hv.
  assert (EV : (inject_Z (Zpos mz) * Fp.pow2Q ez == inject_Z (Zpos m) * Fp.pow2Q e)%Q).
  { rewrite Hv. rewrite <- (pow2Q_shift (Zpos m) (e - ez) e) by lia.
    replace (e - (e - ez)) with ez by lia. reflexivity. }
  apply binary_round_aux_normal; try assumption.
  - lia.
  - rewrite EV. apply Qle_refl.
  - rewrite <- EV. apply Qmult_lt_compat_r; [apply pow2Q_pos|].
    rewrite <- Zlt_Qlt. lia.
Qed.

End ErrorOps.

(** ** Three roundings: the scale and the ratio *)

Local Open Scope Q_scope.

Lemma Qquot_mul (mx my : positive) (ex ey : Z) :
  Qquot mx my ex ey * (inject_Z (Zpos my) * Fp.pow2Q ey) == inject_Z (Zpos mx) * Fp.pow2Q ex.
Proof.
  unfold Qquot.
  assert (0 < inject_Z (Zpos my) * Fp.pow2Q ey).
  { apply Qmult_lt_0_compat; [rewrite <- (Zlt_Qlt 0); lia | apply pow2Q_pos]. }
  rewrite Qmult_comm. apply Qmult_div_r.
  intros E. rewrite E in H. apply (Qlt_irrefl 0). exact H.
Qed.

Lemma Qquot_pos (mx my : positive) (ex ey : Z) : 0 < Qquot mx my ex ey.
Proof.
  unfold Qquot. apply Qlt_shift_div_l.
  - apply Qmult_lt_0_compat; [rewrite <- (Zlt_Qlt 0); lia | apply pow2Q_pos].
  - rewrite Qmult_0_l. apply Qmult_lt_0_compat; [rewrite <- (Zlt_Qlt 0); lia | apply pow2Q_pos].
Qed.

(** The three roundings between a maximum [M] and the ratio of an
    element to the scale [M / 127]. *)
Lemma scale_chain (M X1 S s : Q) :
  0 < M -> X1 * 127 == M ->
  Qabs (S - X1) <= X1 * (1 # 4503599627370496) ->
  Qabs (s - S) <= S * (1 # 8388608) ->
  0 < s /\ X1 * (999999 # 1000000) <= s /\ s <= X1 * (1000001 # 1000000).
Proof.
  intros HM E1 HS Hs.
  apply Qabs_Qle_condition in HS. apply Qabs_Qle_condition in Hs.
  assert (0 < X1) by lra.
  split; [lra|]. split; lra.
Qed.

Lemma ratio_bound (M X1 s A X3 : Q) :
  0 < M -> X1 * 127 == M ->
  X1 * (999999 # 1000000) <= s ->
  0 <= A -> A <= M -> 0 <= X3 -> X3 * s == A ->
  X3 <= 1271 # 10.
Proof.
  intros HM E1 Hs HA0 HA HX E3.
  assert (P1 : 0 < X1) by lra.
  destruct (Qlt_le_dec (1271 # 10) X3) as [Hgt|]; [exfalso|assumption].
  assert (0 <= X3 * (s - X1 * (999999 # 1000000))) by (apply Qmult_le_0_compat; lra).
  assert (0 <= (X3 - (1271 # 10)) * X1) by (apply Qmult_le_0_compat; lra).
  lra.
Qed.

Lemma ratio_upper (X3 Y : Q) :
  0 <= X3 -> X3 <= 1271 # 10 ->
  (Qabs (Y - X3) <= X3 * (1 # 8388608) \/ Qabs (Y - X3) <= 1 # 1000000) ->
  Y < 255 # 2.
Proof.
  intros HX B HY.
  destruct HY as [HY|HY]; apply Qabs_Qle_condition in HY; lra.
Qed.

Lemma ratio_lower_bound (M X1 s X3 : Q) :
  0 < M -> X1 * 127 == M ->
  0 < s -> s <= X1 * (1000001 # 1000000) ->
  0 <= X3 -> X3 * s == M ->
  1269 # 10 <= X3.
Proof.
  intros HM E1 Hs0 Hs HX E3.
  assert (P1 : 0 < X1) by lra.
  destruct (Qlt_le_dec X3 (1269 # 10)) as [Hlt|]; [exfalso|assumption].
  assert (0 <= X3 * (X1 * (1000001 # 1000000) - s)) by (apply Qmult_le_0_compat; lra).
  assert (0 <= ((1269 # 10) - X3) * X1) by (apply Qmult_le_0_compat; lra).
  lra.
Qed.

Lemma ratio_lower (X3 Y : Q) :
  1269 # 10 <= X3 -> Qabs (Y - X3) <= X3 * (1 # 8388608) -> 253 # 2 < Y.
Proof.
  intros B HY. apply Qabs_Qle_condition in HY. lra.
Qed.

Local Close Scope Q_scope.

Lemma SF2Q_lt_pow (m : positive) (e : Z) :
  (inject_Z (Zpos m) * Fp.pow2Q e < Fp.pow2Q (Zdigits2 (Zpos m) + e))%Q.
Proof.
  rewrite pow2Q_add. apply Qmult_lt_compat_r; [apply pow2Q_pos|].
  rewrite pow2Q_inject by apply Zdigits2_nonneg. rewrite <- Zlt_Qlt.
  pose proof (Zdigits2_bounds (Zpos m) ltac:(lia)). lia.
Qed.

Lemma Qabs_SF2Q_finite (s : bool) (m : positive) (e : Z) :
  (Qabs (Fp.SF2Q (S754_finite s m e)) == inject_Z (Zpos m) * Fp.pow2Q e)%Q.
Proof.
  cbn [Fp.SF2Q]. rewrite Qabs_Qmult. rewrite (Qabs_pos (Fp.pow2Q e))
    by (pose proof (pow2Q_pos e); hide_pow2Q; lra).
  apply Qmult_comp; [|reflexivity].
  destruct s; cbn [cond_Zopp]; [rewrite inject_Z_opp, Qabs_opp|];
    apply Qabs_pos; rewrite <- (Zle_Qle 0); lia.
Qed.

(** With the scale [max / 127] of a tensor whose maximum magnitude is at
    least [2^-119], the float32 ratio of every element is finite and
    below 127.5 in magnitude, and that of a maximal element is above
    126.5. *)
Lemma calibrated_ratio (m : positive) (e : Z) (v : spec_float) :
  let mx := S754_finite false m e in
  let scale := F64.div (F64.of_f32 mx) (F64.of_Z 127) in
  F32.valid mx = true ->
  (Fp.pow2Q (-119) <= Fp.SF2Q mx)%Q ->
  real32 v -> (Qabs (Fp.SF2Q v) <= Fp.SF2Q mx)%Q ->
  Fp.is_finite (ratio32 v scale) = true /\
  (Qabs (Fp.SF2Q (ratio32 v scale)) < 255 # 2)%Q /\
  ((Qabs (Fp.SF2Q v) == Fp.SF2Q mx)%Q ->
   (253 # 2 < Qabs (Fp.SF2Q (ratio32 v scale)))%Q).
Proof.
  intros mx scale V Hlow [Vv Fv] Hle.
  destruct (item_finite false m e V) as (m' & e' & Ei & Hd & Hrange & Hval).
  unfold Torch.item in Ei.
  set (M := Fp.SF2Q mx) in *.
  assert (EMv : (M == inject_Z (Zpos m) * Fp.pow2Q e)%Q) by reflexivity.
  assert (P119 : (Fp.pow2Q (-119) == 1 # 664613997892457936451903530140172288)%Q)
    by reflexivity.
  assert (HM0 : (0 < M)%Q) by (rewrite P119 in Hlow; lra).
  assert (HMhi : (M < 340282366920938463463374607431768211456)%Q).
  { rewrite EMv. eapply Qlt_le_trans; [apply SF2Q_lt_pow|].
    eapply Qle_trans; [apply (pow2Q_le_mono _ 128); lia|].
    apply Qle_bool_iff. reflexivity. }
  set (X1 := Qquot m' 8936830510563328 e' (-46)).
  assert (E1 : (X1 * 127 == M)%Q).
  { pose proof (Qquot_mul m' 8936830510563328 e' (-46)) as H. fold X1 in H.
    assert (E127 : (inject_Z 8936830510563328 * Fp.pow2Q (-46) == 127)%Q) by reflexivity.
    rewrite E127 in H. rewrite H. cbn [Fp.SF2Q cond_Zopp] in Hval. exact Hval. }
  (* the Python float scale *)
  assert (HS : exists mS eS,
             scale = S754_finite false mS eS /\
             (Qabs (inject_Z (Zpos mS) * Fp.pow2Q eS - X1)
              <= X1 * (1 # 4503599627370496))%Q).
  { unfold scale, mx. rewrite Ei.
    change (F64.of_Z 127) with (S754_finite false 8936830510563328 (-46)).
    assert (P52 : (Fp.pow2Q (1 - F64.prec) == 1 # 4503599627370496)%Q) by reflexivity.
    destruct (SFdiv_normal F64.prec F64.emax ltac:(reflexivity) false false
                m' 8936830510563328 e' (-46)) as (mS & eS & ES & HS).
    3:{ exists mS, eS. split; [exact ES|]. fold X1 in HS. rewrite P52 in HS. exact HS. }
    - fold X1. eapply Qle_trans; [apply (pow2Q_le_mono _ (-127)); unfold emin, F64.emax, F64.prec; lia|].
      assert (P127 : (Fp.pow2Q (-127) == 1 # 170141183460469231731687303715884105728)%Q)
        by reflexivity.
      rewrite P127. rewrite P119 in Hlow. lra.
    - fold X1. eapply Qlt_le_trans; [|apply (pow2Q_le_mono 122); unfold F64.emax; lia].
      assert (P122 : (Fp.pow2Q 122 == 5316911983139663491615228241121378304)%Q)
        by reflexivity.
      rewrite P122. lra. }
  destruct HS as (mS & eS & ES & HSv).
  set (S := (inject_Z (Zpos mS) * Fp.pow2Q eS)%Q) in *.
  (* the float32 scale *)
  assert (Hs : exists ms es,
             F32.of_f64 scale = S754_finite false ms es /\
             (Qabs (inject_Z (Zpos ms) * Fp.pow2Q es - S) <= S * (1 # 8388608))%Q).
  { rewrite ES. unfold F32.of_f64.
    assert (P23 : (Fp.pow2Q (1 - F32.prec) == 1 # 8388608)%Q) by reflexivity.
    apply Qabs_Qle_condition in HSv.
    destruct (convert_normal F32.prec F32.emax ltac:(reflexivity) false mS eS)
      as (ms & es & Es & Hs).
    3:{ exists ms, es. split; [exact Es|]. fold S in Hs. rewrite P23 in Hs. exact Hs. }
    - fold S.
      assert (P126 : (Fp.pow2Q (emin F32.prec F32.emax + F32.prec - 1)
                      == 1 # 85070591730234615865843651857942052864)%Q) by reflexivity.
      rewrite P126. rewrite P119 in Hlow. lra.
    - fold S.
      assert (P127 : (Fp.pow2Q (F32.emax - 1)
                      == 170141183460469231731687303715884105728)%Q) by reflexivity.
      rewrite P127. lra. }
  destruct Hs as (ms & es & Es & Hsv).
  set (s := (inject_Z (Zpos ms) * Fp.pow2Q es)%Q) in *.
  destruct (scale_chain M X1 S s HM0 E1 HSv Hsv) as (Hs0 & Hs1 & Hs2).
  unfold ratio32, F32.div. rewrite Es.
  destruct v as [sv|sv| |sv mv ev]; try discriminate Fv.
  - cbn [SFdiv]. split; [reflexivity|]. split.
    + cbn [Fp.SF2Q]. reflexivity.
    + intros EA. exfalso. cbn [Fp.SF2Q] in EA.
      assert (Qabs 0 == 0)%Q by reflexivity. lra.
  - pose proof (Qabs_SF2Q_finite sv mv ev) as EA.
    set (A := Qabs (Fp.SF2Q (S754_finite sv mv ev))) in *.
    set (X3 := Qquot mv ms ev es).
    assert (E3 : (X3 * s == A)%Q).
    { rewrite EA. apply Qquot_mul. }
    assert (HX0 : (0 <= X3)%Q) by (apply Qlt_le_weak, Qquot_pos).
    assert (HA0 : (0 <= A)%Q) by apply Qabs_nonneg.
    pose proof (ratio_bound M X1 s A X3 HM0 E1 Hs1 HA0 Hle HX0 E3) as HB.
    assert (Hu : (X3 < Fp.pow2Q (F32.emax - 1))%Q).
    { assert (P127 : (Fp.pow2Q (F32.emax - 1)
                      == 170141183460469231731687303715884105728)%Q) by reflexivity.
      rewrite P127. lra. }
    pose proof (SFdiv_small F32.prec F32.emax ltac:(reflexivity) ltac:(reflexivity)
                  sv false mv ms ev es Hu) as HR.
    cbv zeta in HR. fold X3 in HR. destruct HR as [Hc Hv].
    set (r := SFdiv F32.prec F32.emax (S754_finite sv mv ev) (S754_finite false ms es)) in *.
    split; [|split].
    + destruct Hc as [->|(mr & er & ->)]; reflexivity.
    + apply (ratio_upper X3); [exact HX0|exact HB|].
      assert (P23 : (Fp.pow2Q (1 - F32.prec) == 1 # 8388608)%Q) by reflexivity.
      rewrite P23 in Hv. destruct Hv as [Hv|Hv]; [left; exact Hv|right].
      eapply Qle_trans; [exact Hv|]. apply Qle_bool_iff. reflexivity.
    + intros EAM.
      assert (E3' : (X3 * s == M)%Q) by (rewrite E3; exact EAM).
      pose proof (ratio_lower_bound M X1 s X3 HM0 E1 Hs0 Hs2 HX0 E3') as HL.
      assert (Hn : (Fp.pow2Q (emin F32.prec F32.emax + F32.prec - 1) <= X3)%Q).
      { assert (P126 : (Fp.pow2Q (emin F32.prec F32.emax + F32.prec - 1)
                        == 1 # 85070591730234615865843651857942052864)%Q) by reflexivity.
        rewrite P126. lra. }
      destruct (SFdiv_normal F32.prec F32.emax ltac:(reflexivity)
                  sv false mv ms ev es Hn Hu) as (mr & er & Er & Hvr).
      fold r in Er. rewrite Er. rewrite Qabs_SF2Q_finite.
      apply (ratio_lower X3); [exact HL|].
      assert (P23 : (Fp.pow2Q (1 - F32.prec) == 1 # 8388608)%Q) by reflexivity.
      rewrite P23 in Hvr. exact Hvr.
Qed.

(** ** Quantization with the tensor's own scale *)

Lemma rint_Z_abs_le (r : spec_float) :
  (Qabs (Fp.SF2Q r) < 255 # 2)%Q -> -127 <= Fp.rint_Z r <= 127.
Proof.
  intros H. pose proof (rint_Z_nearest r) as N.
  apply Qabs_Qle_condition in N.
  assert (B : (- (255 # 2) < Fp.SF2Q r /\ Fp.SF2Q r < 255 # 2)%Q).
  { apply Qabs_Qlt_condition. exact H. }
  assert (L : (inject_Z (-128) < inject_Z (Fp.rint_Z r))%Q).
  { change (inject_Z (-128)) with (-128 # 1)%Q. lra. }
  assert (U : (inject_Z (Fp.rint_Z r) < inject_Z 128)%Q).
  { change (inject_Z 128) with (128 # 1)%Q. lra. }
  rewrite <- Zlt_Qlt in L, U. lia.
Qed.

Lemma rint_Z_abs_ge (r : spec_float) :
  (253 # 2 < Qabs (Fp.SF2Q r))%Q -> 127 <= Z.abs (Fp.rint_Z r).
Proof.
  intros H. pose proof (rint_Z_nearest r) as N.
  apply Qabs_Qle_condition in N.
  destruct (Qlt_le_dec (Fp.SF2Q r) 0) as [Hneg|Hpos].
  - rewrite Qabs_neg in H by lra.
    assert (U : (inject_Z (Fp.rint_Z r) < inject_Z (-126))%Q).
    { change (inject_Z (-126)) with (-126 # 1)%Q. lra. }
    rewrite <- Zlt_Qlt in U. lia.
  - rewrite Qabs_pos in H by lra.
    assert (L : (inject_Z 126 < inject_Z (Fp.rint_Z r))%Q).
    { change (inject_Z 126) with (126 # 1)%Q. lra. }
    rewrite <- Zlt_Qlt in L. lia.
Qed.

Lemma quant8_in_range (r : spec_float) :
  Fp.is_finite r = true -> -127 <= Fp.rint_Z r <= 127 -> quant8 r = Fp.rint_Z r.
Proof.
  intros F H. destruct r; try discriminate F; cbn [quant8]; unfold sat8; lia.
Qed.

(** The scale of a tensor and its maximal element. *)
Lemma calc_scale_sym_max (t : list spec_float) (scale : spec_float) :
  Forall real32 t ->
  Exists (fun v => (Fp.pow2Q (-119) <= Qabs (Fp.SF2Q v))%Q) t ->
  calc_scale_sym t 127 = Ok scale ->
  exists m e,
    F32.valid (S754_finite false m e) = true /\
    In (S754_finite false m e) (map SFabs t) /\
    (Fp.pow2Q (-119) <= Fp.SF2Q (S754_finite false m e))%Q /\
    (forall v, In v t -> (Qabs (Fp.SF2Q v) <= Fp.SF2Q (S754_finite false m e))%Q) /\
    scale = F64.div (F64.of_f32 (S754_finite false m e)) (F64.of_Z 127).
Proof.
  intros F Hex Hs.
  assert (Hne : t <> []) by (intros ->; inversion Hex).
  destruct (max_abs_greatest t Hne F) as (mx & Hmx & Imx & Rmx & Gmx).
  apply Exists_exists in Hex. destruct Hex as [w [Hw Hlow]].
  pose proof (Gmx w Hw) as Hwm.
  pose proof (pow2Q_pos (-119)) as P.
  destruct (calc_scale_sym_branches t mx Hmx Imx Rmx)
    as [[Ez _]|(m & e & m' & e' & Em & Ec & _)].
  - exfalso. rewrite Ez in Hwm. cbn [Fp.SF2Q] in Hwm. hide_pow2Q. lra.
  - exists m, e. rewrite <- Em. split; [exact (proj1 Rmx)|]. split; [exact Imx|].
    split; [hide_pow2Q; lra|]. split; [exact Gmx|].
    rewrite Ec in Hs. inversion Hs. reflexivity.
Qed.

(** Quantizing a layer with the scale of its own weights never
    saturates: every weight is the plain rounding of its ratio, between
    -127 and 127, and a weight of maximal magnitude quantizes to 127 or
    -127.  The maximal magnitude has to be at least [2^-119], so that
    the scale is a normal float32. *)
Theorem quantize_linear_no_saturation
  (l : Linear) (in_scale w_scale : spec_float) (Wq : list (list Z)) (bq : list Z) :
  Forall real32 (concat (weight l)) ->
  Exists (fun w => (Fp.pow2Q (-119) <= Qabs (Fp.SF2Q w))%Q) (concat (weight l)) ->
  calc_scale_sym (concat (weight l)) 127 = Ok w_scale ->
  quantize_linear l in_scale w_scale = (Wq, bq) ->
  Wq = map (map (fun w => Fp.rint_Z (ratio32 w w_scale))) (weight l) /\
  Forall (Forall (fun n => -127 <= n <= 127)) Wq /\
  Exists (Exists (fun n => Z.abs n = 127)) Wq.
Proof.
  intros F Hex Hs Hq.
  destruct (calc_scale_sym_max _ _ F Hex Hs) as (m & e & V & Im & Hlow & G & ->).
  set (scale := F64.div (F64.of_f32 (S754_finite false m e)) (F64.of_Z 127)) in *.
  assert (K : forall w, In w (concat (weight l)) ->
                        Fp.is_finite (ratio32 w scale) = true /\
                        -127 <= Fp.rint_Z (ratio32 w scale) <= 127 /\
                        (SFabs w = S754_finite false m e ->
                         Z.abs (Fp.rint_Z (ratio32 w scale)) = 127)).
  { intros w Hw. rewrite Forall_forall in F.
    destruct (calibrated_ratio m e w V Hlow (F w Hw) (G w Hw)) as (Hf & Hu & Hl).
    fold scale in Hf, Hu, Hl.
    pose proof (rint_Z_abs_le _ Hu) as B.
    split; [exact Hf|]. split; [exact B|].
    intros Ea. assert (Hv : (Qabs (Fp.SF2Q w) == Fp.SF2Q (S754_finite false m e))%Q).
    { rewrite <- Ea. symmetry. apply SFabs_value. }
    pose proof (rint_Z_abs_ge _ (Hl Hv)). lia. }
  apply quantize_linear_inv in Hq. destruct Hq as (EW & _).
  assert (E : Wq = map (map (fun w => Fp.rint_Z (ratio32 w scale))) (weight l)).
  { rewrite EW. apply map_ext_in. intros row Hrow. apply map_ext_in. intros w Hw.
    assert (Hin : In w (concat (weight l))) by (apply in_concat; eauto).
    destruct (K w Hin) as (Hf & B & _). apply quant8_in_range; assumption. }
  split; [exact E|]. rewrite E. split.
  - apply Forall_forall. intros q Hq. apply in_map_iff in Hq. destruct Hq as [row [<- Hrow]].
    apply Forall_forall. intros n Hn. apply in_map_iff in Hn. destruct Hn as [w [<- Hw]].
    assert (Hin : In w (concat (weight l))) by (apply in_concat; eauto).
    apply (K w Hin).
  - apply in_map_iff in Im. destruct Im as [w [Ea Hw]].
    pose proof (K w Hw) as (_ & _ & Hmax).
    apply in_concat in Hw. destruct Hw as [row [Hrow Hw]].
    apply Exists_exists. exists (map (fun w => Fp.rint_Z (ratio32 w scale)) row).
    split; [apply (in_map (map (fun w => Fp.rint_Z (ratio32 w scale)))); exact Hrow|].
    apply Exists_exists. exists (Fp.rint_Z (ratio32 w scale)).
    split; [apply (in_map (fun w => Fp.rint_Z (ratio32 w scale))); exact Hw|].
    apply Hmax. exact Ea.
Qed.

Lemma quantize_linear_no_saturation_witness :
  [[18; 54]; [91; -127]]
  = map (map (fun w => Fp.rint_Z (ratio32 w Ex.scale_of_linear))) (weight Ex.linear) /\
  Forall (Forall (fun n => -127 <= n <= 127)) [[18; 54]; [91; -127]] /\
  Exists (Exists (fun n => Z.abs n = 127)) [[18; 54]; [91; -127]].
Proof.
  apply (quantize_linear_no_saturation Ex.linear F64.one Ex.scale_of_linear
           [[18; 54]; [91; -127]] [3629; -127]).
  - repeat constructor.
  - apply Exists_cons_hd. vm_compute. congruence.
  - reflexivity.
  - reflexivity.
Defined.

(** Below the threshold the float32 scale can underflow: with a maximum
    of [2^-149] it is zero, the ratio of the maximum is [+inf], which
    saturates, and the ratio of a zero element is 0 / 0, which gives 0. *)
Lemma tiny_maximum_underflows :
  calc_scale_sym [S754_finite false 1 (-149); S754_zero false] 127
  = Ok (S754_finite false 4539061041759240 (-208)) /\
  F32.of_f64 (S754_finite false 4539061041759240 (-208)) = S754_zero false /\
  x0_q [S754_finite false 1 (-149); S754_zero false]
       (S754_finite false 4539061041759240 (-208)) = [127; 0].
Proof. repeat split; reflexivity. Qed.

(** ** The dequantization error *)

Local Open Scope Q_scope.

Lemma dequant_error (S s X3 Y N A : Q) :
  0 < S -> Qabs (s - S) <= S * (1 # 8388608) ->
  0 <= X3 -> X3 <= 1271 # 10 -> X3 * s == A ->
  Qabs (Y - X3) <= 1 # 65536 -> Qabs (N - Y) <= 1 # 2 ->
  Qabs (N * S - A) <= (8193 # 16384) * S.
Proof.
  intros HS Hs H0 HB EA HY HN.
  apply Qabs_Qle_condition in Hs. apply Qabs_Qle_condition in HY.
  apply Qabs_Qle_condition in HN. apply Qabs_Qle_condition.
  assert (P1 : 0 <= X3 * (S * (1 # 8388608) - (s - S))) by (apply Qmult_le_0_compat; lra).
  assert (P2 : 0 <= X3 * (S * (1 # 8388608) + (s - S))) by (apply Qmult_le_0_compat; lra).
  assert (P3 : 0 <= ((1271 # 10) - X3) * S) by (apply Qmult_le_0_compat; lra).
  assert (P4 : 0 <= ((1 # 2) - (N - Y)) * S) by (apply Qmult_le_0_compat; lra).
  assert (P5 : 0 <= ((1 # 2) + (N - Y)) * S) by (apply Qmult_le_0_compat; lra).
  assert (P6 : 0 <= ((1 # 65536) - (Y - X3)) * S) by (apply Qmult_le_0_compat; lra).
  assert (P7 : 0 <= ((1 # 65536) + (Y - X3)) * S) by (apply Qmult_le_0_compat; lra).
  split; lra.
Qed.

Local Close Scope Q_scope.

Lemma SF2Q_signed (s : bool) (m : positive) (e : Z) :
  (Fp.SF2Q (S754_finite s m e)
   == (if s then -1 else 1) * (inject_Z (Zpos m) * Fp.pow2Q e))%Q.
Proof.
  cbn [Fp.SF2Q]. destruct s; cbn [cond_Zopp].
  - rewrite inject_Z_opp. ring.
  - ring.
Qed.

(** The dequantization error of an element that does not saturate, the
    float roundings included (the scale cast to float32, the float32
    division): for a positive scale in the normal float32 range and an
    element of magnitude at most 127 scales, the integer times the scale
    is within [(1/2 + 2^-14)] scales of the element. *)
Theorem x0_q_error (v : spec_float) (ms : positive) (es : Z) :
  let scale_x := S754_finite false ms es in
  real32 v ->
  (Fp.pow2Q (-126) <= Fp.SF2Q scale_x)%Q -> (Fp.SF2Q scale_x < Fp.pow2Q 127)%Q ->
  (Qabs (Fp.SF2Q v) <= 127 * Fp.SF2Q scale_x)%Q ->
  exists n,
    x0_q [v] scale_x = [n] /\
    -127 <= n <= 127 /\
    (Qabs (inject_Z n * Fp.SF2Q scale_x - Fp.SF2Q v) <= (8193 # 16384) * Fp.SF2Q scale_x)%Q.
Proof.
  intros scale_x [Vv Fv] Hlo Hhi Hle.
  set (S := Fp.SF2Q scale_x) in *.
  assert (ES : (S == inject_Z (Zpos ms) * Fp.pow2Q es)%Q) by (unfold S; cbn; ring).
  assert (P126 : (Fp.pow2Q (-126) == 1 # 85070591730234615865843651857942052864)%Q)
    by reflexivity.
  assert (P127 : (Fp.pow2Q 127 == 170141183460469231731687303715884105728)%Q)
    by reflexivity.
  assert (HS0 : (0 < S)%Q) by (rewrite P126 in Hlo; lra).
  destruct (convert_normal F32.prec F32.emax ltac:(reflexivity) false ms es)
    as (m' & e' & Es & Hs).
  { rewrite <- ES. exact Hlo. }
  { rewrite <- ES. exact Hhi. }
  rewrite <- ES in Hs.
  assert (P23 : (Fp.pow2Q (1 - F32.prec) == 1 # 8388608)%Q) by reflexivity.
  rewrite P23 in Hs.
  set (s := (inject_Z (Zpos m') * Fp.pow2Q e')%Q) in *.
  assert (Hs' := Hs). apply Qabs_Qle_condition in Hs'.
  exists (Fp.rint_Z (ratio32 v scale_x)).
  assert (K : Fp.is_finite (ratio32 v scale_x) = true /\
              (Qabs (Fp.SF2Q (ratio32 v scale_x)) < 255 # 2)%Q /\
              (Qabs (inject_Z (Fp.rint_Z (ratio32 v scale_x)) * S - Fp.SF2Q v)
               <= (8193 # 16384) * S)%Q).
  { assert (Er : ratio32 v scale_x = SFdiv F32.prec F32.emax v (S754_finite false m' e')).
    { unfold ratio32, F32.div, F32.of_f64, scale_x. rewrite Es. reflexivity. }
    rewrite Er. clear Er.
    destruct v as [sv|sv| |sv mv ev]; try discriminate Fv.
    - cbn [SFdiv Fp.SF2Q Fp.rint_Z Fp.is_finite]. split; [reflexivity|].
      split; [reflexivity|].
      change (inject_Z 0) with 0%Q. apply Qabs_Qle_condition. split; lra.
    - pose proof (Qabs_SF2Q_finite sv mv ev) as EA.
      set (A := (inject_Z (Zpos mv) * Fp.pow2Q ev)%Q) in *.
      rewrite EA in Hle.
      set (X3 := Qquot mv m' ev e').
      assert (E3 : (X3 * s == A)%Q) by apply Qquot_mul.
      assert (HX0 : (0 <= X3)%Q) by (apply Qlt_le_weak, Qquot_pos).
      assert (HA0 : (0 <= A)%Q).
      { unfold A. apply Qmult_le_0_compat; [rewrite <- (Zle_Qle 0); lia|].
        apply Qlt_le_weak, pow2Q_pos. }
      assert (HB : (X3 <= 1271 # 10)%Q).
      { apply (ratio_bound (127 * S) S s A X3); try assumption; try lra. }
      assert (Hu : (X3 < Fp.pow2Q (F32.emax - 1))%Q).
      { change (F32.emax - 1) with 127. rewrite P127. lra. }
      pose proof (SFdiv_small F32.prec F32.emax ltac:(reflexivity) ltac:(reflexivity)
                    sv false mv m' ev e' Hu) as HR.
      cbv zeta in HR. fold X3 in HR. destruct HR as [Hc Hv].
      set (r := SFdiv F32.prec F32.emax (S754_finite sv mv ev) (S754_finite false m' e')) in *.
      rewrite P23 in Hv.
      assert (HY : (Qabs (Qabs (Fp.SF2Q r) - X3) <= 1 # 65536)%Q).
      { destruct Hv as [Hv|Hv]; (eapply Qle_trans; [exact Hv|]).
        - lra.
        - apply Qle_bool_iff. reflexivity. }
      assert (HU : (Qabs (Fp.SF2Q r) < 255 # 2)%Q).
      { apply Qabs_Qle_condition in HY. lra. }
      split; [destruct Hc as [->|(mr & er & ->)]; reflexivity|].
      split; [exact HU|].
      pose proof (rint_Z_nearest r) as HN.
      rewrite (SF2Q_signed sv mv ev). fold A.
      replace (xorb sv false) with sv in Hc by (destruct sv; reflexivity).
      assert (ER : (Fp.SF2Q r == (if sv then -1 else 1) * Qabs (Fp.SF2Q r))%Q).
      { destruct Hc as [->|(mr & er & ->)].
        - cbn [Fp.SF2Q]. destruct sv; reflexivity.
        - rewrite Qabs_SF2Q_finite. apply SF2Q_signed. }
      set (Y := Qabs (Fp.SF2Q r)) in *. set (N := inject_Z (Fp.rint_Z r)) in *.
      rewrite ER in HN. destruct sv.
      + assert (HN' : (Qabs (- N - Y) <= 1 # 2)%Q).
        { apply Qabs_Qle_condition in HN. apply Qabs_Qle_condition. split; lra. }
        pose proof (dequant_error S s X3 Y (- N) A HS0 Hs HX0 HB E3 HY HN') as D.
        apply Qabs_Qle_condition in D. apply Qabs_Qle_condition. split; lra.
      + assert (HN' : (Qabs (N - Y) <= 1 # 2)%Q).
        { apply Qabs_Qle_condition in HN. apply Qabs_Qle_condition. split; lra. }
        pose proof (dequant_error S s X3 Y N A HS0 Hs HX0 HB E3 HY HN') as D.
        apply Qabs_Qle_condition in D. apply Qabs_Qle_condition. split; lra. }
  destruct K as (Kf & Ku & Ke).
  pose proof (rint_Z_abs_le _ Ku) as B.
  split; [|split; [exact B|exact Ke]].
  unfold x0_q. rewrite quantize_row_int8 by (constructor; [exact Kf|constructor]).
  cbn [map]. unfold sat8. repeat f_equal. lia.
Qed.

Lemma x0_q_error_witness :
  exists n,
    x0_q [Ex.one_and_three_quarters] Ex.seven_tenths = [n] /\
    -127 <= n <= 127 /\
    (Qabs (inject_Z n * Fp.SF2Q Ex.seven_tenths - Fp.SF2Q Ex.one_and_three_quarters)
     <= (8193 # 16384) * Fp.SF2Q Ex.seven_tenths)%Q.
Proof.
  apply (x0_q_error Ex.one_and_three_quarters 6305039478318694 (-53)).
  - split; reflexivity.
  - vm_compute. congruence.
  - vm_compute. congruence.
  - vm_compute. congruence.
Defined.
